(** * Layer depth order task generator

    A shallow embedding of [src/generator.py], [src/config.py] and
    [src/prompts.py].  Python objects that are shared and mutated (the shape
    dictionaries of a scene, the palette list of the configuration) live in an
    explicit store; exceptions keep the store they were raised in.  The
    libraries the generator calls ([random], Pillow, the file system and the
    video encoder of [core.video_utils]) are interfaces, given as type
    classes; the paths of [pathlib] are modelled as POSIX paths. *)

From Stdlib Require Import ZArith Lia String Ascii SpecFloat QArith Qabs.
From stdpp Require Import base gmap list strings pretty sorting.

Open Scope Z_scope.

(** ** Python values *)

Inductive Exn :=
  | ValueError
  | ZeroDivisionError
  | IndexError
  | OverflowError
  | OSError
  | DanglingReference.

(** Object identities. *)
Definition loc := positive.

(** An RGBA tuple. *)
Definition Color := (Z * Z * Z * Z)%type.

(** The dictionary built for one shape in [_generate_task_data]. *)
Record Shape := mkShape {
  shape_x : Z;
  shape_y : Z;
  shape_size : Z;
  shape_type : string;
  shape_color : Color;
  shape_layer : Z
}.

Definition set_x (v : Z) (s : Shape) : Shape :=
  mkShape v (shape_y s) (shape_size s) (shape_type s) (shape_color s) (shape_layer s).

Definition set_y (v : Z) (s : Shape) : Shape :=
  mkShape (shape_x s) v (shape_size s) (shape_type s) (shape_color s) (shape_layer s).

(** The dictionary returned by [_generate_task_data]; the shapes are
    references to their dictionaries. *)
Record TaskData := mkTaskData {
  td_shapes : list loc;
  td_num_shapes : Z;
  td_type : string
}.

(** [TaskConfig] of [src/config.py].  [shape_colors] is a list object. *)
Record TaskConfig := mkTaskConfig {
  domain : string;
  image_size : Z * Z;
  generate_videos : bool;
  video_fps : Z;
  min_shapes : Z;
  max_shapes : Z;
  min_shape_size : Z;
  max_shape_size : Z;
  shape_colors : loc;
  bg_color : Z * Z * Z;
  label_color : Z * Z * Z
}.

Definition default_shape_colors : list Color :=
  [ (255, 100, 100, 180); (100, 255, 100, 180); (100, 100, 255, 180);
    (255, 255, 100, 180); (255, 100, 255, 180); (100, 255, 255, 180) ].

Definition default_config (palette : loc) : TaskConfig :=
  mkTaskConfig "layer_depth" (512, 512) true 10 3 5 80 150 palette
    (255, 255, 255) (50, 50, 50).

(** ** The [random] module

    [random.randint], [random.choice] and [random.shuffle] all draw from
    [_randbelow]; the generator state is threaded through the store. *)
Class Random := {
  RngState : Type;
  rng_below : Z → RngState → Z * RngState;
  rng_shuffle : list Color → RngState → list Color * RngState;
  rng_below_range : ∀ n r, 0 < n → 0 ≤ (rng_below n r).1 < n;
  rng_shuffle_perm : ∀ l r, (rng_shuffle l r).1 ≡ₚ l
}.

(** ** Pillow

    An image is its mode, its size and its pixels.  What a drawing call of
    [ImageDraw] writes is decided by Pillow's rasteriser: [ellipse],
    [rectangle] and [polygon] give, for the call's arguments (geometry, fill,
    outline, outline width) and a pixel, the ink written there, if any.
    [blend] is the per-channel arithmetic of [Image.paste] under a mask value;
    [text], [line] and [polygon_fill] draw the annotations. *)
Inductive Mode := RGBA | RGB.

Record Image := mkImage {
  im_mode : Mode;
  im_size : Z * Z;
  im_px : Z → Z → Color
}.

Class Pillow := {
  Font : Type;
  truetype : string → Z → option Font;
  load_default : Font;
  ellipse : Z * Z * Z * Z → Color → Color → Z → Z → Z → option Color;
  rectangle : Z * Z * Z * Z → Color → Color → Z → Z → Z → option Color;
  polygon : list (Z * Z) → Color → Color → Z → Z → Z → option Color;
  blend : Z → Z → Z → Z;
  text : Image → Z * Z → string → Z * Z * Z → Font → Image;
  line : Image → list (Z * Z) → Z * Z * Z → Z → Image;
  polygon_fill : Image → list (Z * Z) → Z * Z * Z → Image
}.

(** ** Paths: [pathlib] on POSIX

    A path is its root (empty for a relative path, "/" or "//") and its
    components.  Parsing a string drops the empty components and the
    components "."; a root of exactly two slashes is kept, any other number
    of leading slashes is the root "/".  Joining a segment that has a root
    replaces the path, as [Path.__truediv__] does; any other segment
    appends its components. *)
Record Path := mkPath {
  path_root : string;
  path_parts : list string
}.

(** [s.split("/")] *)
Fixpoint split_sep (s : string) : list string :=
  match s with
  | EmptyString => [EmptyString]
  | String c s' =>
      if Ascii.eqb c "/"%char then EmptyString :: split_sep s'
      else match split_sep s' with
           | [] => [String c EmptyString]
           | x :: xs => String c x :: xs
           end
  end.

Fixpoint leading_seps (s : string) : nat :=
  match s with
  | EmptyString => 0
  | String c s' => if Ascii.eqb c "/"%char then S (leading_seps s') else 0
  end.

Definition splitroot (s : string) : string :=
  match leading_seps s with
  | 0%nat => EmptyString
  | 2%nat => "//"
  | _ => "/"
  end.

Definition components (s : string) : list string :=
  filter (λ x, x ≠ EmptyString ∧ x ≠ "."%string) (split_sep s).

(** [Path(s)] *)
Definition Path_of (s : string) : Path := mkPath (splitroot s) (components s).

(** [p / segment] *)
Definition joinpath (p : Path) (segment : string) : Path :=
  let q := Path_of segment in
  if decide (path_root q = EmptyString)
  then mkPath (path_root p) (path_parts p ++ path_parts q)
  else q.

Fixpoint join_sep (parts : list string) : string :=
  match parts with
  | [] => EmptyString
  | [x] => x
  | x :: rest => x +:+ "/" +:+ join_sep rest
  end.

(** [str(p)] *)
Definition Path_str (p : Path) : string :=
  let s := path_root p +:+ join_sep (path_parts p) in
  if decide (s = EmptyString) then "." else s.

(** ** Temporary files and the video encoder of [core.video_utils]

    [mkdir p] is what [p.mkdir(parents=True, exist_ok=True)] does on the
    file system at hand: it returns, or raises (an OSError when the
    directory cannot be made). *)
Record VideoGenerator := mkVideoGenerator {
  vg_fps : Z;
  vg_output_format : string
}.

Class VideoBackend := {
  is_available : bool;
  gettempdir : string;
  mkdir : Path → option Exn;
  create_video_from_frames : VideoGenerator → list Image → Path → option string
}.

(** [TaskPair] of [core]. *)
Record TaskPair := mkTaskPair {
  task_id : string;
  tp_domain : string;
  prompt : string;
  first_image : Image;
  final_image : Image;
  ground_truth_video : option string
}.

Record TaskGenerator := mkTaskGenerator {
  config : TaskConfig;
  video_generator : option VideoGenerator
}.

Section Generator.
Context {rnd : Random} {pil : Pillow} {vid : VideoBackend}.

(** ** Store and computations *)

Record World := mkWorld {
  dicts : gmap loc Shape;
  lists : gmap loc (list Color);
  rng : RngState;
  drawn : list Shape
}.

Definition with_dicts (d : gmap loc Shape) (w : World) : World :=
  mkWorld d (lists w) (rng w) (drawn w).

Definition with_lists (l : gmap loc (list Color)) (w : World) : World :=
  mkWorld (dicts w) l (rng w) (drawn w).

Definition with_rng (r : RngState) (w : World) : World :=
  mkWorld (dicts w) (lists w) r (drawn w).

Definition with_drawn (d : list Shape) (w : World) : World :=
  mkWorld (dicts w) (lists w) (rng w) d.

Inductive Result (A : Type) : Type :=
  | Ok (a : A) (w : World)
  | Raise (e : Exn) (w : World).
Arguments Ok {A} a w.
Arguments Raise {A} e w.

Definition M (A : Type) : Type := World → Result A.

#[global] Instance M_ret : MRet M := λ A a w, Ok a w.

#[global] Instance M_bind : MBind M := λ A B f m w,
  match m w with
  | Ok a w' => f a w'
  | Raise e w' => Raise e w'
  end.

Definition raise {A} (e : Exn) : M A := λ w, Raise e w.

(** The store a computation ends in, whether it returned or raised. *)
Definition world_of {A} (r : Result A) : World :=
  match r with
  | Ok _ w => w
  | Raise _ w => w
  end.

Fixpoint foldM {A B} (f : B → A → M B) (b : B) (l : list A) : M B :=
  match l with
  | [] => mret b
  | a :: l' => b' ← f b a; foldM f b' l'
  end.

(** [range(n)] *)
Definition range (n : Z) : list Z := Z.of_nat <$> seq 0 (Z.to_nat n).

(** [enumerate(l)] *)
Definition enumerate {A} (l : list A) : list (Z * A) :=
  imap (λ i a, (Z.of_nat i, a)) l.

(** [l[i]] on a list value. *)
Definition getitem {A} (l : list A) (i : Z) : M A :=
  let j := if i <? 0 then i + Z.of_nat (length l) else i in
  if j <? 0 then raise IndexError
  else match l !! Z.to_nat j with
       | Some a => mret a
       | None => raise IndexError
       end.

(** [a % b] and [a // b] on integers. *)
Definition py_mod (a b : Z) : M Z :=
  if b =? 0 then raise ZeroDivisionError else mret (a `mod` b).

Definition py_floordiv (a b : Z) : M Z :=
  if b =? 0 then raise ZeroDivisionError else mret (a `div` b).

(** *** Shape dictionaries *)

Definition dict_new (s : Shape) : M loc := λ w,
  let l := fresh (dom (dicts w)) in
  Ok l (with_dicts (<[l := s]> (dicts w)) w).

Definition dict_get (l : loc) : M Shape := λ w,
  match dicts w !! l with
  | Some s => Ok s w
  | None => Raise DanglingReference w
  end.

Definition dict_update (f : Shape → Shape) (l : loc) : M unit := λ w,
  match dicts w !! l with
  | Some s => Ok () (with_dicts (<[l := f s]> (dicts w)) w)
  | None => Raise DanglingReference w
  end.

(** [d.copy()] *)
Definition dict_copy (l : loc) : M loc :=
  s ← dict_get l; dict_new s.

(** *** Colour lists *)

Definition list_get (l : loc) : M (list Color) := λ w,
  match lists w !! l with
  | Some cs => Ok cs w
  | None => Raise DanglingReference w
  end.

Definition list_set (l : loc) (cs : list Color) : M unit := λ w,
  match lists w !! l with
  | Some _ => Ok () (with_lists (<[l := cs]> (lists w)) w)
  | None => Raise DanglingReference w
  end.

Definition list_new (cs : list Color) : M loc := λ w,
  let l := fresh (dom (lists w)) in
  Ok l (with_lists (<[l := cs]> (lists w)) w).

(** [list(xs)]: a new list object with the elements of [xs]. *)
Definition list_copy (l : loc) : M loc :=
  cs ← list_get l; list_new cs.

(** *** Random draws *)

Definition randbelow (n : Z) : M Z := λ w,
  let '(k, r) := rng_below n (rng w) in Ok k (with_rng r w).

Definition randint (a b : Z) : M Z :=
  if b <? a then raise ValueError
  else k ← randbelow (b - a + 1); mret (a + k).

Definition choice {A} (seq : list A) : M A :=
  match seq with
  | [] => raise IndexError
  | _ => k ← randbelow (Z.of_nat (length seq)); getitem seq k
  end.

Definition shuffled (cs : list Color) : M (list Color) := λ w,
  let '(cs', r) := rng_shuffle cs (rng w) in Ok cs' (with_rng r w).

(** [random.shuffle(xs)] permutes the list object in place. *)
Definition shuffle (l : loc) : M unit :=
  cs ← list_get l; cs' ← shuffled cs; list_set l cs'.

(** ** Scene generation: [_generate_task_data] *)

Definition shape_types : list string := ["circle"; "square"; "triangle"]%string.

Definition _generate_task_data (self : TaskGenerator) : M TaskData :=
  let config := config self in
  num_shapes ← randint (min_shapes config) (max_shapes config);
  let '(width, height) := image_size config in
  let center_x := width `div` 2 in
  let center_y := height `div` 2 in
  let spread := 60 in
  available_colors ← list_copy (shape_colors config);
  shuffle available_colors;;
  shapes ← foldM (λ shapes i,
      dx ← randint (- spread) spread;
      let x := center_x + dx in
      dy ← randint (- spread) spread;
      let y := center_y + dy in
      size ← randint (min_shape_size config) (max_shape_size config);
      shape_type ← choice shape_types;
      palette ← list_get available_colors;
      k ← py_mod i (Z.of_nat (length palette));
      color ← getitem palette k;
      d ← dict_new (mkShape x y size shape_type color i);
      mret (shapes ++ [d]))
    [] (range num_shapes);
  mret (mkTaskData shapes num_shapes "default").

(** ** Compositing: [_draw_shape] *)

(** [Image.new(mode, size, color)], for a size Pillow accepts: the image of
    that size filled with [color]. *)
Definition Image_new (mode : Mode) (size : Z * Z) (color : Color) : Image :=
  mkImage mode size (λ _ _, color).

(** A drawing call on [im]: the pixels the rasteriser inks are overwritten. *)
Definition draw_ink (im : Image) (ink : Z → Z → option Color) : Image :=
  mkImage (im_mode im) (im_size im) (λ i j, default (im_px im i j) (ink i j)).

Definition paste_px (dst src mask : Color) : Color :=
  let '(dr, dg, db, da) := dst in
  let '(sr, sg, sb, sa) := src in
  let '(_, _, _, a) := mask in
  (blend a dr sr, blend a dg sg, blend a db sb, blend a da sa).

(** [im.paste(src, (0, 0), mask)] for images of one size. *)
Definition paste (im src mask : Image) : Image :=
  mkImage (im_mode im) (im_size im)
    (λ i j, paste_px (im_px im i j) (im_px src i j) (im_px mask i j)).

(** [im.convert('RGB')] *)
Definition convert_RGB (im : Image) : Image :=
  mkImage RGB (im_size im) (λ i j, let '(r, g, b, _) := im_px im i j in (r, g, b, 255)).

Definition black : Color := (0, 0, 0, 255).

(** The temporary layer of [_draw_shape] for a shape centred at [(x, y)]:
    what the drawing call leaves on a transparent image, for arguments
    Pillow accepts. *)
Definition temp_layer (size : Z * Z) (x y : Z) (s : Shape) : Image :=
  let temp := Image_new RGBA size (0, 0, 0, 0) in
  let half := shape_size s `div` 2 in
  if String.eqb (shape_type s) "circle" then
    draw_ink temp (ellipse (x - half, y - half, x + half, y + half) (shape_color s) black 2)
  else if String.eqb (shape_type s) "square" then
    draw_ink temp (rectangle (x - half, y - half, x + half, y + half) (shape_color s) black 2)
  else if String.eqb (shape_type s) "triangle" then
    draw_ink temp (polygon [(x, y - half); (x - half, y + half); (x + half, y + half)]
                     (shape_color s) black 2)
  else temp.

(** The calls of [_draw_shape] are recorded, each with the shape as drawn. *)
Definition log_draw (s : Shape) : M unit := λ w,
  Ok () (with_drawn (drawn w ++ [s]) w).

Definition _draw_shape (img : Image) (shape : loc) (offset_x offset_y : Z) : M Image :=
  s ← dict_get shape;
  let x := shape_x s + offset_x in
  let y := shape_y s + offset_y in
  let temp := temp_layer (im_size img) x y s in
  log_draw (set_y y (set_x x s));;
  mret (paste img temp temp).

(** ** [sorted(shapes, key=lambda s: s["layer"], reverse=...)]

    The keys are read once; the sort is stable in both directions. *)
Fixpoint insert_by {A} (le : Z → Z → bool) (a : Z * A) (l : list (Z * A)) : list (Z * A) :=
  match l with
  | [] => [a]
  | b :: l' => if le a.1 b.1 then a :: b :: l' else b :: insert_by le a l'
  end.

Fixpoint sort_by {A} (le : Z → Z → bool) (l : list (Z * A)) : list (Z * A) :=
  match l with
  | [] => []
  | a :: l' => insert_by le a (sort_by le l')
  end.

Definition layer_order (reverse : bool) : Z → Z → bool :=
  if reverse then Z.geb else Z.leb.

Fixpoint forM {A B} (f : A → M B) (l : list A) : M (list B) :=
  match l with
  | [] => mret []
  | a :: l' => b ← f a; bs ← forM f l'; mret (b :: bs)
  end.

Definition sorted_by_layer (shapes : list loc) (reverse : bool) : M (list loc) :=
  keyed ← forM (λ l, s ← dict_get l; mret (shape_layer s, l)) shapes;
  mret ((sort_by (layer_order reverse) keyed).*2).

(** ** The two still images *)

Definition opaque (c : Z * Z * Z) : Color := let '(r, g, b) := c in (r, g, b, 255).

Definition _render_overlapping (self : TaskGenerator) (task_data : TaskData) : M Image :=
  let config := config self in
  let '(width, height) := image_size config in
  let img := Image_new RGBA (width, height) (opaque (bg_color config)) in
  shapes ← sorted_by_layer (td_shapes task_data) false;
  img ← foldM (λ img shape, _draw_shape img shape 0 0) img shapes;
  mret (convert_RGB img).

(** The fonts of the labels, with the fallback of the [except] branch. *)
Definition load_fonts : Font * Font :=
  match truetype "/usr/share/fonts/truetype/dejavu/DejaVuSans-Bold.ttf" 14 with
  | Some font =>
      match truetype "/usr/share/fonts/truetype/dejavu/DejaVuSans.ttf" 12 with
      | Some small_font => (font, small_font)
      | None => (load_default, load_default)
      end
  | None => (load_default, load_default)
  end.

Definition grey : Z * Z * Z := (150, 150, 150).

Definition _render_separated (self : TaskGenerator) (task_data : TaskData) : M Image :=
  let config := config self in
  let '(width, height) := image_size config in
  let img := Image_new RGBA (width, height) (opaque (bg_color config)) in
  shapes ← sorted_by_layer (td_shapes task_data) true;
  let num_shapes := Z.of_nat (length shapes) in
  let margin := 40 in
  let available_width := width - 2 * margin in
  spacing ← py_floordiv available_width (num_shapes + 1);
  let '(font, small_font) := load_fonts in
  let img := text img (margin, 30) "FRONT" (label_color config) font in
  let img := text img (width - margin - 40, 30) "BACK" (label_color config) font in
  let arrow_y := 45 in
  let img := line img [(margin + 50, arrow_y); (width - margin - 50, arrow_y)] grey 2 in
  let img := polygon_fill img [(width - margin - 50, arrow_y);
                               (width - margin - 60, arrow_y - 5);
                               (width - margin - 60, arrow_y + 5)] grey in
  img ← foldM (λ img '(i, shape),
      let new_x := margin + spacing * (i + 1) in
      let new_y := height `div` 2 in
      temp_shape ← dict_copy shape;
      dict_update (set_x new_x) temp_shape;;
      dict_update (set_y new_y) temp_shape;;
      img ← _draw_shape img temp_shape 0 0;
      s ← dict_get shape;
      mret (text img (new_x - 5, new_y + shape_size s `div` 2 + 10)
              (pretty (i + 1)) (label_color config) small_font))
    img (enumerate shapes);
  mret (convert_RGB img).

Definition _render_initial_state (self : TaskGenerator) (task_data : TaskData) : M Image :=
  _render_overlapping self task_data.

Definition _render_final_state (self : TaskGenerator) (task_data : TaskData) : M Image :=
  _render_separated self task_data.

(** ** Python floats

    A [float] is an IEEE 754 binary64 number; the operations are those of
    the standard's specification.  Converting an integer that rounds to an
    infinity raises, as does truncating a non-finite float.  Arithmetic
    touches no object: it yields a value or an exception. *)
Inductive Outcome (A : Type) : Type :=
  | Value (a : A)
  | Error (e : Exn).
Arguments Value {A} a.
Arguments Error {A} e.

#[global] Instance Outcome_ret : MRet Outcome := λ A a, Value a.

#[global] Instance Outcome_bind : MBind Outcome := λ A B f o,
  match o with
  | Value a => f a
  | Error e => Error e
  end.

Definition lift {A} (o : Outcome A) : M A := λ w,
  match o with
  | Value a => Ok a w
  | Error e => Raise e w
  end.

Definition prec : Z := 53.
Definition emax : Z := 1024.
Definition float := spec_float.

Definition fadd : float → float → float := SFadd prec emax.
Definition fsub : float → float → float := SFsub prec emax.
Definition fmul : float → float → float := SFmul prec emax.
Definition fdiv : float → float → float := SFdiv prec emax.

Definition float_of_int (n : Z) : Outcome float :=
  match binary_normalize prec emax n 0 false with
  | S754_infinity _ => Error OverflowError
  | f => Value f
  end.

(** [int(f)]: truncation toward zero. *)
Definition int_of_float (f : float) : Outcome Z :=
  match f with
  | S754_zero _ => Value 0
  | S754_finite s m e =>
      Value (cond_Zopp s (match e with
                          | Z0 => Z.pos m
                          | Z.pos p => Z.pos m * 2 ^ Z.pos p
                          | Z.neg p => Z.pos m `div` 2 ^ Z.pos p
                          end))
  | S754_infinity _ => Error OverflowError
  | S754_nan => Error ValueError
  end.

(** [a / b] on two integers: the correctly rounded quotient, which for
    operands that are floats exactly (here at most 24) is the quotient of
    the two floats. *)
Definition true_div (a b : Z) : Outcome float :=
  if b =? 0 then Error ZeroDivisionError
  else x ← float_of_int a; y ← float_of_int b; mret (fdiv x y).

(** ** The animation: [_generate_video] *)

Definition hold_frames : Z := 5.
Definition animation_frames : Z := 25.

(** Lines 231-233: the eased progress of a transition frame.  The square
    [(1 - progress) ** 2] is the correctly rounded product. *)
Definition eased_progress (frame_idx : Z) : Outcome float :=
  progress ← true_div frame_idx (animation_frames - 1);
  one ← float_of_int 1;
  let rest := fsub one progress in
  one ← float_of_int 1;
  mret (fsub one (fmul rest rest)).

(** [start + (end - start) * progress] *)
Definition interpolate (start_ end_ : Z) (progress : float) : Outcome float :=
  d ← float_of_int (end_ - start_);
  s ← float_of_int start_;
  mret (fadd s (fmul d progress)).

(** Lines 230-252: one transition frame. *)
Definition transition_frame (self : TaskGenerator) (shapes : list loc)
    (final_positions : list (Z * Z)) (frame_idx : Z) : M Image :=
  let config := config self in
  let '(width, height) := image_size config in
  progress ← lift (eased_progress frame_idx);
  let img := Image_new RGBA (width, height) (opaque (bg_color config)) in
  img ← foldM (λ img '(i, shape),
      s ← dict_get shape;
      let '(start_x, start_y) := (shape_x s, shape_y s) in
      '(end_x, end_y) ← getitem final_positions i;
      curr_x ← lift (interpolate start_x end_x progress);
      curr_y ← lift (interpolate start_y end_y progress);
      temp_shape ← dict_copy shape;
      ix ← lift (int_of_float curr_x);
      dict_update (set_x ix) temp_shape;;
      iy ← lift (int_of_float curr_y);
      dict_update (set_y iy) temp_shape;;
      _draw_shape img temp_shape 0 0)
    img (enumerate shapes);
  mret (convert_RGB img).

(** Lines 206-256: the frame sequence handed to the encoder. *)
Definition video_frames (self : TaskGenerator) (first_image final_image : Image)
    (task_data : TaskData) : M (list Image) :=
  let config := config self in
  let frames := [] in
  let '(width, height) := image_size config in
  shapes ← sorted_by_layer (td_shapes task_data) true;
  let num_shapes := Z.of_nat (length shapes) in
  let margin := 40 in
  let available_width := width - 2 * margin in
  spacing ← py_floordiv available_width (num_shapes + 1);
  let final_positions :=
    (λ i, (margin + spacing * (i + 1), height `div` 2)) <$> range num_shapes in
  let frames := frames ++ ((λ _, first_image) <$> range hold_frames) in
  frames ← foldM (λ frames frame_idx,
      img ← transition_frame self shapes final_positions frame_idx;
      mret (frames ++ [img]))
    frames (range animation_frames);
  let frames := frames ++ ((λ _, final_image) <$> range (hold_frames * 2)) in
  mret frames.

(** The truth value of what the encoder returns. *)
Definition truthy (result : option string) : bool :=
  match result with
  | None => false
  | Some EmptyString => false
  | Some _ => true
  end.

(** [p.mkdir(parents=True, exist_ok=True)] *)
Definition Path_mkdir (p : Path) : M unit :=
  match mkdir p with
  | Some e => raise e
  | None => mret ()
  end.

Definition _generate_video (self : TaskGenerator) (encoder : VideoGenerator)
    (first_image final_image : Image) (task_id : string) (task_data : TaskData)
    : M (option string) :=
  let temp_dir := joinpath (Path_of gettempdir) (domain (config self) +:+ "_videos") in
  Path_mkdir temp_dir;;
  let video_path := joinpath temp_dir (task_id +:+ "_ground_truth.mp4") in
  frames ← video_frames self first_image final_image task_data;
  let result := create_video_from_frames encoder frames video_path in
  mret (if truthy result then result else None).

(** ** Prompts: [src/prompts.py] *)

Definition default_prompts : list string :=
  [ "Identify the layer order of these overlapping shapes from front to back, then show them separated.";
    "Determine which shape is in front and which is in back. Separate them to show the depth order.";
    "These shapes overlap. Figure out the layer order based on occlusion and display them front to back."
  ]%string.

Definition PROMPTS : gmap string (list string) := {[ "default"%string := default_prompts ]}.

Definition get_prompt (task_type : string) : M string :=
  let prompts := default (PROMPTS !!! "default"%string) (PROMPTS !! task_type) in
  choice prompts.

Definition get_all_prompts (task_type : string) : list string :=
  default (PROMPTS !!! "default"%string) (PROMPTS !! task_type).

(** ** The generator object *)

(** [TaskGenerator.__init__] *)
Definition TaskGenerator_init (config : TaskConfig) : TaskGenerator :=
  mkTaskGenerator config
    (if generate_videos config && is_available
     then Some (mkVideoGenerator (video_fps config) "mp4")
     else None).

Definition generate_task_pair (self : TaskGenerator) (task_id : string) : M TaskPair :=
  task_data ← _generate_task_data self;
  first_image ← _render_initial_state self task_data;
  final_image ← _render_final_state self task_data;
  video_path ←
    (if generate_videos (config self) then
       match video_generator self with
       | Some encoder =>
           _generate_video self encoder first_image final_image task_id task_data
       | None => mret None
       end
     else mret None);
  prompt ← get_prompt (td_type task_data);
  mret (mkTaskPair task_id (domain (config self)) prompt first_image final_image video_path).

(** ** Drawing and ordering on shape values

    [composite img s] is the image [_draw_shape] leaves for a dictionary
    holding [s]; [sorted_shapes] is the order [sorted(...)] puts the
    dictionaries in. *)
Definition composite (img : Image) (s : Shape) : Image :=
  let temp := temp_layer (im_size img) (shape_x s) (shape_y s) s in
  paste img temp temp.

Definition sorted_shapes (reverse : bool) (shapes : list Shape) : list Shape :=
  (sort_by (layer_order reverse) ((λ s, (shape_layer s, s)) <$> shapes)).*2.

(** The position of the shape of rank [i] (front-most first) among
    [num_shapes] separated shapes. *)
Definition separated_position (size : Z * Z) (num_shapes i : Z) : Z * Z :=
  (40 + ((size.1 - 2 * 40) `div` (num_shapes + 1)) * (i + 1), size.2 `div` 2).

Definition place (pos : Z * Z) (s : Shape) : Shape := set_y pos.2 (set_x pos.1 s).

(** The shapes [_render_separated] draws, in drawing order. *)
Definition separated_shapes (size : Z * Z) (shapes : list Shape) : list Shape :=
  imap (λ i, place (separated_position size (Z.of_nat (length shapes)) (Z.of_nat i)))
    (sorted_shapes true shapes).

(** The shape drawn in a transition frame for [s], given the eased
    progress of the frame and the separated position of [s]. *)
Definition moved (progress : float) (s : Shape) (target : Z * Z) : Outcome Shape :=
  curr_x ← interpolate (shape_x s) target.1 progress;
  curr_y ← interpolate (shape_y s) target.2 progress;
  ix ← int_of_float curr_x;
  iy ← int_of_float curr_y;
  mret (set_y iy (set_x ix s)).

(** [ds] are the shapes of transition frame [frame_idx], in drawing order. *)
Definition frame_shapes (size : Z * Z) (shapes : list Shape) (frame_idx : Z)
    (ds : list Shape) : Prop :=
  ∃ progress, eased_progress frame_idx = Value progress ∧
    Forall2 (λ p d,
        moved progress p.2 (separated_position size (Z.of_nat (length shapes)) p.1) = Value d)
      (enumerate (sorted_shapes true shapes)) ds.

Definition float_error (e : Exn) : Prop := e = OverflowError ∨ e = ValueError.

(** [img] is transition frame [k] of the scene [shapes], drawn from [ds]. *)
Definition transition (self : TaskGenerator) (shapes : list Shape) (k : nat)
    (img : Image) (ds : list Shape) : Prop :=
  frame_shapes (image_size (config self)) shapes (Z.of_nat k) ds ∧
  img = convert_RGB (fold_left composite ds
          (Image_new RGBA (image_size (config self)) (opaque (bg_color (config self))))).

(** ** The images and the video path, as values

    [overlapping_image] and [separated_image] are the images the two
    renders return for a scene of [shapes]; [video_path] is the path
    [_generate_video] hands to the encoder. *)
Definition overlapping_image (self : TaskGenerator) (shapes : list Shape) : Image :=
  convert_RGB (fold_left composite (sorted_shapes false shapes)
                 (Image_new RGBA (image_size (config self)) (opaque (bg_color (config self))))).




Definition temp_dir (self : TaskGenerator) : Path :=
  joinpath (Path_of gettempdir) (domain (config self) +:+ "_videos").

Definition video_path (self : TaskGenerator) (task_id : string) : Path :=
  joinpath (temp_dir self) (task_id +:+ "_ground_truth.mp4").

(** A string without a path separator. *)
Fixpoint no_sep (s : string) : bool :=
  match s with
  | EmptyString => true
  | String c s' => negb (Ascii.eqb c "/"%char) && no_sep s'
  end.

(** ** Arguments Pillow accepts

    [Image.new] raises ValueError for a negative side.  [ImageDraw.ellipse]
    and [ImageDraw.rectangle] raise ValueError for a box with x1 < x0 or
    y1 < y0, which is the box [_draw_shape] passes for a negative size, and
    a drawing call raises for a coordinate or a colour channel that does
    not fit a C integer.  [canvas_ok config]: the sides of the canvas are
    not negative and its colours are bytes.  [drawable s] follows the
    branches of [_draw_shape]: the call it makes for [s] has a colour of
    bytes, a box that is not inverted and coordinates that fit a C
    integer. *)
Definition c_int (z : Z) : Prop := - 2 ^ 31 ≤ z < 2 ^ 31.

Definition byte (z : Z) : Prop := 0 ≤ z ≤ 255.

Definition color_ok (c : Color) : Prop :=
  let '(r, g, b, a) := c in byte r ∧ byte g ∧ byte b ∧ byte a.

Definition rgb_ok (c : Z * Z * Z) : Prop :=
  let '(r, g, b) := c in byte r ∧ byte g ∧ byte b.

Definition canvas_ok (config : TaskConfig) : Prop :=
  0 ≤ (image_size config).1 ∧ 0 ≤ (image_size config).2 ∧
  rgb_ok (bg_color config) ∧ rgb_ok (label_color config).

Definition drawable (s : Shape) : Prop :=
  let x := shape_x s in
  let y := shape_y s in
  let half := shape_size s `div` 2 in
  let upright := x - half ≤ x + half ∧ y - half ≤ y + half in
  let in_range :=
    c_int (x - half) ∧ c_int (x + half) ∧ c_int (y - half) ∧ c_int (y + half) in
  if String.eqb (shape_type s) "circle" then color_ok (shape_color s) ∧ upright ∧ in_range
  else if String.eqb (shape_type s) "square" then color_ok (shape_color s) ∧ upright ∧ in_range
  else if String.eqb (shape_type s) "triangle" then color_ok (shape_color s) ∧ in_range
  else True.



(** ** Floats between two integers

    [fbetween lo hi f]: the finite float [f] has a non-positive exponent
    and its value lies between the integers [lo] and [hi];
    [unit_float p]: [p] lies between 0 and 1. *)
Definition fbetween (lo hi : Z) (f : float) : Prop :=
  match f with
  | S754_zero _ => lo ≤ 0 ≤ hi
  | S754_finite s m e =>
      e ≤ 0 ∧ lo * 2 ^ (- e) ≤ cond_Zopp s (Z.pos m) ≤ hi * 2 ^ (- e)
  | _ => False
  end.

Definition unit_float (p : float) : Prop :=
  match p with
  | S754_zero _ => True
  | S754_finite false m e => e ≤ 0 ∧ Z.pos m ≤ 2 ^ (- e)
  | _ => False
  end.

Definition progress_unit (k : Z) : bool :=
  match eased_progress k with
  | Value (S754_zero _) => true
  | Value (S754_finite false m e) => (e <=? 0) && (Z.pos m <=? 2 ^ (- e))
  | _ => false
  end.

(** ** Exact floats

    [canon n] is the float of an integer [n] below 2^53 in magnitude: its
    mantissa is [n] shifted to 53 bits.  [float_value] is the rational a
    finite float stands for. *)
Definition shl (p : positive) (n : nat) : positive := Nat.iter n xO p.

Definition canon (n : Z) : float :=
  match n with
  | 0 => S754_zero false
  | Z.pos p => S754_finite false (shl p (Z.to_nat (53 - Z.pos (digits2_pos p)))) (Z.pos (digits2_pos p) - 53)
  | Z.neg p => S754_finite true (shl p (Z.to_nat (53 - Z.pos (digits2_pos p)))) (Z.pos (digits2_pos p) - 53)
  end.

Definition one : float := canon 1.





Definition small (n : Z) : Prop := Z.abs n < 2 ^ 52.

(** Zero, or finite with exponent at most [E] and digits + exponent at most [D]. *)
Definition within (E D : Z) (f : float) : Prop :=
  match f with
  | S754_zero _ => True
  | S754_finite _ m e => e ≤ E ∧ Z.pos (digits2_pos m) + e ≤ D
  | _ => False
  end.

Definition progress_within (k : Z) : bool :=
  match eased_progress k with
  | Value (S754_zero _) => true
  | Value (S754_finite _ m e) => (e <=? -52) && (Z.pos (digits2_pos m) + e <=? 1)
  | _ => false
  end.

(** [n] successive calls of [m]. *)
Fixpoint repeatM {A} (n : nat) (m : M A) : M (list A) :=
  match n with
  | O => mret []
  | S n' => a ← m; rest ← repeatM n' m; mret (a :: rest)
  end.

(** The dictionaries behind a list of references. *)
Definition deref (w : World) (ls : list loc) (shapes : list Shape) : Prop :=
  Forall2 (λ l s, dicts w !! l = Some s) ls shapes.

(** ** What scene generation establishes *)

(** When [_generate_task_data] raises: an empty range of shape counts or of
    sizes, an empty palette, or a palette that is no list object. *)
Definition gen_raises (self : TaskGenerator) (w : World) (e : Exn) : Prop :=
  match e with
  | ValueError =>
      max_shapes (config self) < min_shapes (config self) ∨
      max_shape_size (config self) < min_shape_size (config self)
  | ZeroDivisionError => lists w !! shape_colors (config self) = Some []
  | DanglingReference => lists w !! shape_colors (config self) = None
  | _ => False
  end.

(** The [k]-th shape of a generated scene, with [cs] the shuffled copy of
    the palette. *)
Definition generated_shape (self : TaskGenerator) (cs : list Color) (k : nat) (s : Shape) : Prop :=
  shape_layer s = Z.of_nat k ∧
  cs !! (k `mod` length cs)%nat = Some (shape_color s) ∧
  ((image_size (config self)).1 `div` 2) - 60 ≤ shape_x s
    ≤ ((image_size (config self)).1 `div` 2) + 60 ∧
  ((image_size (config self)).2 `div` 2) - 60 ≤ shape_y s
    ≤ ((image_size (config self)).2 `div` 2) + 60 ∧
  min_shape_size (config self) ≤ shape_size s ≤ max_shape_size (config self) ∧
  shape_type s ∈ shape_types.

Definition generated (self : TaskGenerator) (w : World) (td : TaskData) (w' : World) : Prop :=
  dicts w ⊆ dicts w' ∧ lists w ⊆ lists w' ∧ drawn w' = drawn w ∧
  NoDup (td_shapes td) ∧
  min_shapes (config self) ≤ td_num_shapes td ≤ max_shapes (config self) ∧
  length (td_shapes td) = Z.to_nat (td_num_shapes td) ∧
  td_type td = "default"%string ∧
  ∃ palette cs copy,
    lists w !! shape_colors (config self) = Some palette ∧
    cs ≡ₚ palette ∧
    (copy ∉ dom (lists w)) ∧
    lists w' !! copy = Some cs ∧
    ∀ k l, td_shapes td !! k = Some l →
      (l ∉ dom (dicts w)) ∧ ∃ s, dicts w' !! l = Some s ∧ generated_shape self cs k s.

(** ** Reasoning about computations

    [wp m Q R w]: run from [w], the computation [m] either returns a value
    and a store satisfying [Q], or raises an exception in a store
    satisfying [R]. *)
Definition wp {A} (m : M A) (Q : A → World → Prop) (R : Exn → World → Prop)
    (w : World) : Prop :=
  match m w with
  | Ok a w' => Q a w'
  | Raise e w' => R e w'
  end.

Definition never : Exn → World → Prop := λ _ _, False.

End Generator.

Arguments Ok {rnd A} a w.
Arguments Raise {rnd A} e w.
Arguments Value {A} a.
Arguments Error {A} e.

(** * Properties *)

Section Properties.
Context {rnd : Random} {pil : Pillow} {vid : VideoBackend}.
Implicit Types (w : World).

(** ** Rules of the program logic *)

Lemma wp_ret {A} (a : A) Q R w : Q a w → wp (mret a) Q R w.
Proof. done. Qed.

Lemma wp_raise {A} e (Q : A → World → Prop) R w : R e w → wp (raise e) Q R w.
Proof. done. Qed.

Lemma wp_bind {A B} (m : M A) (f : A → M B) Q R w :
  wp m (λ a w', wp (f a) Q R w') R w → wp (m ≫= f) Q R w.
Proof. unfold wp, mbind, M_bind. by destruct (m w). Qed.

Lemma wp_mono {A} (m : M A) (Q Q' : A → World → Prop) (R R' : Exn → World → Prop) w :
  wp m Q R w →
  (∀ a w', Q a w' → Q' a w') →
  (∀ e w', R e w' → R' e w') →
  wp m Q' R' w.
Proof. unfold wp. destruct (m w); eauto. Qed.

Lemma wp_ok {A} (m : M A) Q w :
  wp m Q never w → ∃ a w', m w = Ok a w' ∧ Q a w'.
Proof. unfold wp, never. destruct (m w); [eauto | done]. Qed.

Lemma wp_returned {A} (m : M A) Q R w a w' :
  wp m Q R w → m w = Ok a w' → Q a w'.
Proof. unfold wp. intros H E. by rewrite E in H. Qed.

Lemma wp_raised {A} (m : M A) Q R w e w' :
  wp m Q R w → m w = Raise e w' → R e w'.
Proof. unfold wp. intros H E. by rewrite E in H. Qed.

Lemma bind_ok {A B} (m : M A) (f : A → M B) w a w' :
  m w = Ok a w' → (m ≫= f) w = f a w'.
Proof. unfold mbind, M_bind. by intros ->. Qed.

Lemma wp_bind_ok {A B} (m : M A) (f : A → M B) Q R w a w' :
  m w = Ok a w' → wp (f a) Q R w' → wp (m ≫= f) Q R w.
Proof. intros Hm Hf. unfold wp. by rewrite (bind_ok _ _ _ _ _ Hm). Qed.

Lemma wp_foldM_from {A B} (I : nat → B → World → Prop) (f : B → A → M B) R l :
  ∀ n b w,
  I n b w →
  (∀ k x b w, l !! k = Some x → I (n + k)%nat b w → wp (f b x) (I (S (n + k))) R w) →
  wp (foldM f b l) (I (n + length l)%nat) R w.
Proof.
  induction l as [|x l IH]; intros n b w Hn Hf; simpl.
  - apply wp_ret. by rewrite Nat.add_0_r.
  - apply wp_bind. eapply wp_mono; [apply (Hf 0%nat x); [done | by rewrite Nat.add_0_r] | | done].
    intros b' w' Hb'. simpl in Hb'. rewrite Nat.add_0_r in Hb'.
    replace (n + S (length l))%nat with (S n + length l)%nat by lia.
    apply IH; [done |]. intros k y b'' w'' Hk HI.
    replace (S (S n + k)) with (S (n + S k)) by lia.
    apply Hf; [done |]. by replace (n + S k)%nat with (S n + k)%nat by lia.
Qed.

Lemma wp_foldM {A B} (I : nat → B → World → Prop) (f : B → A → M B) Q R l b w :
  I 0%nat b w →
  (∀ k x b w, l !! k = Some x → I k b w → wp (f b x) (I (S k)) R w) →
  (∀ b w, I (length l) b w → Q b w) →
  wp (foldM f b l) Q R w.
Proof.
  intros H0 Hf HQ.
  eapply wp_mono; [apply (wp_foldM_from I f R l 0%nat b w H0) | | done].
  - intros k x b' w'. apply Hf.
  - intros b' w'. apply HQ.
Qed.

Lemma wp_forM_from {A B} (I : nat → list B → World → Prop) (f : A → M B) R l :
  ∀ n bs w,
  I n bs w →
  (∀ k x bs w, l !! k = Some x → I (n + k)%nat bs w →
     wp (f x) (λ b w', I (S (n + k)) (bs ++ [b]) w') R w) →
  wp (forM f l) (λ cs w', I (n + length l)%nat (bs ++ cs) w') R w.
Proof.
  induction l as [|x l IH]; intros n bs w Hn Hf; simpl.
  - apply wp_ret. by rewrite Nat.add_0_r, app_nil_r.
  - apply wp_bind. eapply wp_mono; [apply (Hf 0%nat x bs); [done | by rewrite Nat.add_0_r] | | done].
    intros b w' Hb. simpl in Hb. rewrite Nat.add_0_r in Hb.
    apply wp_bind. eapply wp_mono; [apply (IH (S n) (bs ++ [b]) w' Hb) | | done].
    + intros k y bs' w'' Hk HI.
      replace (S (S n + k)) with (S (n + S k)) by lia.
      apply Hf; [done |]. by replace (n + S k)%nat with (S n + k)%nat by lia.
    + intros cs w'' Hcs. apply wp_ret.
      replace (n + S (length l))%nat with (S n + length l)%nat by lia.
      simpl in Hcs. by rewrite <- app_assoc in Hcs.
Qed.

Lemma wp_forM {A B} (I : nat → list B → World → Prop) (f : A → M B) Q R l w :
  I 0%nat [] w →
  (∀ k x bs w, l !! k = Some x → I k bs w →
     wp (f x) (λ b w', I (S k) (bs ++ [b]) w') R w) →
  (∀ bs w, I (length l) bs w → Q bs w) →
  wp (forM f l) Q R w.
Proof.
  intros H0 Hf HQ.
  eapply wp_mono; [apply (wp_forM_from I f R l 0%nat [] w H0) | | done].
  - intros k x bs w'. apply Hf.
  - intros cs w'. apply HQ.
Qed.

(** ** Rules for the store and for random draws *)

Lemma wp_dict_get l s Q R w :
  dicts w !! l = Some s → Q s w → wp (dict_get l) Q R w.
Proof. unfold wp, dict_get. by intros ->. Qed.

Lemma wp_dict_new s Q R w :
  Q (fresh (dom (dicts w))) (with_dicts (<[fresh (dom (dicts w)) := s]> (dicts w)) w) →
  wp (dict_new s) Q R w.
Proof. done. Qed.

Lemma wp_dict_update f l s Q R w :
  dicts w !! l = Some s →
  Q () (with_dicts (<[l := f s]> (dicts w)) w) →
  wp (dict_update f l) Q R w.
Proof. unfold wp, dict_update. by intros ->. Qed.

Lemma wp_dict_copy l s Q R w :
  dicts w !! l = Some s →
  Q (fresh (dom (dicts w))) (with_dicts (<[fresh (dom (dicts w)) := s]> (dicts w)) w) →
  wp (dict_copy l) Q R w.
Proof.
  intros Hl HQ. apply wp_bind, (wp_dict_get l s); [done |]. by apply wp_dict_new.
Qed.

Lemma fresh_dict_None w : dicts w !! fresh (dom (dicts w)) = None.
Proof. apply not_elem_of_dom, is_fresh. Qed.

Lemma fresh_list_None w : lists w !! fresh (dom (lists w)) = None.
Proof. apply not_elem_of_dom, is_fresh. Qed.

Lemma wp_list_get l cs Q R w :
  lists w !! l = Some cs → Q cs w → wp (list_get l) Q R w.
Proof. unfold wp, list_get. by intros ->. Qed.

Lemma wp_list_set l cs cs' Q R w :
  lists w !! l = Some cs →
  Q () (with_lists (<[l := cs']> (lists w)) w) →
  wp (list_set l cs') Q R w.
Proof. unfold wp, list_set. by intros ->. Qed.

Lemma wp_randbelow n Q R w :
  (∀ k r, (0 < n → 0 ≤ k < n) → Q k (with_rng r w)) → wp (randbelow n) Q R w.
Proof.
  intros HQ. unfold wp, randbelow.
  pose proof (rng_below_range n (rng w)) as Hk.
  destruct (rng_below n (rng w)) as [k r]. by apply HQ.
Qed.

Lemma wp_randint a b Q R w :
  (b < a → R ValueError w) →
  (∀ k r, a ≤ b → a ≤ k ≤ b → Q k (with_rng r w)) →
  wp (randint a b) Q R w.
Proof.
  intros HR HQ. unfold randint. destruct (Z.ltb_spec b a) as [Hlt | Hle].
  - by apply wp_raise, HR.
  - apply wp_bind, wp_randbelow. intros k r Hk. apply wp_ret, HQ; lia.
Qed.

Lemma wp_getitem {A} (xs : list A) i a Q R w :
  0 ≤ i → xs !! Z.to_nat i = Some a → Q a w → wp (getitem xs i) Q R w.
Proof.
  intros Hi Ha HQ. unfold getitem.
  destruct (Z.ltb_spec i 0) as [? | _]; [lia |].
  destruct (Z.ltb_spec i 0) as [? | _]; [lia |].
  rewrite Ha. by apply wp_ret.
Qed.

Lemma wp_choice {A} (xs : list A) Q R w :
  xs ≠ [] → (∀ a r, a ∈ xs → Q a (with_rng r w)) → wp (choice xs) Q R w.
Proof.
  intros Hne HQ. unfold choice. destruct xs as [|x xs]; [done |].
  apply wp_bind, wp_randbelow. intros k r Hk.
  destruct Hk as [Hk0 Hk1]; [simpl; lia |].
  destruct (lookup_lt_is_Some_2 (x :: xs) (Z.to_nat k)) as [a Ha]; [lia |].
  apply (wp_getitem _ k a); [done | done |].
  apply HQ. by eapply list_elem_of_lookup_2.
Qed.

Lemma wp_py_mod a b Q R w :
  (b = 0 → R ZeroDivisionError w) → (b ≠ 0 → Q (a `mod` b) w) → wp (py_mod a b) Q R w.
Proof.
  intros HR HQ. unfold py_mod. destruct (Z.eqb_spec b 0); [by apply wp_raise, HR |].
  by apply wp_ret, HQ.
Qed.

Lemma wp_py_floordiv a b Q R w :
  (b = 0 → R ZeroDivisionError w) → (b ≠ 0 → Q (a `div` b) w) → wp (py_floordiv a b) Q R w.
Proof.
  intros HR HQ. unfold py_floordiv. destruct (Z.eqb_spec b 0); [by apply wp_raise, HR |].
  by apply wp_ret, HQ.
Qed.

Lemma wp_Path_mkdir p Q R w :
  (∀ e, mkdir p = Some e → R e w) → (mkdir p = None → Q () w) →
  wp (Path_mkdir p) Q R w.
Proof. intros HR HQ. unfold wp, Path_mkdir. destruct (mkdir p); [by apply HR | by apply HQ]. Qed.

Lemma wp_shuffled cs Q R w :
  (∀ cs' r, cs' ≡ₚ cs → Q cs' (with_rng r w)) → wp (shuffled cs) Q R w.
Proof.
  intros HQ. unfold wp, shuffled.
  pose proof (rng_shuffle_perm cs (rng w)) as Hp.
  destruct (rng_shuffle cs (rng w)) as [cs' r]. by apply HQ.
Qed.

Lemma range_lookup n k x : range n !! k = Some x → x = Z.of_nat k ∧ (k < Z.to_nat n)%nat.
Proof.
  unfold range. rewrite list_lookup_fmap. intros H.
  destruct (seq 0 (Z.to_nat n) !! k) as [j|] eqn:Hj; [|done].
  apply lookup_seq in Hj as [-> ?]. simpl in H. by inversion H.
Qed.

Lemma range_length n : length (range n) = Z.to_nat n.
Proof. unfold range. by rewrite length_fmap, length_seq. Qed.

Lemma enumerate_lookup {A} (xs : list A) k p :
  enumerate xs !! k = Some p → p.1 = Z.of_nat k ∧ xs !! k = Some p.2.
Proof.
  unfold enumerate. rewrite list_lookup_imap.
  destruct (xs !! k) as [a|]; [|done]. simpl. by intros [= <-].
Qed.

Lemma enumerate_length {A} (xs : list A) : length (enumerate xs) = length xs.
Proof. unfold enumerate. by rewrite length_imap. Qed.

(** ** Scene generation *)

Lemma generate_spec self w :
  wp (_generate_task_data self) (generated self w)
    (λ e w', dicts w ⊆ dicts w' ∧ lists w ⊆ lists w' ∧
             lists w' !! shape_colors (config self) = lists w !! shape_colors (config self) ∧
             drawn w' = drawn w ∧ gen_raises self w e) w.
Proof.
  unfold _generate_task_data.
  apply wp_bind, wp_randint; [intros Hlt; repeat split; try done; simpl; by left |].
  intros n r Hmm Hn. destruct (image_size (config self)) as [width height] eqn:Hsize.
  destruct (lists w !! shape_colors (config self)) as [palette|] eqn:Hpal; cycle 1.
  { apply wp_bind, wp_bind. unfold wp, list_get. simpl. rewrite Hpal. repeat split; done. }
  apply wp_bind, wp_bind, (wp_list_get _ palette); [done |].
  unfold list_new, wp at 1. simpl.
  set (copy := fresh (dom (lists w))).
  assert (Hcopy : lists w !! copy = None) by apply fresh_list_None.
  apply wp_bind, wp_bind, (wp_list_get _ palette); [simpl; by rewrite lookup_insert_eq |].
  apply wp_bind, wp_shuffled. intros cs r' Hperm.
  eapply wp_list_set; [simpl; by rewrite lookup_insert_eq |].
  simpl. rewrite insert_insert_eq.
  set (L1 := <[copy := cs]> (lists w)).
  assert (HL1 : lists w ⊆ L1) by by apply insert_subseteq.
  assert (HL1p : L1 !! shape_colors (config self) = lists w !! shape_colors (config self)).
  { apply lookup_insert_ne. congruence. }
  apply wp_bind.
  apply (wp_foldM (λ k shapes w1,
    dicts w ⊆ dicts w1 ∧ lists w1 = L1 ∧ drawn w1 = drawn w ∧
    length shapes = k ∧ NoDup shapes ∧
    ∀ j l, shapes !! j = Some l →
      (l ∉ dom (dicts w)) ∧ ∃ s, dicts w1 !! l = Some s ∧ generated_shape self cs j s)).
  - repeat split; try done. apply NoDup_nil_2.
  - intros k i shapes w1 Hi (Hd & Hl & Hdr & Hlen & Hnd & Hsh).
    apply range_lookup in Hi as [-> Hk].
    apply wp_bind, wp_randint; [lia |]. intros dx r1 _ Hdx.
    apply wp_bind, wp_randint; [lia |]. intros dy r2 _ Hdy.
    apply wp_bind, wp_randint.
    { intros Hlt. simpl. rewrite ?Hl. repeat split; try done; [by rewrite HL1p | by right]. }
    intros size r3 _ Hsz.
    apply wp_bind, (wp_choice shape_types); [done |]. intros ty r4 Hty.
    apply wp_bind, (wp_list_get _ cs); [simpl; rewrite Hl; apply lookup_insert_eq |].
    apply wp_bind, wp_py_mod.
    { intros Hz. simpl. rewrite ?Hl. repeat split; try done; [by rewrite HL1p |].
      destruct cs; [|done]. by apply Permutation_nil_l in Hperm as <-. }
    intros Hnz.
    assert (Hlt : (k `mod` length cs < length cs)%nat) by (apply Nat.mod_upper_bound; lia).
    destruct (lookup_lt_is_Some_2 cs _ Hlt) as [color Hcolor].
    apply wp_bind, (wp_getitem _ _ color).
    { apply Z.mod_pos_bound. lia. }
    { rewrite <- Nat2Z.inj_mod, Nat2Z.id. done. }
    apply wp_bind, wp_dict_new, wp_ret. simpl.
    set (l := fresh (dom (dicts w1))).
    assert (Hfresh : dicts w1 !! l = None) by apply fresh_dict_None.
    repeat split; try done.
    + apply insert_subseteq_r; [|done].
      destruct (dicts w !! l) eqn:E; [|done].
      eapply lookup_weaken in E; [|done]. congruence.
    + rewrite length_app. simpl. lia.
    + apply NoDup_app. split; [done |]. split; [|apply NoDup_singleton].
      intros l' Hin ->%list_elem_of_singleton.
      apply list_elem_of_lookup in Hin as [j Hj].
      destruct (Hsh j l Hj) as (_ & s & Hs & _). congruence.
    + destruct (decide (j = length shapes)) as [-> | Hne].
      * rewrite lookup_app_r, Nat.sub_diag in H by lia. inversion H; subst l0.
        intros Hin. apply elem_of_dom in Hin as [s Hs].
        eapply lookup_weaken in Hs; [|done]. congruence.
      * rewrite lookup_app_l in H.
        2:{ apply lookup_lt_Some in H. rewrite length_app in H. simpl in H. lia. }
        by destruct (Hsh j l0 H).
    + destruct (decide (j = length shapes)) as [-> | Hne].
      * rewrite lookup_app_r, Nat.sub_diag in H by lia. inversion H; subst l0.
        eexists. split; [apply lookup_insert_eq |].
        unfold generated_shape. rewrite Hsize. simpl. repeat split; try done; try lia.
        by rewrite Hlen.
      * rewrite lookup_app_l in H.
        2:{ apply lookup_lt_Some in H. rewrite length_app in H. simpl in H. lia. }
        destruct (Hsh j l0 H) as (_ & s & Hs & Hg).
        exists s. split; [|done]. rewrite lookup_insert_ne; [done |]. congruence.
  - intros shapes w1 (Hd & Hl & Hdr & Hlen & Hnd & Hsh). apply wp_ret.
    rewrite range_length in Hlen.
    repeat split; simpl; try done; try lia; [by rewrite Hl |].
    exists palette, cs, copy. repeat split; try done.
    + by apply not_elem_of_dom.
    + rewrite Hl. apply lookup_insert_eq.
    + by destruct (Hsh k l H).
    + by destruct (Hsh k l H).
Qed.

Lemma deref_of_lookups (P : nat → Shape → Prop) w ls :
  (∀ k l, ls !! k = Some l → ∃ s, dicts w !! l = Some s ∧ P k s) →
  ∃ shapes, deref w ls shapes ∧ ∀ k s, shapes !! k = Some s → P k s.
Proof.
  revert P. induction ls as [|l ls IH]; intros P H.
  - exists []. split; [constructor | done].
  - destruct (H 0%nat l eq_refl) as (s & Hs & HP).
    destruct (IH (λ k, P (S k))) as (shapes & Hd & Hall).
    { intros k l' Hk. by apply (H (S k)). }
    exists (s :: shapes). split; [by constructor |].
    intros [|k] s' Hk; simpl in Hk; [by inversion Hk; subst | by apply Hall].
Qed.

Lemma deref_lookup w ls shapes k l :
  deref w ls shapes → ls !! k = Some l → ∃ s, shapes !! k = Some s ∧ dicts w !! l = Some s.
Proof. intros Hd Hk. by destruct (Forall2_lookup_l _ _ _ _ _ Hd Hk) as (s & ? & ?); eauto. Qed.

Lemma deref_length w ls shapes : deref w ls shapes → length shapes = length ls.
Proof. intros Hd. symmetry. by eapply Forall2_length. Qed.

Lemma deref_weaken w w' ls shapes :
  dicts w ⊆ dicts w' → deref w ls shapes → deref w' ls shapes.
Proof.
  intros Hsub Hd. eapply Forall2_impl; [done |]. intros l s Hl. simpl in *.
  by eapply lookup_weaken.
Qed.

Lemma deref_functional w ls shapes shapes' :
  deref w ls shapes → deref w ls shapes' → shapes = shapes'.
Proof.
  intros H. revert shapes'. induction H; intros shapes' H'; inversion H'; subst; [done |].
  f_equal; [congruence | eauto].
Qed.

(** Scene generation returns whenever the ranges of the configuration are
    not empty and the palette is a non-empty list. *)
Lemma generate_returns self w palette :
  min_shapes (config self) ≤ max_shapes (config self) →
  min_shape_size (config self) ≤ max_shape_size (config self) →
  lists w !! shape_colors (config self) = Some palette →
  palette ≠ [] →
  ∃ td w', _generate_task_data self w = Ok td w' ∧ generated self w td w'.
Proof.
  intros Hn Hs Hp Hne. apply wp_ok.
  eapply wp_mono; [apply generate_spec | done |].
  intros e w' (_ & _ & _ & _ & He). unfold never.
  destruct e; simpl in He; try done; [lia | congruence | congruence].
Qed.

(** C1: scene generation returns a scene whenever the bounds satisfy
    min_shapes <= max_shapes (the size range is not empty and the palette
    has a colour), and in every scene it produces the number [n] of shapes
    lies within the bounds and the shapes carry the layers 0, 1, ..., n-1
    in generation order, each exactly once. *)
Theorem generated_layers self w :
  (∀ palette,
     min_shapes (config self) ≤ max_shapes (config self) →
     min_shape_size (config self) ≤ max_shape_size (config self) →
     lists w !! shape_colors (config self) = Some palette → palette ≠ [] →
     ∃ td w', _generate_task_data self w = Ok td w') ∧
  ∀ td w', _generate_task_data self w = Ok td w' →
    min_shapes (config self) ≤ td_num_shapes td ≤ max_shapes (config self) ∧
    ∃ shapes,
      deref w' (td_shapes td) shapes ∧
      length shapes = Z.to_nat (td_num_shapes td) ∧
      shape_layer <$> shapes = range (Z.of_nat (length shapes)) ∧
      NoDup (shape_layer <$> shapes).
Proof.
  split.
  { intros palette Hn Hs Hp Hne.
    destruct (generate_returns self w palette Hn Hs Hp Hne) as (td & w' & Hrun & _).
    by exists td, w'. }
  intros td w' Hrun.
  pose proof (wp_returned _ _ _ _ _ _ (generate_spec self w) Hrun) as Hg.
  destruct Hg as (_ & _ & _ & _ & Hnum & Hlen & _ & palette & cs & copy & _ & _ & _ & _ & Hsh).
  split; [exact Hnum |].
  destruct (deref_of_lookups (λ k s, shape_layer s = Z.of_nat k) w' (td_shapes td))
    as (shapes & Hd & Hlayers).
  { intros k l Hk. destruct (Hsh k l Hk) as (_ & s & Hs & Hl & _). eauto. }
  assert (Heq : shape_layer <$> shapes = range (Z.of_nat (length shapes))).
  { apply list_eq. intros k. unfold range. rewrite !list_lookup_fmap, Nat2Z.id.
    destruct (shapes !! k) as [s|] eqn:Hk; simpl.
    - rewrite (Hlayers k s Hk). apply lookup_lt_Some in Hk.
      by rewrite lookup_seq_lt.
    - apply lookup_ge_None in Hk. by rewrite lookup_seq_ge. }
  exists shapes. repeat split; try done.
  - by rewrite (deref_length _ _ _ Hd).
  - rewrite Heq. unfold range. apply (NoDup_fmap_2 _), NoDup_seq.
Qed.

(** The palette of the configuration after [n] scene generations. *)
Lemma repeat_generate_palette self n w :
  lists (world_of (repeatM n (_generate_task_data self) w)) !! shape_colors (config self)
  = lists w !! shape_colors (config self).
Proof.
  revert w. induction n as [|n IH]; intros w; [done |]. simpl.
  pose proof (generate_spec self w) as Hg. unfold wp in Hg.
  unfold mbind at 1, M_bind at 1.
  destruct (_generate_task_data self w) as [td w1 | e w1].
  - destruct Hg as (_ & Hsub & _ & _ & _ & _ & _ & p & ? & ? & Hp & _).
    assert (H1 : lists w1 !! shape_colors (config self) = lists w !! shape_colors (config self)).
    { rewrite Hp. by eapply lookup_weaken. }
    rewrite <- H1, <- (IH w1).
    unfold mbind, M_bind. by destruct (repeatM n (_generate_task_data self) w1).
  - simpl. by destruct Hg as (_ & _ & ? & _).
Qed.

(** C10: scene generation shuffles a fresh copy of the palette and never
    the list of the configuration, which keeps its elements and their order
    after any number of calls; each shape takes its colour from the copy at
    its index modulo the length of the palette. *)
Theorem palette_not_mutated self w :
  (∀ n, lists (world_of (repeatM n (_generate_task_data self) w)) !! shape_colors (config self)
        = lists w !! shape_colors (config self)) ∧
  (∀ td w', _generate_task_data self w = Ok td w' →
     ∃ palette copy cs,
       lists w !! shape_colors (config self) = Some palette ∧
       lists w' !! shape_colors (config self) = Some palette ∧
       (copy ∉ dom (lists w)) ∧
       lists w' !! copy = Some cs ∧
       cs ≡ₚ palette ∧
       ∀ k l s, td_shapes td !! k = Some l → dicts w' !! l = Some s →
         cs !! (k `mod` length palette)%nat = Some (shape_color s)).
Proof.
  split; [intros n; apply repeat_generate_palette |].
  intros td w' Hrun.
  pose proof (wp_returned _ _ _ _ _ _ (generate_spec self w) Hrun) as Hg.
  destruct Hg as (_ & Hsub & _ & _ & _ & _ & _ & palette & cs & copy & Hp & Hperm & Hc & Hcs & Hsh).
  exists palette, copy, cs. repeat split; try done.
  - by eapply lookup_weaken.
  - intros k l s Hk Hs. destruct (Hsh k l Hk) as (_ & s' & Hs' & _ & Hcol & _).
    rewrite <- (Permutation_length Hperm). congruence.
Qed.

(** ** Sorting by layer *)

Lemma insert_by_perm {A} le (a : Z * A) l : insert_by le a l ≡ₚ a :: l.
Proof.
  induction l as [|b l IH]; simpl; [done |].
  destruct (le a.1 b.1); [done |]. rewrite IH. apply Permutation_swap.
Qed.

Lemma sort_by_perm {A} le (l : list (Z * A)) : sort_by le l ≡ₚ l.
Proof.
  induction l as [|a l IH]; simpl; [done |]. by rewrite insert_by_perm, IH.
Qed.

Section Sorted.
Context (le : Z → Z → bool) (rel : Z → Z → Prop).
Context (le_rel : ∀ a b, le a b = true → rel a b).
Context (le_total : ∀ a b, le a b = false → rel b a).
Context (rel_trans : ∀ a b c, rel a b → rel b c → rel a c).



End Sorted.


Lemma sort_by_related {A B} (rel : A → B → Prop) le (l : list (Z * A)) (l' : list (Z * B)) :
  Forall2 (λ a b, a.1 = b.1 ∧ rel a.2 b.2) l l' →
  Forall2 (λ a b, a.1 = b.1 ∧ rel a.2 b.2) (sort_by le l) (sort_by le l').
Proof.
  induction 1 as [|a b l l' [Hk Hr] Hl IH]; simpl; [constructor |].
  induction IH as [|c d m m' [Hk' Hr'] Hm IH']; simpl; [by repeat constructor |].
  rewrite <- Hk, <- Hk'. destruct (le a.1 c.1); by repeat constructor.
Qed.

Lemma sorted_shapes_perm reverse shapes : sorted_shapes reverse shapes ≡ₚ shapes.
Proof.
  unfold sorted_shapes. rewrite sort_by_perm, <- list_fmap_compose.
  by rewrite list_fmap_id.
Qed.




Lemma sorted_shapes_length reverse shapes :
  length (sorted_shapes reverse shapes) = length shapes.
Proof. by rewrite (Permutation_length (sorted_shapes_perm reverse shapes)). Qed.

Lemma forM_keys w ls shapes :
  deref w ls shapes →
  forM (λ l, s ← dict_get l; mret (shape_layer s, l)) ls w
  = Ok (zip (shape_layer <$> shapes) ls) w.
Proof.
  induction 1 as [|l s ls shapes Hl Hd IH]; simpl; [done |].
  rewrite (bind_ok _ _ w (shape_layer s, l) w).
  - by rewrite (bind_ok _ _ _ _ _ IH).
  - unfold mbind, M_bind, dict_get. by rewrite Hl.
Qed.

Lemma wp_sorted_by_layer ls shapes reverse Q R w :
  deref w ls shapes →
  (∀ ls', deref w ls' (sorted_shapes reverse shapes) → ls' ≡ₚ ls → Q ls' w) →
  wp (sorted_by_layer ls reverse) Q R w.
Proof.
  intros Hd HQ. unfold sorted_by_layer, wp.
  rewrite (bind_ok _ _ _ _ _ (forM_keys w ls shapes Hd)). simpl. apply HQ.
  - unfold deref, sorted_shapes.
    assert (H : Forall2 (λ (a : Z * loc) (b : Z * Shape), a.1 = b.1 ∧ dicts w !! a.2 = Some b.2)
                  (zip (shape_layer <$> shapes) ls) ((λ s, (shape_layer s, s)) <$> shapes)).
    { clear HQ. induction Hd; simpl; by repeat constructor. }
    apply (sort_by_related (λ l s, dicts w !! l = Some s) (layer_order reverse)) in H.
    apply Forall2_fmap. eapply Forall2_impl; [done |]. by intros a b [_ ?].
  - rewrite sort_by_perm. rewrite snd_zip; [done |].
    rewrite length_fmap. by rewrite (deref_length _ _ _ Hd).
Qed.

(** ** Drawing *)

Lemma set_xy_id s : set_y (shape_y s + 0) (set_x (shape_x s + 0) s) = s.
Proof. destruct s. unfold set_y, set_x. simpl. by rewrite !Z.add_0_r. Qed.

Lemma wp_draw_shape img l s Q R w :
  dicts w !! l = Some s →
  Q (composite img s) (with_drawn (drawn w ++ [s]) w) →
  wp (_draw_shape img l 0 0) Q R w.
Proof.
  intros Hl HQ. unfold _draw_shape. apply wp_bind, (wp_dict_get l s); [done |].
  rewrite set_xy_id, !Z.add_0_r. done.
Qed.

Lemma foldM_draw w ls shapes img :
  deref w ls shapes →
  foldM (λ img shape, _draw_shape img shape 0 0) img ls w
  = Ok (fold_left composite shapes img) (with_drawn (drawn w ++ shapes) w).
Proof.
  revert shapes img w.
  induction ls as [|l ls IH]; intros shapes img w Hd;
    inversion Hd as [|? s ? shapes' Hl Hd']; subst; simpl.
  - destruct w. unfold with_drawn. simpl. by rewrite app_nil_r.
  - rewrite (bind_ok _ _ w (composite img s) (with_drawn (drawn w ++ [s]) w)).
    + rewrite (IH shapes' _ (with_drawn (drawn w ++ [s]) w) Hd').
      unfold with_drawn. simpl. by rewrite <- app_assoc.
    + unfold _draw_shape, mbind, M_bind, dict_get. rewrite Hl. simpl.
      by rewrite set_xy_id, !Z.add_0_r.
Qed.

Lemma wp_render_overlapping self td shapes Q R w :
  deref w (td_shapes td) shapes →
  Q (convert_RGB (fold_left composite (sorted_shapes false shapes)
                    (Image_new RGBA (image_size (config self)) (opaque (bg_color (config self))))))
    (with_drawn (drawn w ++ sorted_shapes false shapes) w) →
  wp (_render_overlapping self td) Q R w.
Proof.
  intros Hd HQ. unfold _render_overlapping.
  destruct (image_size (config self)) as [width height].
  apply wp_bind, (wp_sorted_by_layer _ shapes); [done |]. intros ls' Hd' _.
  unfold wp. by rewrite (bind_ok _ _ _ _ _ (foldM_draw _ _ _ _ Hd')).
Qed.

(** A relocated copy: [shape.copy()] followed by the two assignments. *)
Lemma insert_fresh_subseteq (h h' : gmap loc Shape) l s :
  h ⊆ h' → h' !! l = None → h ⊆ <[l := s]> h'.
Proof.
  intros Hsub Hl. apply insert_subseteq_r; [|done].
  destruct (h !! l) eqn:E; [|done]. eapply lookup_weaken in E; [|done]. congruence.
Qed.

Lemma wp_render_separated self td shapes Q R w :
  deref w (td_shapes td) shapes →
  (∀ img w', dicts w ⊆ dicts w' → lists w' = lists w → rng w' = rng w →
     drawn w' = drawn w ++ separated_shapes (image_size (config self)) shapes →
     Q img w') →
  wp (_render_separated self td) Q R w.
Proof.
  intros Hd HQ. unfold _render_separated.
  destruct (image_size (config self)) as [width height] eqn:Hsize.
  apply wp_bind, (wp_sorted_by_layer _ shapes); [done |]. intros ls' Hd' Hperm.
  assert (Hlen : length ls' = length shapes).
  { by rewrite <- (deref_length _ _ _ Hd'), sorted_shapes_length. }
  apply wp_bind, wp_py_floordiv; [lia |]. intros _.
  destruct load_fonts as [font small_font].
  apply wp_bind.
  eapply (wp_foldM (λ k _ w1,
    dicts w ⊆ dicts w1 ∧ lists w1 = lists w ∧ rng w1 = rng w ∧
    drawn w1 = drawn w ++ take k (separated_shapes (width, height) shapes))).
  - repeat split; try done. by rewrite take_0, app_nil_r.
  - intros k [i l] img w1 Hk (Hsub & Hli & Hrng & Hdr).
    apply enumerate_lookup in Hk as [Hi Hl]. simpl in Hi, Hl. subst i.
    destruct (deref_lookup _ _ _ _ _ Hd' Hl) as (s & Hs & Hls).
    assert (Hls1 : dicts w1 !! l = Some s) by by eapply lookup_weaken.
    apply wp_bind, (wp_dict_copy l s); [done |].
    set (l' := fresh (dom (dicts w1))).
    assert (Hfresh : dicts w1 !! l' = None) by apply fresh_dict_None.
    apply wp_bind. eapply wp_dict_update; [simpl; apply lookup_insert_eq |].
    apply wp_bind. eapply wp_dict_update; [simpl; apply lookup_insert_eq |].
    simpl. rewrite !insert_insert_eq.
    apply wp_bind. eapply wp_draw_shape; [simpl; apply lookup_insert_eq |].
    apply wp_bind, (wp_dict_get l s).
    { simpl. rewrite lookup_insert_ne; [done | congruence]. }
    apply wp_ret. simpl. repeat split; try done.
    + by apply insert_fresh_subseteq.
    + rewrite Hdr, <- app_assoc. f_equal.
      erewrite take_S_r; [done |].
      unfold separated_shapes. rewrite list_lookup_imap, Hs. simpl.
      by rewrite Hlen.
  - intros img w1 (Hsub & Hli & Hrng & Hdr). apply wp_ret. apply HQ; try done.
    rewrite Hdr. f_equal. apply take_ge.
    unfold separated_shapes. rewrite length_imap, sorted_shapes_length.
    rewrite enumerate_length. lia.
Qed.

(** ** The animation *)

Lemma wp_lift {A} (o : Outcome A) Q R w :
  match o with Value a => Q a w | Error e => R e w end → wp (lift o) Q R w.
Proof. unfold wp, lift. by destruct o. Qed.

Lemma float_of_int_error n e : float_of_int n = Error e → e = OverflowError.
Proof.
  unfold float_of_int. destruct (binary_normalize prec emax n 0 false); congruence.
Qed.

Lemma int_of_float_error f e : int_of_float f = Error e → float_error e.
Proof. unfold float_error. destruct f; simpl; intros [=]; auto. Qed.

Lemma interpolate_error a b p e : interpolate a b p = Error e → e = OverflowError.
Proof.
  unfold interpolate, mbind, Outcome_bind.
  destruct (float_of_int (b - a)) eqn:E1; [|intros [= <-]; by eapply float_of_int_error].
  destruct (float_of_int a) eqn:E2; [done | intros [= <-]; by eapply float_of_int_error].
Qed.

Lemma eased_progress_error k e : eased_progress k = Error e → float_error e.
Proof.
  unfold eased_progress, true_div, mbind, Outcome_bind. simpl.
  destruct (float_of_int k) eqn:E1; [done |].
  intros [= <-]. left. by eapply float_of_int_error.
Qed.

Lemma range_lookup_lt n k : (k < Z.to_nat n)%nat → range n !! k = Some (Z.of_nat k).
Proof. intros Hk. unfold range. by rewrite list_lookup_fmap, lookup_seq_lt. Qed.

Lemma wp_transition_frame self ls shapes k Q R w :
  deref w ls (sorted_shapes true shapes) →
  (∀ ds w', dicts w ⊆ dicts w' → lists w' = lists w → rng w' = rng w →
     drawn w' = drawn w ++ ds →
     frame_shapes (image_size (config self)) shapes k ds →
     Q (convert_RGB (fold_left composite ds
          (Image_new RGBA (image_size (config self)) (opaque (bg_color (config self))))))
       w') →
  (∀ e w', dicts w ⊆ dicts w' → lists w' = lists w → float_error e →
     (∀ ds, ¬ frame_shapes (image_size (config self)) shapes k ds) → R e w') →
  wp (transition_frame self ls
        ((λ i, separated_position (image_size (config self)) (Z.of_nat (length ls)) i)
           <$> range (Z.of_nat (length ls))) k) Q R w.
Proof.
  intros Hd HQ HR. unfold transition_frame.
  assert (Hlen : length ls = length shapes).
  { by rewrite <- (deref_length _ _ _ Hd), sorted_shapes_length. }
  destruct (image_size (config self)) as [width height] eqn:Hsize.
  apply wp_bind, wp_lift.
  destruct (eased_progress k) as [progress | e] eqn:Hp; cycle 1.
  { apply HR; try done; [by eapply eased_progress_error |].
    intros ds (p & Hp' & _). congruence. }
  apply wp_bind.
  set (base := Image_new RGBA (width, height) (opaque (bg_color (config self)))).
  eapply (wp_foldM (λ n img w1,
    dicts w ⊆ dicts w1 ∧ lists w1 = lists w ∧ rng w1 = rng w ∧
    ∃ ds, drawn w1 = drawn w ++ ds ∧ img = fold_left composite ds base ∧
      Forall2 (λ p d,
          moved progress p.2 (separated_position (width, height) (Z.of_nat (length shapes)) p.1)
          = Value d)
        (take n (enumerate (sorted_shapes true shapes))) ds)).
  - repeat split; try done. exists []. rewrite app_nil_r. repeat split; try done.
  - intros n [i l] img w1 Hn (Hsub & Hli & Hrng & ds & Hdr & Himg & Hds).
    apply enumerate_lookup in Hn as [Hi Hl]. simpl in Hi, Hl. subst i.
    destruct (deref_lookup _ _ _ _ _ Hd Hl) as (s & Hs & Hls).
    assert (Hls1 : dicts w1 !! l = Some s) by by eapply lookup_weaken.
    apply wp_bind, (wp_dict_get l s); [done |]. cbv beta iota.
    apply wp_bind.
    eapply (wp_getitem _ _ (separated_position (width, height) (Z.of_nat (length ls)) (Z.of_nat n))).
    { lia. }
    { rewrite Nat2Z.id, list_lookup_fmap, range_lookup_lt; [done |].
      apply lookup_lt_Some in Hl. lia. }
    unfold separated_position at 1. cbv beta iota.
    assert (Hmoved : ∀ d,
      moved progress s (separated_position (width, height) (Z.of_nat (length shapes)) (Z.of_nat n))
      = Value d →
      Forall2 (λ p d,
          moved progress p.2 (separated_position (width, height) (Z.of_nat (length shapes)) p.1)
          = Value d)
        (take (S n) (enumerate (sorted_shapes true shapes))) (ds ++ [d])).
    { intros d Hd1. rewrite (take_S_r _ n (Z.of_nat n, s)).
      - apply Forall2_app; [done |]. by repeat constructor.
      - unfold enumerate. by rewrite list_lookup_imap, Hs. }
    assert (Hfail : ∀ e,
      moved progress s (separated_position (width, height) (Z.of_nat (length shapes)) (Z.of_nat n))
      = Error e →
      ∀ ds', ¬ frame_shapes (width, height) shapes k ds').
    { intros e He ds' (p & Hp' & Hall). rewrite Hp in Hp'. inversion Hp'; subst p.
      assert (He' : enumerate (sorted_shapes true shapes) !! n = Some (Z.of_nat n, s)).
      { unfold enumerate. by rewrite list_lookup_imap, Hs. }
      destruct (Forall2_lookup_l _ _ _ _ _ Hall He') as (d & _ & Hm). simpl in Hm. congruence. }
    revert Hmoved Hfail. unfold moved, separated_position. simpl. rewrite Hlen.
    set (tx := 40 + (width - 2 * 40) `div` (Z.of_nat (length shapes) + 1) * (Z.of_nat n + 1)).
    intros Hmoved Hfail.
    apply wp_bind, wp_lift.
    destruct (interpolate (shape_x s) tx progress) as [cx | e] eqn:Hcx; cycle 1.
    { apply HR; try done; [left; by eapply interpolate_error | by apply (Hfail e)]. }
    apply wp_bind, wp_lift.
    destruct (interpolate (shape_y s) (height `div` 2) progress) as [cy | e] eqn:Hcy; cycle 1.
    { apply HR; try done; [left; by eapply interpolate_error | by apply (Hfail e)]. }
    apply wp_bind, (wp_dict_copy l s); [done |].
    set (l' := fresh (dom (dicts w1))).
    assert (Hfresh : dicts w1 !! l' = None) by apply fresh_dict_None.
    apply wp_bind, wp_lift.
    destruct (int_of_float cx) as [ix | e] eqn:Hix; cycle 1.
    { apply HR; simpl; try done;
        [by apply insert_fresh_subseteq | by eapply int_of_float_error |].
      apply (Hfail e). unfold mbind, Outcome_bind. by rewrite Hix. }
    apply wp_bind. eapply wp_dict_update; [simpl; apply lookup_insert_eq |].
    apply wp_bind, wp_lift.
    destruct (int_of_float cy) as [iy | e] eqn:Hiy; cycle 1.
    { apply HR; simpl; try done; [| by eapply int_of_float_error |].
      - rewrite insert_insert_eq. by apply insert_fresh_subseteq.
      - apply (Hfail e). unfold mbind, Outcome_bind. by rewrite Hix, Hiy. }
    apply wp_bind. eapply wp_dict_update; [simpl; apply lookup_insert_eq |].
    simpl. rewrite !insert_insert_eq.
    eapply wp_draw_shape; [simpl; apply lookup_insert_eq |].
    simpl. repeat split; try done; [by apply insert_fresh_subseteq |].
    exists (ds ++ [set_y iy (set_x ix s)]). repeat split.
    + by rewrite Hdr, <- app_assoc.
    + by rewrite fold_left_app, Himg.
    + apply Hmoved. unfold mbind, Outcome_bind. by rewrite Hix, Hiy.
  - intros img w1 (Hsub & Hli & Hrng & ds & Hdr & Himg & Hds). apply wp_ret.
    subst img. apply HQ; try done.
    exists progress. split; [done |].
    rewrite take_ge in Hds; [done |].
    rewrite !enumerate_length, sorted_shapes_length. lia.
Qed.

Lemma wp_video_frames self first final td shapes Q R w :
  deref w (td_shapes td) shapes →
  (∀ trans segs w',
     dicts w ⊆ dicts w' → lists w' = lists w → rng w' = rng w →
     drawn w' = drawn w ++ concat segs →
     length trans = 25%nat → length segs = 25%nat →
     (∀ k img ds, trans !! k = Some img → segs !! k = Some ds →
        transition self shapes k img ds) →
     Q (replicate 5 first ++ trans ++ replicate 10 final) w') →
  (∀ e w', dicts w ⊆ dicts w' → lists w' = lists w → float_error e →
     (∃ k, (k < 25)%nat ∧
        ∀ ds, ¬ frame_shapes (image_size (config self)) shapes (Z.of_nat k) ds) →
     R e w') →
  wp (video_frames self first final td) Q R w.
Proof.
  intros Hd HQ HR. unfold video_frames.
  destruct (image_size (config self)) as [width height] eqn:Hsize.
  apply wp_bind, (wp_sorted_by_layer _ shapes); [done |]. intros ls' Hd' Hperm.
  apply wp_bind, wp_py_floordiv; [lia |]. intros _.
  apply wp_bind.
  eapply (wp_foldM (λ k frames w1,
    dicts w ⊆ dicts w1 ∧ lists w1 = lists w ∧ rng w1 = rng w ∧
    ∃ trans segs, frames = replicate 5 first ++ trans ∧
      length trans = k ∧ length segs = k ∧
      drawn w1 = drawn w ++ concat segs ∧
      ∀ j img ds, trans !! j = Some img → segs !! j = Some ds →
        transition self shapes j img ds)).
  - repeat split; try done. exists [], []. simpl. rewrite !app_nil_r.
    repeat split; try done.
  - intros k i frames w1 Hk (Hsub & Hli & Hrng & trans & segs & Hfr & Hlt & Hls & Hdr & Htr).
    apply range_lookup in Hk as [-> Hk].
    apply wp_bind.
    pose proof (wp_transition_frame self ls' shapes (Z.of_nat k)) as Hframe.
    rewrite Hsize in Hframe. unfold separated_position in Hframe. simpl in Hframe.
    apply Hframe; clear Hframe.
    + by eapply deref_weaken.
    + intros ds w2 Hsub2 Hli2 Hrng2 Hdr2 Hfs. apply wp_ret.
      repeat split; try done; [by etrans | congruence | congruence |].
      exists (trans ++ [convert_RGB (fold_left composite ds
                (Image_new RGBA (width, height) (opaque (bg_color (config self)))))]),
             (segs ++ [ds]).
      repeat split.
      * by rewrite Hfr, <- app_assoc.
      * rewrite length_app. simpl. lia.
      * rewrite length_app. simpl. lia.
      * by rewrite Hdr2, Hdr, concat_app, <- app_assoc; simpl; rewrite app_nil_r.
      * rewrite Hsize. unfold separated_position. simpl.
        destruct (decide (j = k)) as [-> | Hne].
        -- rewrite lookup_app_r, Hlt, Nat.sub_diag in H by lia.
           rewrite lookup_app_r, Hls, Nat.sub_diag in H0 by lia.
           simpl in H, H0. by inversion H0; subst.
        -- rewrite lookup_app_l in H.
           2:{ apply lookup_lt_Some in H. rewrite length_app in H. simpl in H. lia. }
           rewrite lookup_app_l in H0.
           2:{ apply lookup_lt_Some in H0. rewrite length_app in H0. simpl in H0. lia. }
           destruct (Htr j img ds0 H H0) as [Hfs' _]. by rewrite Hsize in Hfs'.
      * destruct (decide (j = k)) as [-> | Hne].
        -- rewrite lookup_app_r, Hlt, Nat.sub_diag in H by lia.
           rewrite lookup_app_r, Hls, Nat.sub_diag in H0 by lia.
           simpl in H, H0. rewrite Hsize. by inversion H; inversion H0; subst.
        -- rewrite lookup_app_l in H.
           2:{ apply lookup_lt_Some in H. rewrite length_app in H. simpl in H. lia. }
           rewrite lookup_app_l in H0.
           2:{ apply lookup_lt_Some in H0. rewrite length_app in H0. simpl in H0. lia. }
           by destruct (Htr j img ds0 H H0) as [_ ?].
    + intros e w2 Hsub2 Hli2 Hfe Hno. apply HR; [by etrans | congruence | done |].
      exists k. split; [exact Hk | done].
  - intros frames w1 (Hsub & Hli & Hrng & trans & segs & Hfr & Hlt & Hls & Hdr & Htr).
    apply wp_ret. subst frames. rewrite <- app_assoc. by apply (HQ trans segs).
Qed.

(** ** The separated layout *)

Lemma render_separated_returns self td shapes w :
  deref w (td_shapes td) shapes →
  ∃ img w', _render_separated self td w = Ok img w' ∧
    dicts w ⊆ dicts w' ∧ lists w' = lists w ∧ rng w' = rng w ∧
    drawn w' = drawn w ++ separated_shapes (image_size (config self)) shapes.
Proof.
  intros Hd. apply wp_ok. by apply (wp_render_separated self td shapes).
Qed.

Lemma separated_shapes_lookup size shapes i d :
  separated_shapes size shapes !! i = Some d →
  ∃ s, sorted_shapes true shapes !! i = Some s ∧
       d = place (separated_position size (Z.of_nat (length shapes)) (Z.of_nat i)) s.
Proof.
  unfold separated_shapes. rewrite list_lookup_imap.
  destruct (sorted_shapes true shapes !! i) as [s|]; [|done].
  simpl. intros [= <-]. eauto.
Qed.

Lemma separated_shapes_length size shapes :
  length (separated_shapes size shapes) = length shapes.
Proof. unfold separated_shapes. by rewrite length_imap, sorted_shapes_length. Qed.




(** C7: for a scene of one shape the spacing of the separated render
    divides by n + 1 = 2, so the render never raises ZeroDivisionError, and
    40 + (w - 80) / 2 is w / 2 whatever the width: every render that returns
    has drawn the shape at the centre of the canvas, (w / 2, h / 2) in
    integer division.  The render returns on every canvas without a
    negative side (Pillow rejects any other), for a shape whose drawing
    call at the centre Pillow accepts; the centre then lies on the
    canvas. *)
Theorem single_shape_centred self td l s w :
  td_shapes td = [l] →
  dicts w !! l = Some s →
  let width := (image_size (config self)).1 in
  let height := (image_size (config self)).2 in
  let centred := set_y (height `div` 2) (set_x (width `div` 2) s) in
  py_floordiv (width - 2 * 40) (Z.of_nat (length (td_shapes td)) + 1) w
  = Ok ((width - 2 * 40) `div` 2) w ∧
  40 + (width - 2 * 40) `div` 2 * (0 + 1) = width `div` 2 ∧
  (∀ e w', _render_separated self td w = Raise e w' → e ≠ ZeroDivisionError) ∧
  (∀ img w', _render_separated self td w = Ok img w' → drawn w' = drawn w ++ [centred]) ∧
  (canvas_ok (config self) → drawable centred →
   ∃ img w',
     _render_separated self td w = Ok img w' ∧
     drawn w' = drawn w ++ [centred] ∧
     0 ≤ width `div` 2 ≤ width ∧ 0 ≤ height `div` 2 ≤ height).
Proof.
  intros Htd Hl width height centred.
  assert (Hd : deref w (td_shapes td) [s]) by (rewrite Htd; by repeat constructor).
  destruct (render_separated_returns self td [s] w Hd) as (img & w' & Hrun & _ & _ & _ & Hdr).
  assert (Hcentre : 40 + (width - 2 * 40) `div` 2 * (0 + 1) = width `div` 2).
  { replace (width - 2 * 40) with (width + (-40) * 2) by lia.
    rewrite Z.div_add by lia. lia. }
  assert (Hdrawn : drawn w' = drawn w ++ [centred]).
  { rewrite Hdr. f_equal.
    unfold separated_shapes, separated_position, place, centred. simpl. do 3 f_equal.
    change (Z.of_nat 1 + 1) with 2. change (Z.of_nat 0 + 1) with (0 + 1).
    fold width. exact Hcentre. }
  split; [by rewrite Htd |]. split; [done |]. split; [|split].
  - intros e w0 Hraise. congruence.
  - intros img0 w0 Hok. congruence.
  - intros (Hw & Hh & _) _. exists img, w'. split; [done |]. split; [done |].
    fold width in Hw. fold height in Hh.
    split; (split; [apply Z.div_pos; lia | apply Z.div_le_upper_bound; lia]).
Qed.

(** ** Drawing order *)


Lemma render_overlapping_returns self td shapes w :
  deref w (td_shapes td) shapes →
  _render_overlapping self td w
  = Ok (convert_RGB (fold_left composite (sorted_shapes false shapes)
                       (Image_new RGBA (image_size (config self)) (opaque (bg_color (config self))))))
       (with_drawn (drawn w ++ sorted_shapes false shapes) w).
Proof.
  intros Hd.
  pose proof (wp_render_overlapping self td shapes
    (λ img w', Ok img w' = Ok (convert_RGB (fold_left composite (sorted_shapes false shapes)
                       (Image_new RGBA (image_size (config self)) (opaque (bg_color (config self))))))
       (with_drawn (drawn w ++ sorted_shapes false shapes) w)) never w Hd eq_refl) as H.
  unfold wp in H. by destruct (_render_overlapping self td w).
Qed.



Lemma video_frames_returned self first final td shapes w frames w' :
  deref w (td_shapes td) shapes →
  video_frames self first final td w = Ok frames w' →
  ∃ trans segs,
    frames = replicate 5 first ++ trans ++ replicate 10 final ∧
    length trans = 25%nat ∧ length segs = 25%nat ∧
    dicts w ⊆ dicts w' ∧
    drawn w' = drawn w ++ concat segs ∧
    ∀ k img ds, trans !! k = Some img → segs !! k = Some ds → transition self shapes k img ds.
Proof.
  intros Hd Hrun.
  apply (wp_returned (video_frames self first final td)
    (λ frames w', ∃ trans segs,
       frames = replicate 5 first ++ trans ++ replicate 10 final ∧
       length trans = 25%nat ∧ length segs = 25%nat ∧
       dicts w ⊆ dicts w' ∧
       drawn w' = drawn w ++ concat segs ∧
       ∀ k img ds, trans !! k = Some img → segs !! k = Some ds →
         transition self shapes k img ds)
    (λ _ _, True) w frames w'); [|exact Hrun].
  apply (wp_video_frames self first final td shapes); [done | | done].
  intros trans segs w1 Hsub _ _ Hdr Hlt Hls Htr. exists trans, segs.
  repeat (split; [done |]). done.
Qed.




(** ** The scene is read-only *)

Lemma renders_keep_scene self encoder tid td shapes w :
  deref w (td_shapes td) shapes →
  wp (first ← _render_overlapping self td;
      final ← _render_separated self td;
      _generate_video self encoder first final tid td)
    (λ _ w', dicts w ⊆ dicts w') (λ _ w', dicts w ⊆ dicts w') w.
Proof.
  intros Hd.
  apply wp_bind, (wp_render_overlapping self td shapes); [done |].
  apply wp_bind, (wp_render_separated self td shapes); [exact Hd |].
  intros final w2 Hsub2 _ _ _. simpl in Hsub2.
  unfold _generate_video.
  apply wp_bind, wp_Path_mkdir; [done |]. intros _.
  apply wp_bind, (wp_video_frames self _ final td shapes).
  - by eapply deref_weaken.
  - intros trans segs w3 Hsub3 _ _ _ _ _ _. apply wp_ret. by etrans.
  - intros e w3 Hsub3 _ _ _. by etrans.
Qed.

(** C8: the overlapping render, the separated render and the synthesis of
    the animation leave every shape dictionary of the scene as it was
    generated (position, size, type, colour and layer), whether they return
    or raise; what they reposition are copies. *)
Theorem scene_immutable self encoder tid td shapes w :
  deref w (td_shapes td) shapes →
  let run := first ← _render_overlapping self td;
             final ← _render_separated self td;
             _generate_video self encoder first final tid td in
  deref (world_of (run w)) (td_shapes td) shapes ∧
  dicts w ⊆ dicts (world_of (run w)).
Proof.
  intros Hd run.
  pose proof (renders_keep_scene self encoder tid td shapes w Hd) as H.
  fold run in H. unfold wp in H.
  assert (Hsub : dicts w ⊆ dicts (world_of (run w))) by by destruct (run w).
  split; [by eapply deref_weaken | done].
Qed.

(** ** Task pairs *)

Lemma prompts_get task_type :
  default (PROMPTS !!! "default"%string) (PROMPTS !! task_type) = default_prompts.
Proof.
  unfold PROMPTS. rewrite lookup_total_singleton.
  destruct (decide (task_type = "default"%string)) as [-> | Hne].
  - by rewrite lookup_singleton_eq.
  - by rewrite lookup_singleton_ne.
Qed.

Lemma wp_get_prompt task_type Q R w :
  (∀ p r, p ∈ default_prompts → Q p (with_rng r w)) → wp (get_prompt task_type) Q R w.
Proof.
  intros HQ. unfold get_prompt. rewrite prompts_get. by apply wp_choice.
Qed.

Lemma generated_deref self w td w' :
  generated self w td w' →
  ∃ shapes, deref w' (td_shapes td) shapes ∧
    Forall (λ s,
      ((image_size (config self)).1 `div` 2) - 60 ≤ shape_x s
        ≤ ((image_size (config self)).1 `div` 2) + 60 ∧
      ((image_size (config self)).2 `div` 2) - 60 ≤ shape_y s
        ≤ ((image_size (config self)).2 `div` 2) + 60) shapes.
Proof.
  intros (_ & _ & _ & _ & _ & _ & _ & palette & cs & copy & _ & _ & _ & _ & Hsh).
  destruct (deref_of_lookups (λ _ s,
      ((image_size (config self)).1 `div` 2) - 60 ≤ shape_x s
        ≤ ((image_size (config self)).1 `div` 2) + 60 ∧
      ((image_size (config self)).2 `div` 2) - 60 ≤ shape_y s
        ≤ ((image_size (config self)).2 `div` 2) + 60) w' (td_shapes td))
    as (shapes & Hd & Hall).
  - intros k l Hk. destruct (Hsh k l Hk) as (_ & s & Hs & _ & _ & Hx & Hy & _). eauto.
  - exists shapes. split; [done |]. apply Forall_forall. intros s Hin.
    apply list_elem_of_lookup in Hin as [k Hk]. by apply (Hall k).
Qed.

(** ** Exactness of the float arithmetic on small integers *)
Lemma shl_Z p n : Z.pos (shl p n) = Z.pos p * 2 ^ Z.of_nat n.
Proof.
  induction n as [|n IH]; [simpl; lia |].
  change (shl p (S n)) with (xO (shl p n)).
  rewrite Pos2Z.inj_xO, IH, Nat2Z.inj_succ, Z.pow_succ_r by lia. lia.
Qed.

Lemma digits_shl p n : Z.pos (digits2_pos (shl p n)) = Z.pos (digits2_pos p) + Z.of_nat n.
Proof.
  induction n as [|n IH]; [simpl; lia |].
  change (shl p (S n)) with (xO (shl p n)). simpl digits2_pos.
  rewrite Pos2Z.inj_succ, IH. lia.
Qed.

Lemma shl_add p n m : shl (shl p n) m = shl p (n + m).
Proof. unfold shl. rewrite Nat.add_comm. symmetry. apply Nat.iter_add. Qed.

Lemma pos_iter_shl p d : Pos.iter xO p d = shl p (Pos.to_nat d).
Proof. unfold shl. apply Pos2Nat.inj_iter. Qed.

Lemma iter_pos_nat {A} (f : A → A) p x : SpecFloat.iter_pos f p x = Nat.iter (Pos.to_nat p) f x.
Proof.
  revert x. induction p as [p IH | p IH |]; intros x; cbn [SpecFloat.iter_pos].
  - rewrite !IH, Pos2Nat.inj_xI.
    replace (S (2 * Pos.to_nat p)) with (Pos.to_nat p + S (Pos.to_nat p))%nat by lia.
    rewrite Nat.iter_add. f_equal. symmetry. apply Nat.iter_succ_r.
  - rewrite !IH, Pos2Nat.inj_xO.
    replace (2 * Pos.to_nat p)%nat with (Pos.to_nat p + Pos.to_nat p)%nat by lia.
    by rewrite Nat.iter_add.
  - done.
Qed.

Lemma shr_shl p k j :
  (j ≤ k)%nat →
  Nat.iter j shr_1 (Build_shr_record (Z.pos (shl p k)) false false)
  = Build_shr_record (Z.pos (shl p (k - j))) false false.
Proof.
  induction j as [|j IH]; intros Hj; [by rewrite Nat.sub_0_r |].
  simpl. rewrite IH by lia.
  replace (k - j)%nat with (S (k - S j)) by lia. done.
Qed.

Lemma shr_exact p k e n :
  0 ≤ n ≤ Z.of_nat k →
  shr (Build_shr_record (Z.pos (shl p k)) false false) e n
  = (Build_shr_record (Z.pos (shl p (k - Z.to_nat n))) false false, e + n).
Proof.
  intros Hn. destruct n as [|j|j]; simpl; [| |lia].
  - by rewrite Nat.sub_0_r, Z.add_0_r.
  - rewrite iter_pos_nat, shr_shl by lia. done.
Qed.

Lemma round_aux_exact s V k :
  Z.pos (digits2_pos V) ≤ 53 →
  53 ≤ Z.pos (digits2_pos V) + Z.of_nat k →
  binary_round_aux prec emax s (Z.pos (shl V k)) (- Z.of_nat k) loc_Exact
  = S754_finite s (shl V (Z.to_nat (53 - Z.pos (digits2_pos V)))) (Z.pos (digits2_pos V) - 53).
Proof.
  intros Hd Hk. unfold binary_round_aux, shr_fexp. simpl shr_record_of_loc.
  simpl Zdigits2. rewrite digits_shl.
  set (d := Z.pos (digits2_pos V)) in *.
  replace (fexp prec emax (d + Z.of_nat k + - Z.of_nat k) - - Z.of_nat k)
    with (d + Z.of_nat k - 53) by (unfold fexp, emin, prec, emax; lia).
  rewrite shr_exact by lia. simpl shr_m. simpl loc_of_shr_record. simpl round_nearest_even.
  simpl shr_record_of_loc. simpl Zdigits2. rewrite digits_shl. fold d.
  replace (fexp prec emax (d + Z.of_nat (k - Z.to_nat (d + Z.of_nat k - 53))
             + (- Z.of_nat k + (d + Z.of_nat k - 53)))
           - (- Z.of_nat k + (d + Z.of_nat k - 53)))
    with 0 by (unfold fexp, emin, prec, emax; lia).
  simpl shr. cbv beta iota zeta. simpl shr_m. cbv beta iota.
  replace (- Z.of_nat k + (d + Z.of_nat k - 53) <=? emax - prec) with true
    by (symmetry; apply Z.leb_le; unfold emax, prec; lia).
  f_equal; [f_equal; lia | lia].
Qed.

Lemma round_exact s V k :
  Z.pos (digits2_pos V) ≤ 53 →
  binary_round prec emax s (shl V k) (- Z.of_nat k)
  = S754_finite s (shl V (Z.to_nat (53 - Z.pos (digits2_pos V)))) (Z.pos (digits2_pos V) - 53).
Proof.
  intros Hd. unfold binary_round, shl_align. rewrite digits_shl.
  set (d := Z.pos (digits2_pos V)) in *.
  replace (fexp prec emax (d + Z.of_nat k + - Z.of_nat k) - - Z.of_nat k)
    with (d + Z.of_nat k - 53) by (unfold fexp, emin, prec, emax; lia).
  destruct (d + Z.of_nat k - 53) as [|j|j] eqn:Hj.
  - apply round_aux_exact; fold d; lia.
  - apply round_aux_exact; fold d; lia.
  - rewrite pos_iter_shl, shl_add.
    replace (fexp prec emax (d + Z.of_nat k + - Z.of_nat k)) with (- Z.of_nat (k + Pos.to_nat j))
      by (unfold fexp, emin, prec, emax; lia).
    apply round_aux_exact; fold d; lia.
Qed.

Lemma digits_bound p : Z.pos p < 2 ^ 53 → Z.pos (digits2_pos p) ≤ 53.
Proof.
  intros Hp.
  assert (Hs : ∀ q, digits2_pos q = Pos.size q) by (induction q; simpl; congruence).
  rewrite Hs. pose proof (Pos.size_le p) as Hle.
  assert (Hle' : 2 ^ Z.pos (Pos.size p) ≤ 2 * Z.pos p) by lia.
  destruct (Z.le_gt_cases (Z.pos (Pos.size p)) 53) as [? | Hgt]; [done |].
  assert (2 ^ 54 ≤ 2 ^ Z.pos (Pos.size p)) by (apply Z.pow_le_mono_r; lia).
  lia.
Qed.

Lemma float_of_int_exact n : Z.abs n < 2 ^ 53 → float_of_int n = Value (canon n).
Proof.
  intros Hn. unfold float_of_int, binary_normalize.
  destruct n as [|p|p]; [done | |].
  - change (binary_round prec emax false p 0)
      with (binary_round prec emax false (shl p 0) (- Z.of_nat 0)).
    rewrite round_exact; [done | apply digits_bound; lia].
  - change (binary_round prec emax true p 0)
      with (binary_round prec emax true (shl p 0) (- Z.of_nat 0)).
    rewrite round_exact; [done | apply digits_bound; lia].
Qed.









Lemma shl_align_min m e ez :
  ez ≤ e → fst (shl_align m e ez) = shl m (Z.to_nat (e - ez)).
Proof.
  intros He. unfold shl_align. destruct (ez - e) as [|j|j] eqn:Hj; simpl; [| lia |].
  - by replace (e - ez) with 0 by lia.
  - rewrite pos_iter_shl. f_equal. lia.
Qed.


Lemma range_forallb (P : Z → bool) n k :
  forallb P (range n) = true → 0 ≤ k < n → P k = true.
Proof.
  intros H Hk. rewrite forallb_forall in H. apply H.
  apply list_elem_of_In. unfold range. apply list_elem_of_fmap.
  exists (Z.to_nat k). split; [lia |]. apply elem_of_seq. lia.
Qed.








Lemma separated_position_small size n i :
  80 ≤ size.1 < 2 ^ 52 → 0 ≤ size.2 < 2 ^ 52 → 0 ≤ i < n →
  small (separated_position size n i).1 ∧ small (separated_position size n i).2.
Proof.
  intros Hw Hh Hi. unfold small, separated_position. simpl.
  pose proof (Z.mul_div_le (size.1 - 2 * 40) (n + 1) ltac:(lia)) as Hle.
  assert (0 ≤ (size.1 - 2 * 40) `div` (n + 1)) by (apply Z.div_pos; lia).
  assert (0 ≤ size.2 `div` 2 ≤ size.2) by (split; [apply Z.div_pos; lia | apply Z.div_le_upper_bound; lia]).
  split; [|lia].
  assert ((size.1 - 2 * 40) `div` (n + 1) * (i + 1) ≤ (n + 1) * ((size.1 - 2 * 40) `div` (n + 1))) by nia.
  lia.
Qed.

(** ** The float arithmetic stays finite *)
Lemma shr_1_m mrs : 0 ≤ shr_m mrs → shr_m (shr_1 mrs) = Z.div2 (shr_m mrs).
Proof. destruct mrs as [[|[p|p|]|p] r s]; simpl; (done || lia). Qed.

Lemma shr_iter_m n mrs :
  0 ≤ shr_m mrs → shr_m (Nat.iter n shr_1 mrs) = shr_m mrs `div` 2 ^ Z.of_nat n.
Proof.
  intros Hm. induction n as [|n IH]; [simpl; by rewrite Z.div_1_r |].
  change (Nat.iter (S n) shr_1 mrs) with (shr_1 (Nat.iter n shr_1 mrs)).
  rewrite shr_1_m, IH.
  - rewrite Z.div2_div, Z.div_div, Nat2Z.inj_succ, Z.pow_succ_r by lia.
    f_equal. lia.
  - rewrite IH. apply Z.div_pos; lia.
Qed.

Lemma shr_spec mrs e n :
  0 ≤ shr_m mrs →
  shr_m (shr mrs e n).1 = shr_m mrs `div` 2 ^ Z.max 0 n ∧ (shr mrs e n).2 = e + Z.max 0 n.
Proof.
  intros Hm. destruct n as [|p|p]; simpl.
  - by rewrite Z.div_1_r, Z.add_0_r.
  - rewrite iter_pos_nat, shr_iter_m by done. by rewrite positive_nat_Z.
  - by rewrite Z.div_1_r, Z.add_0_r.
Qed.

Lemma shr_record_of_loc_m m l : shr_m (shr_record_of_loc m l) = m.
Proof. by destruct l as [|[]]. Qed.

Lemma round_nearest_even_bounds m l : m ≤ round_nearest_even m l ≤ m + 1.
Proof. destruct l as [|[]]; simpl; try lia. destruct (Z.even m); lia. Qed.

Lemma digits2_size p : digits2_pos p = Pos.size p.
Proof. induction p; simpl; congruence. Qed.

Lemma Zdigits2_gt m : 0 ≤ m → m < 2 ^ Zdigits2 m.
Proof.
  intros Hm. destruct m as [|p|p]; [done | | lia]. simpl.
  rewrite digits2_size. pose proof (Pos.size_gt p). lia.
Qed.

Lemma Zdigits2_le m x : 0 ≤ m < 2 ^ x → 0 ≤ x → Zdigits2 m ≤ x.
Proof.
  intros Hm Hx. destruct m as [|p|p]; [done | | lia]. simpl.
  rewrite digits2_size. pose proof (Pos.size_le p) as Hle.
  assert (Hle' : 2 ^ Z.pos (Pos.size p) ≤ 2 * Z.pos p) by lia.
  destruct (Z.le_gt_cases (Z.pos (Pos.size p)) x) as [? | Hgt]; [done |].
  assert (2 ^ (x + 1) ≤ 2 ^ Z.pos (Pos.size p)) by (apply Z.pow_le_mono_r; lia).
  rewrite Z.pow_add_r in H by lia. lia.
Qed.

Lemma Zdigits2_nonneg m : 0 ≤ Zdigits2 m.
Proof. destruct m; simpl; lia. Qed.

Lemma div_pow_bound m a n :
  0 ≤ m < 2 ^ a → 0 ≤ a → 0 ≤ n → 0 ≤ m `div` 2 ^ n < 2 ^ Z.max 0 (a - n).
Proof.
  intros Hm Ha Hn. split; [apply Z.div_pos; lia |].
  destruct (Z.le_gt_cases n a) as [Hle | Hgt].
  - rewrite Z.max_r by lia. apply Z.div_lt_upper_bound; [lia |].
    rewrite <- Z.pow_add_r by lia. replace (n + (a - n)) with a by lia. lia.
  - rewrite Z.max_l by lia. rewrite Z.div_small; [done |].
    split; [lia |]. assert (2 ^ a ≤ 2 ^ n) by (apply Z.pow_le_mono_r; lia). lia.
Qed.

Lemma shr_fexp_spec m e l :
  0 ≤ m →
  let n := Z.max 0 (fexp prec emax (Zdigits2 m + e) - e) in
  shr_m (shr_fexp prec emax m e l).1 = m `div` 2 ^ n ∧
  (shr_fexp prec emax m e l).2 = e + n.
Proof.
  intros Hm n. unfold shr_fexp.
  pose proof (shr_spec (shr_record_of_loc m l) e (fexp prec emax (Zdigits2 m + e) - e)) as H.
  rewrite shr_record_of_loc_m in H. by apply H.
Qed.

Lemma round_aux_within s m e l D :
  0 < m → Zdigits2 m + e ≤ D → e ≤ 971 → D ≤ 1023 →
  within (Z.max e (Z.max (D - 52) (-1074))) (Z.max D (-1074) + 1)
    (binary_round_aux prec emax s m e l).
Proof.
  intros Hm HD He HD'. unfold binary_round_aux.
  destruct (shr_fexp_spec m e l ltac:(lia)) as [Hm1 He1].
  destruct (shr_fexp prec emax m e l) as [mrs1 e1]. simpl in Hm1, He1.
  set (n1 := Z.max 0 (fexp prec emax (Zdigits2 m + e) - e)) in *.
  pose proof (Zdigits2_gt m ltac:(lia)) as Hgt.
  pose proof (Zdigits2_nonneg m) as Hnn.
  pose proof (div_pow_bound m (Zdigits2 m) n1 ltac:(lia) Hnn ltac:(lia)) as Hb1.
  rewrite <- Hm1 in Hb1.
  pose proof (round_nearest_even_bounds (shr_m mrs1) (loc_of_shr_record mrs1)) as Hr.
  set (m1 := round_nearest_even (shr_m mrs1) (loc_of_shr_record mrs1)) in *.
  assert (Hd1 : Zdigits2 m1 ≤ Z.max 0 (Zdigits2 m - n1) + 1).
  { apply Zdigits2_le; [|lia]. rewrite Z.pow_add_r by lia. lia. }
  destruct (shr_fexp_spec m1 e1 loc_Exact ltac:(lia)) as [Hm2 He2].
  destruct (shr_fexp prec emax m1 e1 loc_Exact) as [mrs2 e2]. simpl in Hm2, He2.
  set (n2 := Z.max 0 (fexp prec emax (Zdigits2 m1 + e1) - e1)) in *.
  pose proof (Zdigits2_gt m1 ltac:(lia)) as Hgt1.
  pose proof (Zdigits2_nonneg m1) as Hnn1.
  pose proof (div_pow_bound m1 (Zdigits2 m1) n2 ltac:(lia) Hnn1 ltac:(lia)) as Hb2.
  rewrite <- Hm2 in Hb2.
  assert (Hn1 : n1 = Z.max 0 (Z.max (Zdigits2 m + e - 53) (-1074) - e)) by done.
  assert (Hn2 : n2 = Z.max 0 (Z.max (Zdigits2 m1 + e1 - 53) (-1074) - e1)) by done.
  clearbody n1 n2.
  destruct (shr_m mrs2) as [|m2|m2] eqn:Hm2'; [done | | lia].
  assert (He2' : e2 ≤ 971) by lia.
  replace (e2 <=? emax - prec) with true by (symmetry; apply Z.leb_le; unfold emax, prec; lia).
  simpl. split; [lia |].
  assert (Hd2 : Zdigits2 (Z.pos m2) ≤ Z.max 0 (Zdigits2 m1 - n2)).
  { apply Zdigits2_le; lia. }
  simpl in Hd2.
  assert (0 < Zdigits2 m1 - n2).
  { destruct (Z.le_gt_cases (Zdigits2 m1 - n2) 0) as [Hle | ?]; [|lia].
    rewrite Z.max_l in Hb2 by lia. simpl in Hb2. lia. }
  lia.
Qed.

Lemma within_mono E D E' D' f : E ≤ E' → D ≤ D' → within E D f → within E' D' f.
Proof. intros HE HD. destruct f; simpl; try done. lia. Qed.

Lemma round_within s m e D :
  Z.pos (digits2_pos m) + e ≤ D → D ≤ 1023 →
  within (Z.max (D - 52) (-1074)) (Z.max D (-1074) + 1) (binary_round prec emax s m e).
Proof.
  intros HD HD'. unfold binary_round, shl_align.
  set (d := Z.pos (digits2_pos m)) in *.
  assert (Hf : fexp prec emax (d + e) = Z.max (d + e - 53) (-1074)) by done.
  destruct (fexp prec emax (d + e) - e) as [|j|j] eqn:Hj.
  - eapply within_mono; [| |apply round_aux_within with (D := D)]; simpl; fold d; lia.
  - eapply within_mono; [| |apply round_aux_within with (D := D)]; simpl; fold d; lia.
  - rewrite pos_iter_shl.
    eapply within_mono; [| |apply round_aux_within with (D := D)]; simpl;
      rewrite ?digits_shl; fold d; lia.
Qed.

Lemma digits_mul a b :
  Zdigits2 (Z.pos (a * b)) ≤ Z.pos (digits2_pos a) + Z.pos (digits2_pos b).
Proof.
  apply Zdigits2_le; [|lia].
  pose proof (Zdigits2_gt (Z.pos a) ltac:(lia)) as Ha.
  pose proof (Zdigits2_gt (Z.pos b) ltac:(lia)) as Hb. simpl in Ha, Hb.
  rewrite Z.pow_add_r, Pos2Z.inj_mul by lia. nia.
Qed.

Lemma fmul_within Ex Dx Ey Dy x y :
  within Ex Dx x → within Ey Dy y → Ex + Ey ≤ 971 → Dx + Dy ≤ 1023 →
  within (Z.max (Ex + Ey) (Z.max (Dx + Dy - 52) (-1074))) (Z.max (Dx + Dy) (-1074) + 1)
    (fmul x y).
Proof.
  intros Hx Hy HE HD. destruct x as [sx| | |sx mx ex], y as [sy| | |sy my ey]; try done.
  simpl in Hx, Hy. unfold fmul, SFmul.
  pose proof (digits_mul mx my) as Hd.
  eapply within_mono; [| |apply round_aux_within with (D := Dx + Dy)]; lia.
Qed.

Lemma fadd_within Ex Dx Ey Dy x y :
  within Ex Dx x → within Ey Dy y → Z.max Dx Dy + 1 ≤ 1023 →
  within (Z.max Ex (Z.max Ey (Z.max (Z.max Dx Dy - 51) (-1074))))
    (Z.max (Z.max Dx Dy + 1) (-1074) + 1) (fadd x y).
Proof.
  intros Hx Hy HD. destruct x as [sx| | |sx mx ex], y as [sy| | |sy my ey]; try done.
  - by destruct sx, sy.
  - eapply within_mono; [| |exact Hy]; lia.
  - eapply within_mono; [| |exact Hx]; lia.
  - simpl in Hx, Hy. unfold fadd, SFadd.
    set (ez := Z.min ex ey).
    rewrite !shl_align_min by lia.
    set (a := shl mx (Z.to_nat (ex - ez))). set (b := shl my (Z.to_nat (ey - ez))).
    assert (Ha : Z.pos (digits2_pos a) + ez = Z.pos (digits2_pos mx) + ex).
    { unfold a. rewrite digits_shl. lia. }
    assert (Hb : Z.pos (digits2_pos b) + ez = Z.pos (digits2_pos my) + ey).
    { unfold b. rewrite digits_shl. lia. }
    pose proof (Zdigits2_gt (Z.pos a) ltac:(lia)) as Ha'.
    pose proof (Zdigits2_gt (Z.pos b) ltac:(lia)) as Hb'. simpl in Ha', Hb'.
    set (X := Z.max (Z.pos (digits2_pos a)) (Z.pos (digits2_pos b)) + 1).
    assert (HaX : Z.pos a < 2 ^ (X - 1)).
    { eapply Z.lt_le_trans; [exact Ha' |]. apply Z.pow_le_mono_r; lia. }
    assert (HbX : Z.pos b < 2 ^ (X - 1)).
    { eapply Z.lt_le_trans; [exact Hb' |]. apply Z.pow_le_mono_r; lia. }
    assert (HX : 2 ^ X = 2 * 2 ^ (X - 1)).
    { rewrite <- Z.pow_succ_r by lia. f_equal. lia. }
    assert (Hsum : ∀ q, Z.pos q < 2 ^ X →
      within (Z.max Ex (Z.max Ey (Z.max (Z.max Dx Dy - 51) (-1074))))
        (Z.max (Z.max Dx Dy + 1) (-1074) + 1) (binary_round prec emax false q ez) ∧
      within (Z.max Ex (Z.max Ey (Z.max (Z.max Dx Dy - 51) (-1074))))
        (Z.max (Z.max Dx Dy + 1) (-1074) + 1) (binary_round prec emax true q ez)).
    { intros q Hq.
      pose proof (Zdigits2_le (Z.pos q) X ltac:(lia) ltac:(lia)) as Hdq. simpl in Hdq.
      split; (eapply within_mono; [| |apply round_within with (D := Z.max Dx Dy + 1)]; lia). }
    unfold binary_normalize.
    destruct (cond_Zopp sx (Z.pos a) + cond_Zopp sy (Z.pos b)) as [|q|q] eqn:Hq; [done | |].
    + apply Hsum. destruct sx, sy; simpl in Hq; lia.
    + apply Hsum. destruct sx, sy; simpl in Hq; lia.
Qed.

Lemma canon_within n : Z.abs n < 2 ^ 53 → within 0 53 (canon n).
Proof.
  intros Hn. destruct n as [|p|p]; [done | |]; simpl.
  - pose proof (digits_bound p ltac:(lia)). rewrite digits_shl. lia.
  - pose proof (digits_bound p ltac:(lia)). rewrite digits_shl. lia.
Qed.


Lemma eased_progress_within k :
  0 ≤ k < animation_frames → ∃ p, eased_progress k = Value p ∧ within (-52) 1 p.
Proof.
  intros Hk.
  assert (H : progress_within k = true) by by apply (range_forallb _ animation_frames).
  unfold progress_within in H. destruct (eased_progress k) as [[| | |s m e]|]; try done.
  - eexists. by split.
  - apply andb_true_iff in H as [?%Z.leb_le ?%Z.leb_le]. eexists. by split.
Qed.

Lemma int_of_float_within E D f : within E D f → ∃ n, int_of_float f = Value n.
Proof. destruct f; simpl; try done; eauto. Qed.

Lemma interpolate_defined a b p :
  Z.abs a < 2 ^ 53 → Z.abs (b - a) < 2 ^ 53 → within (-52) 1 p →
  ∃ f n, interpolate a b p = Value f ∧ int_of_float f = Value n.
Proof.
  intros Ha Hd Hp. unfold interpolate. rewrite !float_of_int_exact by done.
  unfold mbind, Outcome_bind, mret, Outcome_ret.
  pose proof (fmul_within 0 53 (-52) 1 _ _ (canon_within _ Hd) Hp ltac:(lia) ltac:(lia)) as Hm.
  pose proof (fadd_within _ _ _ _ _ _ (canon_within _ Ha) Hm ltac:(lia)) as Hs.
  destruct (int_of_float_within _ _ _ Hs) as [n Hn]. eauto.
Qed.

Lemma moved_defined p s t :
  within (-52) 1 p →
  small (shape_x s) → small (shape_y s) → small t.1 → small t.2 →
  ∃ d, moved p s t = Value d.
Proof.
  unfold small. intros Hp Hx Hy Htx Hty. unfold moved.
  destruct (interpolate_defined (shape_x s) t.1 p) as (cx & ix & -> & Hix); [lia | lia | done |].
  destruct (interpolate_defined (shape_y s) t.2 p) as (cy & iy & -> & Hiy); [lia | lia | done |].
  unfold mbind, Outcome_bind. rewrite Hix, Hiy. eauto.
Qed.

(** ** The animation is defined on canvases below 2^52 *)

Lemma Forall2_defined {A B} (P : A → B → Prop) (l : list A) :
  (∀ i x, l !! i = Some x → ∃ y, P x y) → ∃ ys, Forall2 P l ys.
Proof.
  induction l as [|x l IH]; intros H; [exists []; constructor |].
  destruct (H 0%nat x eq_refl) as [y Hy].
  destruct IH as [ys Hys]; [intros i z Hz; by apply (H (S i)) |].
  exists (y :: ys). by constructor.
Qed.

Lemma scene_small size shapes i s :
  80 ≤ size.1 < 2 ^ 52 → 0 ≤ size.2 < 2 ^ 52 →
  Forall (λ s, small (shape_x s) ∧ small (shape_y s)) shapes →
  sorted_shapes true shapes !! i = Some s →
  small (shape_x s) ∧ small (shape_y s) ∧
  small (separated_position size (Z.of_nat (length shapes)) (Z.of_nat i)).1 ∧
  small (separated_position size (Z.of_nat (length shapes)) (Z.of_nat i)).2.
Proof.
  intros Hw Hh Hsmall Hs.
  assert (Hin : s ∈ shapes).
  { rewrite <- (sorted_shapes_perm true shapes). by eapply list_elem_of_lookup_2. }
  rewrite Forall_forall in Hsmall. destruct (Hsmall s Hin) as [Hx Hy].
  apply lookup_lt_Some in Hs. rewrite sorted_shapes_length in Hs.
  by destruct (separated_position_small size
    (Z.of_nat (length shapes)) (Z.of_nat i) Hw Hh ltac:(lia)).
Qed.

Lemma frame_shapes_defined size shapes k :
  80 ≤ size.1 < 2 ^ 52 → 0 ≤ size.2 < 2 ^ 52 →
  Forall (λ s, small (shape_x s) ∧ small (shape_y s)) shapes →
  0 ≤ k < animation_frames →
  ∃ ds, frame_shapes size shapes k ds.
Proof.
  intros Hw Hh Hsmall Hk.
  destruct (eased_progress_within k Hk) as (p & Hp & Hpw).
  destruct (Forall2_defined
    (λ (q : Z * Shape) d,
       moved p q.2 (separated_position size (Z.of_nat (length shapes)) q.1) = Value d)
    (enumerate (sorted_shapes true shapes))) as [ds Hds].
  - intros i [j s] Hi. apply enumerate_lookup in Hi as [Hj Hs]. simpl in *. subst j.
    destruct (scene_small size shapes i s Hw Hh Hsmall Hs) as (? & ? & ? & ?).
    by apply moved_defined.
  - exists ds, p. by split.
Qed.

Lemma video_frames_returns self first final td shapes w :
  deref w (td_shapes td) shapes →
  80 ≤ (image_size (config self)).1 < 2 ^ 52 →
  0 ≤ (image_size (config self)).2 < 2 ^ 52 →
  Forall (λ s, small (shape_x s) ∧ small (shape_y s)) shapes →
  ∃ frames w', video_frames self first final td w = Ok frames w'.
Proof.
  intros Hd Hw Hh Hsmall.
  destruct (wp_ok (video_frames self first final td) (λ _ _, True) w) as (frames & w' & Hrun & _);
    [|eauto].
  apply (wp_video_frames self first final td shapes); [done | done |].
  intros e w' _ _ _ (k & Hk & Hno).
  destruct (frame_shapes_defined (image_size (config self)) shapes (Z.of_nat k) Hw Hh Hsmall)
    as [ds Hds]; [unfold animation_frames; lia |].
  by destruct (Hno ds).
Qed.



(** ** The frame sequence and the task pair *)


(** * Further properties of the generator *)

(** ** Scene generation: ranges, errors and fresh objects *)

(** X1: every shape of a generated scene lies within 60 pixels of the
    canvas centre on both axes, has a size within the configured range and
    one of the three kinds; the scene is tagged "default". *)
Theorem generated_shapes_bounds self w td w' :
  _generate_task_data self w = Ok td w' →
  let width := (image_size (config self)).1 in
  let height := (image_size (config self)).2 in
  td_type td = "default"%string ∧
  ∀ l, l ∈ td_shapes td →
    ∃ s, dicts w' !! l = Some s ∧
      width `div` 2 - 60 ≤ shape_x s ≤ width `div` 2 + 60 ∧
      height `div` 2 - 60 ≤ shape_y s ≤ height `div` 2 + 60 ∧
      min_shape_size (config self) ≤ shape_size s ≤ max_shape_size (config self) ∧
      shape_type s ∈ shape_types.
Proof.
  intros Hrun width height.
  pose proof (wp_returned _ _ _ _ _ _ (generate_spec self w) Hrun) as Hg.
  destruct Hg as (_ & _ & _ & _ & _ & _ & Hty & palette & cs & copy & _ & _ & _ & _ & Hsh).
  split; [done |]. intros l [k Hk]%list_elem_of_lookup.
  destruct (Hsh k l Hk) as (_ & s & Hs & _ & _ & Hx & Hy & Hsz & Ht).
  exists s. by repeat split; try apply Hx; try apply Hy; try apply Hsz.
Qed.

(** X2: with max_shapes below min_shapes, [random.randint] raises
    ValueError at the first statement of scene generation, and
    [generate_task_pair] raises with it: nothing is allocated, drawn or
    drawn from the random source. *)
Theorem empty_count_range_raises self tid w :
  max_shapes (config self) < min_shapes (config self) →
  _generate_task_data self w = Raise ValueError w ∧
  generate_task_pair self tid w = Raise ValueError w.
Proof.
  intros Hlt.
  assert (Hgen : _generate_task_data self w = Raise ValueError w).
  { unfold _generate_task_data, randint.
    destruct (Z.ltb_spec (max_shapes (config self)) (min_shapes (config self))); [done | lia]. }
  split; [done |]. unfold generate_task_pair, mbind, M_bind. by rewrite Hgen.
Qed.

Lemma range_head n : 1 ≤ n → ∃ rest, range n = 0 :: rest.
Proof.
  intros Hn. unfold range. destruct (Z.to_nat n) as [|m] eqn:E; [lia |].
  simpl. eauto.
Qed.

(** Scene generation up to the first round of its loop: when that round
    cannot return, neither can the call. *)
Lemma generate_first_shape self w palette (R : Exn → World → Prop) :
  min_shapes (config self) ≤ max_shapes (config self) →
  1 ≤ min_shapes (config self) →
  lists w !! shape_colors (config self) = Some palette →
  (∀ w1 cs copy,
     dicts w1 = dicts w → drawn w1 = drawn w →
     lists w1 = <[copy := cs]> (lists w) → lists w !! copy = None → cs ≡ₚ palette →
     wp (dx ← randint (- 60) 60;
         dy ← randint (- 60) 60;
         size ← randint (min_shape_size (config self)) (max_shape_size (config self));
         shape_type ← choice shape_types;
         palette ← list_get copy;
         k ← py_mod 0 (Z.of_nat (length palette));
         color ← getitem palette k;
         d ← dict_new (mkShape ((image_size (config self)).1 `div` 2 + dx)
                         ((image_size (config self)).2 `div` 2 + dy) size shape_type color 0);
         mret ([] ++ [d])) (λ _ _, False) R w1) →
  wp (_generate_task_data self) (λ _ _, False) R w.
Proof.
  intros Hn H1 Hp Hstep. unfold _generate_task_data.
  apply wp_bind, wp_randint; [lia |]. intros n r _ Hn'.
  destruct (image_size (config self)) as [width height] eqn:Hsize.
  apply wp_bind, wp_bind, (wp_list_get _ palette); [done |].
  unfold list_new, wp at 1. simpl.
  set (copy := fresh (dom (lists w))).
  assert (Hcopy : lists w !! copy = None) by apply fresh_list_None.
  apply wp_bind, wp_bind, (wp_list_get _ palette); [simpl; by rewrite lookup_insert_eq |].
  apply wp_bind, wp_shuffled. intros cs r' Hperm.
  eapply wp_list_set; [simpl; by rewrite lookup_insert_eq |].
  simpl. rewrite insert_insert_eq.
  destruct (range_head n) as [rest ->]; [lia |].
  apply wp_bind. simpl. apply wp_bind.
  eapply wp_mono; [apply (Hstep _ cs copy); done | done | done].
Qed.

(** X3: with at least one shape to build and max_shape_size below
    min_shape_size, scene generation raises ValueError when it draws the
    size of the first shape; no shape dictionary exists yet and the palette
    of the configuration is as it was. *)
Theorem generate_empty_size_range self w palette :
  1 ≤ min_shapes (config self) ≤ max_shapes (config self) →
  max_shape_size (config self) < min_shape_size (config self) →
  lists w !! shape_colors (config self) = Some palette →
  ∃ w', _generate_task_data self w = Raise ValueError w' ∧
        dicts w' = dicts w ∧ drawn w' = drawn w ∧
        lists w' !! shape_colors (config self) = Some palette.
Proof.
  intros [H1 Hn] Hs Hp.
  pose proof (generate_first_shape self w palette
    (λ e w', e = ValueError ∧ dicts w' = dicts w ∧ drawn w' = drawn w ∧
             lists w' !! shape_colors (config self) = Some palette) Hn H1 Hp) as H.
  assert (Hrun : wp (_generate_task_data self) (λ _ _, False)
    (λ e w', e = ValueError ∧ dicts w' = dicts w ∧ drawn w' = drawn w ∧
             lists w' !! shape_colors (config self) = Some palette) w).
  { apply H. intros w1 cs copy Hd Hdr Hl Hc _.
    apply wp_bind, wp_randint; [lia |]. intros dx r1 _ _.
    apply wp_bind, wp_randint; [lia |]. intros dy r2 _ _.
    apply wp_bind, wp_randint; [|lia]. intros _. simpl.
    repeat split; try done. rewrite Hl, lookup_insert_ne; [done | congruence]. }
  unfold wp in Hrun.
  destruct (_generate_task_data self w) as [td w' | e w']; [done |].
  exists w'. by destruct Hrun as (-> & ? & ? & ?).
Qed.

(** X4: with at least one shape to build and an empty palette, scene
    generation raises ZeroDivisionError at [i % len(available_colors)] of
    the first shape; no shape dictionary exists yet. *)
Theorem generate_empty_palette self w :
  1 ≤ min_shapes (config self) ≤ max_shapes (config self) →
  min_shape_size (config self) ≤ max_shape_size (config self) →
  lists w !! shape_colors (config self) = Some [] →
  ∃ w', _generate_task_data self w = Raise ZeroDivisionError w' ∧
        dicts w' = dicts w ∧ drawn w' = drawn w.
Proof.
  intros [H1 Hn] Hs Hp.
  pose proof (generate_first_shape self w []
    (λ e w', e = ZeroDivisionError ∧ dicts w' = dicts w ∧ drawn w' = drawn w) Hn H1 Hp) as H.
  assert (Hrun : wp (_generate_task_data self) (λ _ _, False)
    (λ e w', e = ZeroDivisionError ∧ dicts w' = dicts w ∧ drawn w' = drawn w) w).
  { apply H. intros w1 cs copy Hd Hdr Hl Hc Hperm.
    apply Permutation_nil_r in Hperm as ->.
    apply wp_bind, wp_randint; [lia |]. intros dx r1 _ _.
    apply wp_bind, wp_randint; [lia |]. intros dy r2 _ _.
    apply wp_bind, wp_randint; [lia |]. intros size r3 _ _.
    apply wp_bind, (wp_choice shape_types); [done |]. intros ty r4 _.
    apply wp_bind, (wp_list_get _ []); [simpl; rewrite Hl; apply lookup_insert_eq |].
    apply wp_bind, wp_py_mod; [|done]. intros _. by simpl. }
  unfold wp in Hrun.
  destruct (_generate_task_data self w) as [td w' | e w']; [done |].
  exists w'. by destruct Hrun as (-> & ? & ?).
Qed.

(** X5: when the shape count drawn cannot be positive (max_shapes <= 0)
    scene generation returns a scene without shapes, whatever the palette
    and the size range are; [num_shapes] keeps the number drawn, which may
    be negative, and no dictionary is allocated. *)
Theorem generate_no_shapes self w palette :
  min_shapes (config self) ≤ max_shapes (config self) ≤ 0 →
  lists w !! shape_colors (config self) = Some palette →
  ∃ td w', _generate_task_data self w = Ok td w' ∧
    td_shapes td = [] ∧
    min_shapes (config self) ≤ td_num_shapes td ≤ max_shapes (config self) ∧
    dicts w' = dicts w ∧ drawn w' = drawn w.
Proof.
  intros [Hn H0] Hp. apply wp_ok. unfold _generate_task_data.
  apply wp_bind, wp_randint; [lia |]. intros n r _ Hn'.
  destruct (image_size (config self)) as [width height] eqn:Hsize.
  apply wp_bind, wp_bind, (wp_list_get _ palette); [done |].
  unfold list_new, wp at 1. simpl.
  apply wp_bind, wp_bind, (wp_list_get _ palette); [simpl; by rewrite lookup_insert_eq |].
  apply wp_bind, wp_shuffled. intros cs r' Hperm.
  eapply wp_list_set; [simpl; by rewrite lookup_insert_eq |].
  assert (range n = []) as ->.
  { unfold range. by replace (Z.to_nat n) with 0%nat by lia. }
  simpl. by apply wp_ret.
Qed.

(** X6: a second scene generation leaves the dictionaries of the first
    scene as they were, and the two scenes share no dictionary; generating
    draws nothing. *)
Theorem second_scene_disjoint self w td1 w1 td2 w2 shapes1 :
  _generate_task_data self w = Ok td1 w1 →
  _generate_task_data self w1 = Ok td2 w2 →
  deref w1 (td_shapes td1) shapes1 →
  deref w2 (td_shapes td1) shapes1 ∧
  NoDup (td_shapes td1 ++ td_shapes td2) ∧
  drawn w2 = drawn w.
Proof.
  intros Hrun1 Hrun2 Hd.
  pose proof (wp_returned _ _ _ _ _ _ (generate_spec self w) Hrun1) as Hg1.
  pose proof (wp_returned _ _ _ _ _ _ (generate_spec self w1) Hrun2) as Hg2.
  destruct Hg1 as (_ & _ & Hdr1 & Hnd1 & _).
  destruct Hg2 as (Hsub & _ & Hdr2 & Hnd2 & _ & _ & _ & palette & cs & copy & _ & _ & _ & _ & Hsh).
  split; [by eapply deref_weaken |]. split; [|congruence].
  apply NoDup_app. split; [done |]. split; [|done].
  intros l [k Hk]%list_elem_of_lookup [j Hj]%list_elem_of_lookup.
  destruct (deref_lookup _ _ _ _ _ Hd Hk) as (s & _ & Hs).
  destruct (Hsh j l Hj) as (Hfresh & _).
  apply Hfresh. by apply elem_of_dom.
Qed.

(** The colours of a generated scene, read off the shuffled copy. *)
Lemma generated_palette self w td w' palette :
  generated self w td w' →
  lists w !! shape_colors (config self) = Some palette →
  ∃ cs shapes,
    cs ≡ₚ palette ∧ deref w' (td_shapes td) shapes ∧
    ∀ k s, shapes !! k = Some s → cs !! (k `mod` length cs)%nat = Some (shape_color s).
Proof.
  intros (_ & _ & _ & _ & _ & _ & _ & palette' & cs & copy & Hp' & Hperm & _ & _ & Hsh) Hp.
  assert (palette' = palette) as -> by congruence.
  destruct (deref_of_lookups
    (λ k s, cs !! (k `mod` length cs)%nat = Some (shape_color s)) w' (td_shapes td))
    as (shapes & Hd & Hcol).
  { intros k l Hk. destruct (Hsh k l Hk) as (_ & s & Hs & _ & Hc & _). eauto. }
  by exists cs, shapes.
Qed.

Lemma cycled_colours_NoDup (cs : list Color) (shapes : list Shape) :
  NoDup cs → (length shapes ≤ length cs)%nat →
  (∀ k s, shapes !! k = Some s → cs !! (k `mod` length cs)%nat = Some (shape_color s)) →
  NoDup (shape_color <$> shapes).
Proof.
  intros Hnd Hle Hcol. apply NoDup_alt.
  intros i j c. rewrite !list_lookup_fmap.
  destruct (shapes !! i) as [a|] eqn:Ha; [|done].
  destruct (shapes !! j) as [b|] eqn:Hb; [|done].
  simpl. intros [= <-] [= Hc].
  pose proof (lookup_lt_Some _ _ _ Ha). pose proof (lookup_lt_Some _ _ _ Hb).
  apply Hcol in Ha, Hb.
  rewrite Nat.mod_small in Ha, Hb by lia.
  rewrite Hc in Hb. by eapply NoDup_lookup.
Qed.

(** X7: every colour of a generated scene is a colour of the palette;
    shapes whose indices agree modulo the length of the palette have the
    same colour; and when the palette has no repeated colour and at least
    as many colours as the scene has shapes, the shapes have pairwise
    different colours. *)
Theorem generated_colours self w td w' palette :
  _generate_task_data self w = Ok td w' →
  lists w !! shape_colors (config self) = Some palette →
  ∃ shapes,
    deref w' (td_shapes td) shapes ∧
    (∀ s, s ∈ shapes → shape_color s ∈ palette) ∧
    (∀ i j a b, shapes !! i = Some a → shapes !! j = Some b →
       (i `mod` length palette = j `mod` length palette)%nat →
       shape_color a = shape_color b) ∧
    (NoDup palette → (length shapes ≤ length palette)%nat →
     NoDup (shape_color <$> shapes)).
Proof.
  intros Hrun Hp.
  pose proof (wp_returned _ _ _ _ _ _ (generate_spec self w) Hrun) as Hg.
  destruct (generated_palette _ _ _ _ _ Hg Hp) as (cs & shapes & Hperm & Hd & Hcol).
  pose proof (Permutation_length Hperm) as Hlen.
  exists shapes. split; [done |]. split; [|split].
  - intros s [k Hk]%list_elem_of_lookup. rewrite <- Hperm.
    by eapply list_elem_of_lookup_2, Hcol.
  - intros i j a b Ha Hb Hij. apply Hcol in Ha, Hb.
    rewrite Hlen, Hij in Ha. rewrite Hlen in Hb. congruence.
  - intros Hnd Hle. rewrite <- Hperm in Hnd. rewrite <- Hlen in Hle.
    by apply (cycled_colours_NoDup cs).
Qed.

(** ** Draw orders *)







(** *** Ties: [sorted] is stable, also with [reverse=True] *)





(** ** What the renders return and allocate *)



Lemma convert_RGB_opaque img i j : (im_px (convert_RGB img) i j).2 = 255.
Proof. simpl. by destruct (im_px img i j) as [[[r g] b] a]. Qed.

Lemma fold_composite_size ds img : im_size (fold_left composite ds img) = im_size img.
Proof. revert img. induction ds as [|d ds IH]; intros img; simpl; [done | by rewrite IH]. Qed.



(** X12: every overlapping render that returns is an opaque RGB image of
    the configured size and has changed nothing in the store: no
    dictionary, no list, no random draw; it has called [_draw_shape] once
    per shape.  The render returns on a canvas without a negative side,
    for shapes whose drawing calls Pillow accepts. *)
Theorem render_overlapping_effect self td shapes w :
  deref w (td_shapes td) shapes →
  (∀ img w',
     _render_overlapping self td w = Ok img w' →
     img = overlapping_image self shapes ∧
     im_mode img = RGB ∧ im_size img = image_size (config self) ∧
     (∀ i j, (im_px img i j).2 = 255) ∧
     dicts w' = dicts w ∧ lists w' = lists w ∧ rng w' = rng w ∧
     length (drawn w') = (length (drawn w) + length shapes)%nat) ∧
  (canvas_ok (config self) → Forall drawable shapes →
   ∃ img w',
     _render_overlapping self td w = Ok img w' ∧
     Forall drawable (drop (length (drawn w)) (drawn w'))).
Proof.
  intros Hd. pose proof (render_overlapping_returns self td shapes w Hd) as Hrun. split.
  - intros img w' Hok. rewrite Hrun in Hok. injection Hok as <- <-.
    repeat split; try done.
    + simpl. by rewrite fold_composite_size.
    + intros i j. apply convert_RGB_opaque.
    + simpl. by rewrite length_app, sorted_shapes_length.
  - intros _ Hok. eexists _, _. split; [exact Hrun |].
    simpl. rewrite drop_app_length.
    apply Forall_forall. intros s Hs. rewrite sorted_shapes_perm in Hs.
    by apply (proj1 (Forall_forall _ _) Hok).
Qed.

(** X13: each of the 25 transition frames of the animation (frames 5 to
    29) is an opaque RGB image of the configured size. *)
Theorem transition_frames_format self first final td shapes w frames w' :
  deref w (td_shapes td) shapes →
  video_frames self first final td w = Ok frames w' →
  ∀ k, (5 ≤ k < 30)%nat →
    ∃ img, frames !! k = Some img ∧
      im_mode img = RGB ∧ im_size img = image_size (config self) ∧
      ∀ i j, (im_px img i j).2 = 255.
Proof.
  intros Hd Hrun k Hk.
  destruct (video_frames_returned _ _ _ _ _ _ _ _ Hd Hrun)
    as (trans & segs & -> & Hlt & Hls & _ & _ & Htr).
  destruct (lookup_lt_is_Some_2 trans (k - 5)) as [img Himg]; [lia |].
  destruct (lookup_lt_is_Some_2 segs (k - 5)) as [ds Hds]; [lia |].
  destruct (Htr _ img ds Himg Hds) as [_ ->].
  eexists. split.
  - rewrite lookup_app_r; rewrite length_replicate; [|lia].
    rewrite lookup_app_l by lia. exact Himg.
  - repeat split; [by simpl; rewrite fold_composite_size |].
    intros i j. apply convert_RGB_opaque.
Qed.

(** ** Pixels a shape does not ink

    Both properties assume of Pillow that pasting under a mask value of 0
    leaves the destination channel as it is. *)

(** X14: a shape whose kind is none of circle, square and triangle is
    skipped by all three branches of [_draw_shape]: the call returns, is
    logged, and leaves every pixel of the image as it was. *)
Theorem unknown_type_draws_nothing img l s ox oy w :
  dicts w !! l = Some s →
  shape_type s ∉ shape_types →
  (∀ d c, blend 0 d c = d) →
  ∃ img',
    _draw_shape img l ox oy w
    = Ok img' (with_drawn (drawn w ++ [set_y (shape_y s + oy) (set_x (shape_x s + ox) s)]) w) ∧
    im_mode img' = im_mode img ∧ im_size img' = im_size img ∧
    ∀ i j, im_px img' i j = im_px img i j.
Proof.
  intros Hl Hty Hblend. eexists. split.
  - unfold _draw_shape, mbind, M_bind, dict_get. rewrite Hl. simpl. reflexivity.
  - repeat split. intros i j. unfold temp_layer.
    assert (Hne : ∀ t, t ∈ shape_types → String.eqb (shape_type s) t = false).
    { intros t Ht. apply String.eqb_neq. by intros <-. }
    rewrite !Hne by (unfold shape_types; repeat constructor).
    simpl. destruct (im_px img i j) as [[[r g] b] a]. simpl. by rewrite !Hblend.
Qed.



(** ** Geometry *)

(** X16: when every shape is at least 120 wide (min_shape_size >= 120),
    the bounding box [x - half, x + half] x [y - half, y + half] of every
    generated shape contains the centre of the canvas, so all shapes of a
    scene overlap there. *)
Theorem large_shapes_cover_centre self w td w' :
  _generate_task_data self w = Ok td w' →
  120 ≤ min_shape_size (config self) →
  let centre_x := (image_size (config self)).1 `div` 2 in
  let centre_y := (image_size (config self)).2 `div` 2 in
  ∀ l, l ∈ td_shapes td →
    ∃ s, dicts w' !! l = Some s ∧
      let half := shape_size s `div` 2 in
      shape_x s - half ≤ centre_x ≤ shape_x s + half ∧
      shape_y s - half ≤ centre_y ≤ shape_y s + half.
Proof.
  intros Hrun Hmin cx cy l [k Hk]%list_elem_of_lookup.
  pose proof (wp_returned _ _ _ _ _ _ (generate_spec self w) Hrun) as Hg.
  destruct Hg as (_ & _ & _ & _ & _ & _ & _ & palette & cs & copy & _ & _ & _ & _ & Hsh).
  destruct (Hsh k l Hk) as (_ & s & Hs & _ & _ & Hx & Hy & Hsz & _).
  exists s. split; [done |]. simpl.
  assert (60 ≤ shape_size s `div` 2) by (apply Z.div_le_lower_bound; lia).
  unfold cx, cy. lia.
Qed.


(** ** The empty scene *)




(** ** Prompts *)

Lemma get_prompt_run task_type w :
  ∃ p, p ∈ default_prompts ∧
    get_prompt task_type w = Ok p (with_rng (rng_below 3 (rng w)).2 w).
Proof.
  unfold get_prompt. rewrite prompts_get.
  unfold choice, default_prompts, mbind, M_bind, randbelow. simpl.
  change (Z.of_nat 3) with 3.
  pose proof (rng_below_range 3 (rng w) ltac:(lia)) as Hk.
  destruct (rng_below 3 (rng w)) as [k r]. simpl in *.
  assert (k = 0 ∨ k = 1 ∨ k = 2) as [-> | [-> | ->]] by lia;
    (eexists; split; [|reflexivity]); repeat constructor.
Qed.

(** The prompt drawn depends on the state of the random source alone. *)
Lemma get_prompt_rng task_type w w0 p w' :
  rng w0 = rng w →
  get_prompt task_type w = Ok p w' →
  ∃ w0', get_prompt task_type w0 = Ok p w0' ∧ rng w0' = rng w'.
Proof.
  intros Hrng. unfold get_prompt. rewrite prompts_get.
  unfold choice, default_prompts, mbind, M_bind, randbelow. simpl. rewrite Hrng.
  change (Z.of_nat 3) with 3.
  pose proof (rng_below_range 3 (rng w) ltac:(lia)) as Hk.
  destruct (rng_below 3 (rng w)) as [k r]. simpl in Hk.
  assert (k = 0 ∨ k = 1 ∨ k = 2) as [-> | [-> | ->]] by lia;
    simpl; intros [= <- <-]; by eexists.
Qed.

(** X19: for every task type, known or not, [get_all_prompts] is the list
    of the three default prompts, and [get_prompt] returns one of them
    without raising; it touches neither dictionaries nor lists and draws
    nothing. *)
Theorem get_prompt_fallback task_type w :
  get_all_prompts task_type = get_all_prompts "default" ∧
  length (get_all_prompts task_type) = 3%nat ∧
  ∃ p w',
    get_prompt task_type w = Ok p w' ∧ p ∈ get_all_prompts task_type ∧
    dicts w' = dicts w ∧ lists w' = lists w ∧ drawn w' = drawn w.
Proof.
  unfold get_all_prompts. rewrite !prompts_get. split; [done |]. split; [done |].
  destruct (get_prompt_run task_type w) as (p & Hp & Hrun).
  by eexists p, _.
Qed.

(** ** The video file *)

Lemma no_sep_split s : no_sep s = true → split_sep s = [s].
Proof.
  induction s as [|c s IH]; simpl; [done |].
  intros [Hc Hs]%andb_true_iff. apply negb_true_iff in Hc. by rewrite Hc, (IH Hs).
Qed.

Lemma no_sep_root s : no_sep s = true → splitroot s = EmptyString.
Proof.
  unfold splitroot. destruct s as [|c s]; simpl; [done |].
  intros [Hc _]%andb_true_iff. apply negb_true_iff in Hc. by rewrite Hc.
Qed.

Lemma no_sep_app a b : no_sep (a +:+ b) = no_sep a && no_sep b.
Proof. induction a as [|c a IH]; simpl; [done |]. by rewrite IH, andb_assoc. Qed.

Lemma string_length_app a b :
  String.length (a +:+ b) = (String.length a + String.length b)%nat.
Proof. induction a as [|c a IH]; simpl; [done | by rewrite IH]. Qed.

(** A segment without separator, of two characters or more, is one
    component. *)
Lemma components_segment a b :
  no_sep a = true → no_sep b = true → (2 ≤ String.length b)%nat →
  components (a +:+ b) = [a +:+ b] ∧ splitroot (a +:+ b) = EmptyString.
Proof.
  intros Ha Hb Hlen.
  assert (Hsep : no_sep (a +:+ b) = true) by by rewrite no_sep_app, Ha, Hb.
  split; [|by apply no_sep_root].
  unfold components. rewrite (no_sep_split _ Hsep).
  rewrite filter_cons_True; [done |].
  pose proof (string_length_app a b) as Hl.
  split; intros Heq; rewrite Heq in Hl; simpl in Hl; lia.
Qed.

Lemma joinpath_relative p segment :
  splitroot segment = EmptyString →
  joinpath p segment = mkPath (path_root p) (path_parts p ++ components segment).
Proof. intros Hroot. unfold joinpath, Path_of. simpl. by rewrite Hroot. Qed.

Lemma joinpath_absolute p rest :
  joinpath p (String "/" rest) = Path_of (String "/" rest).
Proof.
  unfold joinpath, Path_of, splitroot. simpl.
  by destruct (leading_seps rest) as [|[|[|n]]].
Qed.

Lemma generate_video_run self encoder first final tid td w frames w' :
  mkdir (temp_dir self) = None →
  video_frames self first final td w = Ok frames w' →
  _generate_video self encoder first final tid td w
  = Ok (let result := create_video_from_frames encoder frames (video_path self tid) in
        if truthy result then result else None) w'.
Proof.
  intros Hmk Hrun. unfold _generate_video, Path_mkdir, mbind, M_bind.
  fold (temp_dir self). rewrite Hmk. simpl. by rewrite Hrun.
Qed.

Lemma generate_video_returned self encoder first final tid td w v w' :
  _generate_video self encoder first final tid td w = Ok v w' →
  mkdir (temp_dir self) = None ∧
  ∃ frames,
    video_frames self first final td w = Ok frames w' ∧
    v = (let result := create_video_from_frames encoder frames (video_path self tid) in
         if truthy result then result else None).
Proof.
  unfold _generate_video, Path_mkdir, mbind, M_bind. fold (temp_dir self).
  destruct (mkdir (temp_dir self)) as [e|]; [done |]. simpl.
  destruct (video_frames self first final td w) as [frames w1 | e w1]; [|done].
  intros [= <- <-]. split; [done |]. by exists frames.
Qed.

(** X20: [_generate_video] first makes the directory
    [Path(gettempdir()) / "<domain>_videos"]: when [mkdir] raises, the call
    raises with it, before any frame is drawn.  What it returns is never an
    empty path: it is the path the encoder returned for the frame sequence
    and the path [directory / "<task_id>_ground_truth.mp4"] when that path
    is not empty, and None when the encoder returned None or an empty path.
    For a domain and a task id without "/" the file lies in that directory
    under the temporary directory; a task id that begins with "/" makes
    the path absolute, and the directory is dropped from it, as a domain
    that begins with "/" drops the temporary directory. *)
Theorem generate_video_result self encoder first final tid td w :
  (∀ e, mkdir (temp_dir self) = Some e →
     _generate_video self encoder first final tid td w = Raise e w) ∧
  (∀ v w', _generate_video self encoder first final tid td w = Ok v w' →
     mkdir (temp_dir self) = None ∧
     ∃ frames,
       video_frames self first final td w = Ok frames w' ∧
       match v with
       | Some p =>
           create_video_from_frames encoder frames (video_path self tid) = Some p ∧
           p ≠ EmptyString
       | None =>
           create_video_from_frames encoder frames (video_path self tid) = None ∨
           create_video_from_frames encoder frames (video_path self tid) = Some EmptyString
       end) ∧
  (no_sep (domain (config self)) = true → no_sep tid = true →
     temp_dir self
     = mkPath (splitroot gettempdir)
         (components gettempdir ++ [domain (config self) +:+ "_videos"]) ∧
     video_path self tid
     = mkPath (splitroot gettempdir)
         (components gettempdir
            ++ [domain (config self) +:+ "_videos"; tid +:+ "_ground_truth.mp4"])) ∧
  (∀ rest, tid = String "/" rest →
     video_path self tid = Path_of (tid +:+ "_ground_truth.mp4") ∧
     path_root (video_path self tid) ≠ EmptyString) ∧
  (∀ rest, domain (config self) = String "/" rest →
     temp_dir self = Path_of (domain (config self) +:+ "_videos")).
Proof.
  split; [|split; [|split; [|split]]].
  - intros e Hmk. unfold _generate_video, Path_mkdir, mbind, M_bind.
    fold (temp_dir self). by rewrite Hmk.
  - intros v w' Hrun.
    destruct (generate_video_returned _ _ _ _ _ _ _ _ _ Hrun) as (Hmk & frames & Hfr & ->).
    split; [done |]. exists frames. split; [done |]. simpl.
    destruct (create_video_from_frames encoder frames (video_path self tid)) as [[|c p]|];
      simpl; auto.
  - intros Hdom Htid.
    destruct (components_segment (domain (config self)) "_videos" Hdom eq_refl) as [Hc1 Hr1];
      [simpl; lia |].
    destruct (components_segment tid "_ground_truth.mp4" Htid eq_refl) as [Hc2 Hr2];
      [simpl; lia |].
    assert (Hdir : temp_dir self
                   = mkPath (splitroot gettempdir)
                       (components gettempdir ++ [domain (config self) +:+ "_videos"])).
    { unfold temp_dir. rewrite (joinpath_relative _ _ Hr1). simpl. by rewrite Hc1. }
    split; [done |].
    unfold video_path. rewrite Hdir, (joinpath_relative _ _ Hr2). simpl.
    by rewrite Hc2, <- app_assoc.
  - intros rest ->. unfold video_path.
    change (String "/" rest +:+ "_ground_truth.mp4")
      with (String "/" (rest +:+ "_ground_truth.mp4")).
    rewrite joinpath_absolute. split; [done |].
    unfold Path_of, splitroot. simpl.
    by destruct (leading_seps (rest +:+ "_ground_truth.mp4")) as [|[|[|n]]].
  - intros rest Hdom. unfold temp_dir. rewrite Hdom.
    change (String "/" rest +:+ "_videos") with (String "/" (rest +:+ "_videos")).
    apply joinpath_absolute.
Qed.

Lemma frame_shapes_length size shapes k ds :
  frame_shapes size shapes k ds → length ds = length shapes.
Proof.
  intros (p & _ & Hall). apply Forall2_length in Hall.
  by rewrite <- Hall, enumerate_length, sorted_shapes_length.
Qed.

Lemma concat_length_const {A} (ls : list (list A)) n :
  Forall (λ l, length l = n) ls → length (concat ls) = (length ls * n)%nat.
Proof.
  induction 1 as [|l ls Hl Hls IH]; simpl; [done |]. rewrite length_app, IH, Hl. lia.
Qed.

(** The drawings of the animation, frame by frame. *)
Lemma video_segments self first final td shapes w frames w' :
  deref w (td_shapes td) shapes →
  video_frames self first final td w = Ok frames w' →
  ∃ segs,
    drawn w' = drawn w ++ concat segs ∧ length segs = 25%nat ∧
    Forall (λ ds, length ds = length shapes) segs ∧
    rng w' = rng w ∧ lists w' = lists w ∧ dicts w ⊆ dicts w'.
Proof.
  intros Hd Hrun.
  apply (wp_returned (video_frames self first final td)
    (λ _ w', ∃ segs,
       drawn w' = drawn w ++ concat segs ∧ length segs = 25%nat ∧
       Forall (λ ds, length ds = length shapes) segs ∧
       rng w' = rng w ∧ lists w' = lists w ∧ dicts w ⊆ dicts w')
    (λ _ _, True) w frames w'); [|exact Hrun].
  apply (wp_video_frames self first final td shapes); [done | | done].
  intros trans segs w1 Hsub Hli Hrng Hdr Hlt Hls Htr.
  exists segs. repeat split; try done.
  apply Forall_forall. intros ds [k Hk]%list_elem_of_lookup.
  destruct (lookup_lt_is_Some_2 trans k) as [img Himg];
    [apply lookup_lt_Some in Hk; lia |].
  destruct (Htr k img ds Himg Hk) as [Hfs _]. by eapply frame_shapes_length.
Qed.

(** X21: the synthesis of the animation calls [_draw_shape] 25 times per
    shape, draws nothing from the random source, leaves the colour lists
    alone and keeps every dictionary that existed. *)
Theorem video_draw_count self first final td shapes w frames w' :
  deref w (td_shapes td) shapes →
  video_frames self first final td w = Ok frames w' →
  length (drawn w') = (length (drawn w) + 25 * length shapes)%nat ∧
  rng w' = rng w ∧ lists w' = lists w ∧ dicts w ⊆ dicts w'.
Proof.
  intros Hd Hrun.
  destruct (video_segments _ _ _ _ _ _ _ _ Hd Hrun)
    as (segs & Hdr & Hls & Hall & Hrng & Hli & Hsub).
  repeat split; try done.
  rewrite Hdr, length_app. f_equal.
  by rewrite (concat_length_const segs (length shapes)), Hls.
Qed.

(** ** Anatomy of a task pair *)

Lemma task_pair_returned self tid w tp w' :
  generate_task_pair self tid w = Ok tp w' →
  ∃ td w1 w2 w3 w4,
    _generate_task_data self w = Ok td w1 ∧
    _render_overlapping self td w1 = Ok (first_image tp) w2 ∧
    _render_separated self td w2 = Ok (final_image tp) w3 ∧
    (if generate_videos (config self) then
       match video_generator self with
       | Some encoder =>
           _generate_video self encoder (first_image tp) (final_image tp) tid td w3
           = Ok (ground_truth_video tp) w4
       | None => ground_truth_video tp = None ∧ w4 = w3
       end
     else ground_truth_video tp = None ∧ w4 = w3) ∧
    get_prompt (td_type td) w4 = Ok (prompt tp) w' ∧
    task_id tp = tid ∧ tp_domain tp = domain (config self).
Proof.
  unfold generate_task_pair, _render_initial_state, _render_final_state, mbind, M_bind.
  destruct (_generate_task_data self w) as [td w1 | ] eqn:Hgen; [|done].
  destruct (_render_overlapping self td w1) as [first w2 | ] eqn:Hover; [|done].
  destruct (_render_separated self td w2) as [final w3 | ] eqn:Hsep; [|done].
  destruct (generate_videos (config self)) eqn:Hgv.
  - destruct (video_generator self) as [encoder|] eqn:Hvg.
    + destruct (_generate_video self encoder first final tid td w3) as [v w4 | ] eqn:Hvid; [|done].
      destruct (get_prompt (td_type td) w4) as [p w5 | ] eqn:Hp; [|done].
      intros [= <- <-]. simpl. by exists td, w1, w2, w3, w4.
    + unfold mret, M_ret.
      destruct (get_prompt (td_type td) w3) as [p w5 | ] eqn:Hp; [|done].
      intros [= <- <-]. simpl. by exists td, w1, w2, w3, w3.
  - unfold mret, M_ret.
    destruct (get_prompt (td_type td) w3) as [p w5 | ] eqn:Hp; [|done].
    intros [= <- <-]. simpl. by exists td, w1, w2, w3, w3.
Qed.

Lemma generate_video_not_empty self encoder first final tid td w v w' :
  _generate_video self encoder first final tid td w = Ok v w' →
  v ≠ Some EmptyString ∧ ∃ frames, video_frames self first final td w = Ok frames w'.
Proof.
  intros Hrun.
  destruct (generate_video_returned _ _ _ _ _ _ _ _ _ Hrun) as (_ & frames & Hfr & ->).
  split; [|by exists frames]. simpl.
  by destruct (create_video_from_frames _ _ _) as [[|c p]|].
Qed.

(** X22: every task pair [generate_task_pair] returns carries the task id
    it was given, the domain of the configuration and one of the three
    default prompts; its images are the two renders of the scene it
    generated; its video is never an empty path, and is present only if
    videos are enabled and the generator holds an encoder. *)
Theorem task_pair_fields self tid w tp w' :
  generate_task_pair self tid w = Ok tp w' →
  task_id tp = tid ∧ tp_domain tp = domain (config self) ∧
  prompt tp ∈ default_prompts ∧
  ground_truth_video tp ≠ Some EmptyString ∧
  (ground_truth_video tp ≠ None →
   generate_videos (config self) = true ∧ video_generator self ≠ None) ∧
  ∃ td w1 w2 w3,
    _generate_task_data self w = Ok td w1 ∧
    _render_overlapping self td w1 = Ok (first_image tp) w2 ∧
    _render_separated self td w2 = Ok (final_image tp) w3.
Proof.
  intros Hrun.
  destruct (task_pair_returned _ _ _ _ _ Hrun)
    as (td & w1 & w2 & w3 & w4 & Hgen & Hover & Hsep & Hvid & Hp & Hid & Hdom).
  split; [done |]. split; [done |]. split; [|split; [|split]].
  - destruct (get_prompt_run (td_type td) w4) as (p & Hin & Hrun'). congruence.
  - destruct (generate_videos (config self)); [|by destruct Hvid as [-> _]].
    destruct (video_generator self) as [encoder|]; [|by destruct Hvid as [-> _]].
    by destruct (generate_video_not_empty _ _ _ _ _ _ _ _ _ Hvid).
  - intros Hv. destruct (generate_videos (config self)); [|by destruct Hvid].
    destruct (video_generator self); [done | by destruct Hvid].
  - by exists td, w1, w2, w3.
Qed.

(** X23: rendering and video synthesis consume no randomness: after a
    task pair is generated, the random source is in the state it would be
    in after generating the scene and choosing the prompt alone, and the
    prompt is the one that would have been chosen then. *)
Theorem task_pair_randomness self tid w tp w' :
  generate_task_pair self tid w = Ok tp w' →
  ∃ td w1 w1',
    _generate_task_data self w = Ok td w1 ∧
    get_prompt (td_type td) w1 = Ok (prompt tp) w1' ∧
    rng w' = rng w1' ∧ lists w' = lists w1.
Proof.
  intros Hrun.
  destruct (task_pair_returned _ _ _ _ _ Hrun)
    as (td & w1 & w2 & w3 & w4 & Hgen & Hover & Hsep & Hvid & Hp & _).
  pose proof (wp_returned _ _ _ _ _ _ (generate_spec self w) Hgen) as Hg.
  destruct (generated_deref _ _ _ _ Hg) as (shapes & Hd1 & _).
  rewrite (render_overlapping_returns self td shapes w1 Hd1) in Hover.
  injection Hover as _ <-.
  set (w2 := with_drawn (drawn w1 ++ sorted_shapes false shapes) w1) in *.
  destruct (render_separated_returns self td shapes w2 Hd1)
    as (final & w3' & Hsep' & Hsub3 & Hli3 & Hrng3 & _).
  rewrite Hsep in Hsep'. injection Hsep' as _ <-.
  assert (Hd3 : deref w3 (td_shapes td) shapes) by by eapply deref_weaken.
  assert (Hrng31 : rng w3 = rng w1) by by rewrite Hrng3.
  assert (Hli31 : lists w3 = lists w1) by by rewrite Hli3.
  assert (H4 : rng w4 = rng w1 ∧ lists w4 = lists w1).
  { destruct (generate_videos (config self)); [|by destruct Hvid as [_ ->]].
    destruct (video_generator self) as [encoder|]; [|by destruct Hvid as [_ ->]].
    destruct (generate_video_not_empty _ _ _ _ _ _ _ _ _ Hvid) as (_ & frames & Hfr).
    destruct (video_segments _ _ _ _ _ _ _ _ Hd3 Hfr) as (segs & _ & _ & _ & ? & ? & _).
    split; congruence. }
  destruct H4 as [Hrng4 Hli4].
  destruct (get_prompt_rng (td_type td) w4 w1 _ _ (eq_sym Hrng4) Hp) as (w1' & Hrun1 & Hrng1).
  assert (Hli' : lists w' = lists w4).
  { destruct (get_prompt_run (td_type td) w4) as (q & _ & Hq).
    rewrite Hp in Hq. by injection Hq as _ ->. }
  exists td, w1, w1'. repeat split; [done | done | done | congruence].
Qed.

Lemma generated_small self w td w' :
  generated self w td w' →
  0 ≤ (image_size (config self)).1 < 2 ^ 52 →
  0 ≤ (image_size (config self)).2 < 2 ^ 52 →
  ∃ shapes, deref w' (td_shapes td) shapes ∧
    Forall (λ s, small (shape_x s) ∧ small (shape_y s)) shapes.
Proof.
  intros Hg Hw Hh. destruct (generated_deref _ _ _ _ Hg) as (shapes & Hd & Hnear).
  exists shapes. split; [done |].
  eapply Forall_impl; [exact Hnear |]. intros s [Hx Hy]. simpl in Hx, Hy. unfold small.
  assert (0 ≤ (image_size (config self)).1 `div` 2 ≤ (image_size (config self)).1)
    by (split; [apply Z.div_pos; lia | apply Z.div_le_upper_bound; lia]).
  assert (0 ≤ (image_size (config self)).2 `div` 2 ≤ (image_size (config self)).2)
    by (split; [apply Z.div_pos; lia | apply Z.div_le_upper_bound; lia]).
  assert (2 * ((image_size (config self)).1 `div` 2) ≤ (image_size (config self)).1)
    by (apply Z.mul_div_le; lia).
  assert (2 * ((image_size (config self)).2 `div` 2) ≤ (image_size (config self)).2)
    by (apply Z.mul_div_le; lia).
  lia.
Qed.

(** ** The default configuration *)

Lemma default_colours_NoDup : NoDup default_shape_colors.
Proof. apply (bool_decide_unpack _). vm_compute. exact I. Qed.

(** X25: with the defaults of [TaskConfig] (and the default palette in the
    store) scene generation always returns; the scene has 3 to 5 shapes of
    pairwise different colours, each semi-transparent (alpha 180), 80 to
    150 wide and centred between 196 and 316 on both axes. *)
Theorem default_config_scene palette w :
  lists w !! palette = Some default_shape_colors →
  let self := TaskGenerator_init (default_config palette) in
  ∃ td w' shapes,
    _generate_task_data self w = Ok td w' ∧
    deref w' (td_shapes td) shapes ∧
    3 ≤ td_num_shapes td ≤ 5 ∧ length shapes = Z.to_nat (td_num_shapes td) ∧
    NoDup (shape_color <$> shapes) ∧
    Forall (λ s, 196 ≤ shape_x s ≤ 316 ∧ 196 ≤ shape_y s ≤ 316 ∧
                 80 ≤ shape_size s ≤ 150 ∧ (shape_color s).2 = 180) shapes.
Proof.
  intros Hp self.
  destruct (generate_returns self w default_shape_colors) as (td & w' & Hrun & Hg);
    [simpl; lia | simpl; lia | done | done |].
  destruct (generated_palette _ _ _ _ _ Hg Hp) as (cs & shapes & Hperm & Hd & Hcol).
  destruct Hg as (_ & _ & _ & _ & Hnum & Hlen & _ & palette' & cs' & copy & _ & _ & _ & _ & Hsh).
  simpl in Hnum.
  assert (Hlen' : length shapes = Z.to_nat (td_num_shapes td))
    by by rewrite (deref_length _ _ _ Hd).
  exists td, w', shapes. repeat split; try done; try lia.
  - apply (cycled_colours_NoDup cs); [| |done].
    + rewrite Hperm. apply default_colours_NoDup.
    + rewrite (Permutation_length Hperm). simpl. lia.
  - apply Forall_forall. intros s [k Hk]%list_elem_of_lookup.
    destruct (lookup_lt_is_Some_2 (td_shapes td) k) as [l Hl].
    { rewrite <- (deref_length _ _ _ Hd). by eapply lookup_lt_Some. }
    destruct (Hsh k l Hl) as (_ & s' & Hs' & _ & _ & Hx & Hy & Hsz & _).
    destruct (deref_lookup _ _ _ _ _ Hd Hl) as (s'' & Hs'' & Hls).
    assert (s' = s) as -> by congruence.
    simpl in Hx, Hy, Hsz. change (512 `div` 2) with 256 in Hx, Hy.
    repeat split; try lia.
    assert (Hin : shape_color s ∈ default_shape_colors).
    { rewrite <- Hperm. by eapply list_elem_of_lookup_2, Hcol. }
    unfold default_shape_colors in Hin.
    rewrite !elem_of_cons, elem_of_nil in Hin.
    repeat destruct Hin as [Hin | Hin]; try done; by rewrite Hin.
Qed.

(** ** The motion stays between its two ends

    Rounding to nearest keeps a value between two integers below 2^53 that
    enclose it: they are floats themselves. *)

Lemma shr_iter_exact n mrs :
  shr_r mrs = false → shr_s mrs = false → 0 ≤ shr_m mrs →
  shr_m mrs `mod` 2 ^ Z.of_nat n = 0 →
  shr_r (Nat.iter n shr_1 mrs) = false ∧ shr_s (Nat.iter n shr_1 mrs) = false.
Proof.
  intros Hr Hs Hm. induction n as [|n IH]; intros Hmod; [done |].
  assert (Hpow : 2 ^ Z.of_nat (S n) = 2 ^ Z.of_nat n * 2)
    by (rewrite Nat2Z.inj_succ, Z.pow_succ_r; lia).
  assert (Hpos : 0 < 2 ^ Z.of_nat n) by (apply Z.pow_pos_nonneg; lia).
  assert (Hmod' : shr_m mrs `mod` 2 ^ Z.of_nat n = 0).
  { rewrite Hpow in Hmod. rewrite Z.rem_mul_r in Hmod by lia.
    pose proof (Z.mod_pos_bound (shr_m mrs) (2 ^ Z.of_nat n) Hpos).
    pose proof (Z.mod_pos_bound (shr_m mrs `div` 2 ^ Z.of_nat n) 2 ltac:(lia)). nia. }
  destruct (IH Hmod') as [Hr' Hs'].
  assert (Heven : (shr_m mrs `div` 2 ^ Z.of_nat n) `mod` 2 = 0).
  { rewrite Hpow in Hmod. rewrite Z.rem_mul_r in Hmod by lia.
    pose proof (Z.mod_pos_bound (shr_m mrs `div` 2 ^ Z.of_nat n) 2 ltac:(lia)). nia. }
  pose proof (shr_iter_m n mrs Hm) as Hm'.
  change (Nat.iter (S n) shr_1 mrs) with (shr_1 (Nat.iter n shr_1 mrs)).
  destruct (Nat.iter n shr_1 mrs) as [m' r' s']. simpl in *. subst r' s'.
  rewrite <- Hm' in Heven.
  destruct m' as [|[p|p|]|p]; simpl; try done; exfalso.
  - rewrite Pos2Z.inj_xI in Heven. rewrite Z.add_comm, Z.mul_comm, Z.mod_add in Heven by lia.
    done.
  - pose proof (Z.div_pos (shr_m mrs) (2 ^ Z.of_nat n) Hm Hpos). lia.
Qed.

Lemma shr_fexp_exact m e :
  0 ≤ m →
  m `mod` 2 ^ Z.max 0 (fexp prec emax (Zdigits2 m + e) - e) = 0 →
  loc_of_shr_record (shr_fexp prec emax m e loc_Exact).1 = loc_Exact.
Proof.
  intros Hm Hmod. unfold shr_fexp, shr. simpl shr_record_of_loc.
  destruct (fexp prec emax (Zdigits2 m + e) - e) as [|p|p]; [done | | done].
  rewrite iter_pos_nat. simpl fst.
  destruct (shr_iter_exact (Pos.to_nat p) (Build_shr_record m false false)) as [Hr Hs];
    try done.
  { simpl. rewrite positive_nat_Z. by rewrite Z.max_r in Hmod by lia. }
  by destruct (Nat.iter _ _ _) as [m' [] []].
Qed.


Lemma pow_split a b : 0 ≤ a → 0 ≤ b → 2 ^ (a + b) = 2 ^ a * 2 ^ b.
Proof. intros. by rewrite Z.pow_add_r. Qed.

Lemma digits_below m x : 0 ≤ m < 2 ^ x → 0 ≤ x → Zdigits2 m ≤ x.
Proof. apply Zdigits2_le. Qed.

(** Rounding a positive magnitude [m * 2^e] that lies between the
    integers [lo] and [hi] (below 2^53) gives a magnitude between them. *)
Lemma round_aux_between s m e lo hi :
  0 < m → e ≤ 0 → 0 ≤ lo → hi < 2 ^ 53 →
  lo * 2 ^ (- e) ≤ m ≤ hi * 2 ^ (- e) →
  match binary_round_aux prec emax s m e loc_Exact with
  | S754_zero s' => s' = s ∧ lo ≤ 0
  | S754_finite s' m' e' =>
      s' = s ∧ e' ≤ 0 ∧ lo * 2 ^ (- e') ≤ Z.pos m' ≤ hi * 2 ^ (- e')
  | _ => False
  end.
Proof.
  intros Hm He Hlo Hhi [Hl Hh]. unfold binary_round_aux.
  pose proof (shr_fexp_exact m e ltac:(lia)) as Hexact.
  destruct (shr_fexp_spec m e loc_Exact ltac:(lia)) as [Hm1 He1].
  destruct (shr_fexp prec emax m e loc_Exact) as [mrs1 e1]. simpl in Hm1, He1, Hexact.
  set (n1 := Z.max 0 (fexp prec emax (Zdigits2 m + e) - e)) in *.
  assert (Hf1 : fexp prec emax (Zdigits2 m + e) = Z.max (Zdigits2 m + e - 53) (-1074)) by done.
  assert (Hpe : 0 < 2 ^ (- e)) by (apply Z.pow_pos_nonneg; lia).
  assert (Hd : Zdigits2 m ≤ 53 - e).
  { apply Zdigits2_le; [|lia]. split; [lia |].
    replace (53 - e) with (53 + - e) by lia. rewrite (pow_split 53 (- e)) by lia. nia. }
  assert (Hn1 : 0 ≤ n1 ∧ e1 ≤ 0) by lia.
  assert (Hp1 : 0 < 2 ^ n1) by (apply Z.pow_pos_nonneg; lia).
  assert (Hpe1 : 0 < 2 ^ (- e1)) by (apply Z.pow_pos_nonneg; lia).
  assert (Hsplit1 : 2 ^ (- e) = 2 ^ (- e1) * 2 ^ n1).
  { rewrite <- pow_split by lia. f_equal. lia. }
  assert (Hlow1 : lo * 2 ^ (- e1) ≤ m `div` 2 ^ n1).
  { apply Z.div_le_lower_bound; [lia |]. nia. }
  assert (Hup1 : m `div` 2 ^ n1 ≤ hi * 2 ^ (- e1)).
  { apply Z.div_le_upper_bound; [lia |]. nia. }
  pose proof (round_nearest_even_bounds (shr_m mrs1) (loc_of_shr_record mrs1)) as Hr.
  set (m1 := round_nearest_even (shr_m mrs1) (loc_of_shr_record mrs1)) in *.
  assert (Hm1b : lo * 2 ^ (- e1) ≤ m1 ≤ hi * 2 ^ (- e1)).
  { split; [lia |].
    destruct (Z.eq_dec (m `mod` 2 ^ n1) 0) as [Hz | Hnz].
    - unfold m1. rewrite (Hexact Hz). simpl. lia.
    - assert (m `div` 2 ^ n1 < hi * 2 ^ (- e1)); [|lia].
      apply Z.div_lt_upper_bound; [lia |].
      destruct (Z.eq_dec m (2 ^ n1 * (hi * 2 ^ (- e1)))) as [Heq | Hne]; [|nia].
      exfalso. apply Hnz. rewrite Heq, Z.mul_comm. apply Z.mod_mul. lia. }
  assert (H0m1 : 0 ≤ m1) by nia.
  destruct (shr_fexp_spec m1 e1 loc_Exact H0m1) as [Hm2 He2].
  destruct (shr_fexp prec emax m1 e1 loc_Exact) as [mrs2 e2]. simpl in Hm2, He2.
  set (n2 := Z.max 0 (fexp prec emax (Zdigits2 m1 + e1) - e1)) in *.
  assert (Hf2 : fexp prec emax (Zdigits2 m1 + e1) = Z.max (Zdigits2 m1 + e1 - 53) (-1074))
    by done.
  assert (Hd1 : Zdigits2 m1 ≤ 53 - e1).
  { apply Zdigits2_le; [|lia]. split; [lia |].
    replace (53 - e1) with (53 + - e1) by lia. rewrite (pow_split 53 (- e1)) by lia. nia. }
  assert (Hn2 : 0 ≤ n2 ∧ e2 ≤ 0) by lia.
  assert (Hp2 : 0 < 2 ^ n2) by (apply Z.pow_pos_nonneg; lia).
  assert (Hpe2 : 0 < 2 ^ (- e2)) by (apply Z.pow_pos_nonneg; lia).
  assert (Hsplit2 : 2 ^ (- e1) = 2 ^ (- e2) * 2 ^ n2).
  { rewrite <- pow_split by lia. f_equal. lia. }
  assert (Hlow2 : lo * 2 ^ (- e2) ≤ m1 `div` 2 ^ n2).
  { apply Z.div_le_lower_bound; [lia |]. nia. }
  assert (Hup2 : m1 `div` 2 ^ n2 ≤ hi * 2 ^ (- e2)).
  { apply Z.div_le_upper_bound; [lia |]. nia. }
  rewrite <- Hm2 in Hlow2, Hup2.
  destruct (shr_m mrs2) as [|m2|m2] eqn:Hm2'.
  - split; [done | nia].
  - replace (e2 <=? emax - prec) with true
      by (symmetry; apply Z.leb_le; unfold emax, prec; lia).
    repeat split; [lia | done | done].
  - pose proof (Z.div_pos m1 (2 ^ n2) H0m1 Hp2). lia.
Qed.


Lemma round_between s m e lo hi :
  e ≤ 0 → 0 ≤ lo → hi < 2 ^ 53 →
  lo * 2 ^ (- e) ≤ Z.pos m ≤ hi * 2 ^ (- e) →
  match binary_round prec emax s m e with
  | S754_zero s' => s' = s ∧ lo ≤ 0
  | S754_finite s' m' e' =>
      s' = s ∧ e' ≤ 0 ∧ lo * 2 ^ (- e') ≤ Z.pos m' ≤ hi * 2 ^ (- e')
  | _ => False
  end.
Proof.
  intros He Hlo Hhi Hb. unfold binary_round, shl_align.
  destruct (fexp prec emax (Z.pos (digits2_pos m) + e) - e) as [|j|j] eqn:Hj.
  - by apply round_aux_between.
  - by apply round_aux_between.
  - rewrite pos_iter_shl.
    assert (He' : fexp prec emax (Z.pos (digits2_pos m) + e) = e - Z.pos j) by lia.
    rewrite He'.
    assert (Hsplit : 2 ^ (- (e - Z.pos j)) = 2 ^ (- e) * 2 ^ Z.pos j).
    { rewrite <- pow_split by lia. f_equal. lia. }
    assert (Hpj : 0 < 2 ^ Z.pos j) by (apply Z.pow_pos_nonneg; lia).
    apply round_aux_between; try lia.
    rewrite shl_Z, positive_nat_Z, Hsplit. nia.
Qed.

Lemma fbetween_mono lo hi lo' hi' f :
  lo' ≤ lo → hi ≤ hi' → fbetween lo hi f → fbetween lo' hi' f.
Proof.
  intros Hl Hh. destruct f as [| | |s m e]; simpl; try done; [lia |].
  intros (He & Hb). split; [done |].
  assert (0 < 2 ^ (- e)) by (apply Z.pow_pos_nonneg; lia). nia.
Qed.

Lemma canon_between n : Z.abs n < 2 ^ 53 → fbetween n n (canon n).
Proof.
  intros Hn. destruct n as [|p|p]; simpl; [done | |].
  - pose proof (digits_bound p ltac:(lia)) as Hd.
    split; [lia |]. rewrite shl_Z, Z2Nat.id by lia.
    replace (- (Z.pos (digits2_pos p) - 53)) with (53 - Z.pos (digits2_pos p)) by lia. lia.
  - pose proof (digits_bound p ltac:(lia)) as Hd.
    split; [lia |]. rewrite shl_Z, Z2Nat.id by lia.
    replace (- (Z.pos (digits2_pos p) - 53)) with (53 - Z.pos (digits2_pos p)) by lia. lia.
Qed.

(** The product of an integer [d] with a float in the unit interval lies
    between 0 and [d]. *)
Lemma fmul_between d p :
  Z.abs d < 2 ^ 53 → unit_float p →
  fbetween (Z.min 0 d) (Z.max 0 d) (fmul (canon d) p).
Proof.
  intros Hd Hp. pose proof (canon_between d Hd) as Hc.
  destruct (canon d) as [sd| | |sd md ed] eqn:Hcd; try done.
  - destruct p as [sp| | |[] mp ep]; try done; simpl; lia.
  - destruct p as [sp| | |[] mp ep]; try done; [simpl; lia |].
    simpl in Hc, Hp. destruct Hc as (Hed & Hmd), Hp as (Hep & Hmp).
    unfold fmul, SFmul.
    assert (Hped : 0 < 2 ^ (- ed)) by (apply Z.pow_pos_nonneg; lia).
    assert (Hpep : 0 < 2 ^ (- ep)) by (apply Z.pow_pos_nonneg; lia).
    assert (Hsplit : 2 ^ (- (ed + ep)) = 2 ^ (- ed) * 2 ^ (- ep)).
    { rewrite <- pow_split by lia. f_equal. lia. }
    pose proof (round_aux_between (xorb sd false) (Z.pos (md * mp)) (ed + ep) 0 (Z.abs d)
      ltac:(lia) ltac:(lia) ltac:(lia) Hd) as Hr.
    destruct (binary_round_aux prec emax (xorb sd false) (Z.pos (md * mp)) (ed + ep) loc_Exact)
      as [s'| | |s' m' e'] eqn:Hrd.
    + simpl. lia.
    + apply Hr. rewrite Hsplit, Pos2Z.inj_mul. destruct sd; simpl in Hmd; nia.
    + apply Hr. rewrite Hsplit, Pos2Z.inj_mul. destruct sd; simpl in Hmd; nia.
    + destruct Hr as (-> & He' & Hb').
      { rewrite Hsplit, Pos2Z.inj_mul. destruct sd; simpl in Hmd; nia. }
      simpl. split; [done |].
      assert (0 < 2 ^ (- e')) by (apply Z.pow_pos_nonneg; lia).
      destruct sd; simpl in *; nia.
Qed.


Lemma cond_Zopp_mul s m k : cond_Zopp s (m * k) = cond_Zopp s m * k.
Proof. destruct s; simpl; lia. Qed.

Lemma normalize_between S ez lo hi :
  ez ≤ 0 → - 2 ^ 53 < lo → hi < 2 ^ 53 →
  lo * 2 ^ (- ez) ≤ S ≤ hi * 2 ^ (- ez) →
  fbetween lo hi (binary_normalize prec emax S ez false).
Proof.
  intros Hez Hlo Hhi [Hl Hh].
  assert (Hp : 0 < 2 ^ (- ez)) by (apply Z.pow_pos_nonneg; lia).
  destruct S as [|q|q]; simpl.
  - nia.
  - pose proof (round_between false q ez (Z.max 0 lo) hi Hez ltac:(lia) Hhi) as Hr.
    destruct (binary_round prec emax false q ez) as [s'| | |s' m' e'].
    + destruct Hr as [_ Hr]; [nia |]. simpl. nia.
    + apply Hr. nia.
    + apply Hr. nia.
    + destruct Hr as (-> & He' & Hb'); [nia |]. simpl. split; [done |].
      assert (0 < 2 ^ (- e')) by (apply Z.pow_pos_nonneg; lia). nia.
  - pose proof (round_between true q ez (Z.max 0 (- hi)) (- lo) Hez ltac:(lia) ltac:(lia)) as Hr.
    destruct (binary_round prec emax true q ez) as [s'| | |s' m' e'].
    + destruct Hr as [_ Hr]; [nia |]. simpl. nia.
    + apply Hr. nia.
    + apply Hr. nia.
    + destruct Hr as (-> & He' & Hb'); [nia |]. simpl. split; [done |].
      assert (0 < 2 ^ (- e')) by (apply Z.pow_pos_nonneg; lia). nia.
Qed.

(** Adding an integer [a] to a float between [lo] and [hi] gives a float
    between [a + lo] and [a + hi]. *)
Lemma fadd_between a lo hi y :
  Z.abs a < 2 ^ 53 → fbetween lo hi y →
  - 2 ^ 53 < a + lo → a + hi < 2 ^ 53 →
  fbetween (a + lo) (a + hi) (fadd (canon a) y).
Proof.
  intros Ha Hy Hlo Hhi. pose proof (canon_between a Ha) as Hc.
  destruct (canon a) as [sa| | |sa ma ea] eqn:Hca; try done.
  - assert (a = 0) as -> by (by destruct a).
    destruct y as [sy| | |sy my ey].
    + simpl in Hy. unfold fadd, SFadd. destruct sa, sy; simpl; lia.
    + done.
    + done.
    + by rewrite !Z.add_0_l.
  - destruct y as [sy| | |sy my ey].
    + simpl in Hy. unfold fadd, SFadd. eapply fbetween_mono; [| |exact Hc]; lia.
    + done.
    + done.
    + simpl in Hc, Hy. destruct Hc as (Hea & Hma), Hy as (Hey & Hmy).
      unfold fadd, SFadd.
      set (ez := Z.min ea ey).
      rewrite !shl_align_min by lia.
      assert (Hpa : 0 < 2 ^ (- ea)) by (apply Z.pow_pos_nonneg; lia).
      assert (Hpy : 0 < 2 ^ (- ey)) by (apply Z.pow_pos_nonneg; lia).
      assert (Hpaz : 0 < 2 ^ (ea - ez)) by (apply Z.pow_pos_nonneg; lia).
      assert (Hpyz : 0 < 2 ^ (ey - ez)) by (apply Z.pow_pos_nonneg; lia).
      assert (Hsa : 2 ^ (- ez) = 2 ^ (- ea) * 2 ^ (ea - ez)).
      { rewrite <- pow_split by lia. f_equal. lia. }
      assert (Hsy : 2 ^ (- ez) = 2 ^ (- ey) * 2 ^ (ey - ez)).
      { rewrite <- pow_split by lia. f_equal. lia. }
      apply normalize_between; [lia | done | done |].
      rewrite !shl_Z, !Z2Nat.id, !cond_Zopp_mul by lia.
      assert (HA : cond_Zopp sa (Z.pos ma) * 2 ^ (ea - ez) = a * 2 ^ (- ez)) by (rewrite Hsa; nia).
      rewrite HA.
      assert (HY : lo * 2 ^ (- ez) ≤ cond_Zopp sy (Z.pos my) * 2 ^ (ey - ez) ≤ hi * 2 ^ (- ez))
        by (rewrite Hsy; nia).
      lia.
Qed.

Lemma int_of_float_between lo hi f :
  fbetween lo hi f → ∃ n, int_of_float f = Value n ∧ lo ≤ n ≤ hi.
Proof.
  destruct f as [s| | |s m e]; simpl; try done.
  - intros H. by exists 0.
  - intros (He & Hb). eexists. split; [reflexivity |].
    destruct e as [|p|p]; [| lia |].
    + simpl in Hb. lia.
    + change (- Z.neg p) with (Z.pos p) in Hb.
      assert (Hp : 0 < 2 ^ Z.pos p) by (apply Z.pow_pos_nonneg; lia).
      destruct s; simpl in *.
      * assert (- hi ≤ Z.pos m `div` 2 ^ Z.pos p) by (apply Z.div_le_lower_bound; lia).
        assert (Z.pos m `div` 2 ^ Z.pos p ≤ - lo) by (apply Z.div_le_upper_bound; lia).
        lia.
      * assert (lo ≤ Z.pos m `div` 2 ^ Z.pos p) by (apply Z.div_le_lower_bound; lia).
        assert (Z.pos m `div` 2 ^ Z.pos p ≤ hi) by (apply Z.div_le_upper_bound; lia).
        lia.
Qed.

(** An interpolated coordinate lies between its two ends. *)
Lemma interpolate_between a b p :
  Z.abs a < 2 ^ 52 → Z.abs b < 2 ^ 52 → unit_float p →
  ∃ f n, interpolate a b p = Value f ∧ int_of_float f = Value n ∧
         Z.min a b ≤ n ≤ Z.max a b.
Proof.
  intros Ha Hb Hp. unfold interpolate.
  assert (Hd : Z.abs (b - a) < 2 ^ 53) by lia.
  rewrite !float_of_int_exact by lia.
  unfold mbind, Outcome_bind, mret, Outcome_ret.
  pose proof (fmul_between (b - a) p Hd Hp) as Hm.
  pose proof (fadd_between a _ _ _ ltac:(lia) Hm ltac:(lia) ltac:(lia)) as Hs.
  destruct (int_of_float_between _ _ _ Hs) as (n & Hn & Hb').
  eexists _, n. split; [done |]. split; [done |]. lia.
Qed.


Lemma eased_progress_unit k :
  0 ≤ k < animation_frames → ∃ p, eased_progress k = Value p ∧ unit_float p.
Proof.
  intros Hk.
  assert (H : progress_unit k = true) by by apply (range_forallb _ animation_frames).
  unfold progress_unit in H. destruct (eased_progress k) as [[| | |[] m e]|]; try done.
  - eexists. by split.
  - apply andb_true_iff in H as [?%Z.leb_le ?%Z.leb_le]. eexists. by split.
Qed.

Lemma moved_between p s t d :
  unit_float p →
  small (shape_x s) → small (shape_y s) → small t.1 → small t.2 →
  moved p s t = Value d →
  Z.min (shape_x s) t.1 ≤ shape_x d ≤ Z.max (shape_x s) t.1 ∧
  Z.min (shape_y s) t.2 ≤ shape_y d ≤ Z.max (shape_y s) t.2 ∧
  shape_size d = shape_size s ∧ shape_type d = shape_type s ∧
  shape_color d = shape_color s ∧ shape_layer d = shape_layer s.
Proof.
  unfold small. intros Hp Hx Hy Htx Hty. unfold moved.
  destruct (interpolate_between (shape_x s) t.1 p Hx Htx Hp) as (cx & ix & -> & Hix & Hbx).
  destruct (interpolate_between (shape_y s) t.2 p Hy Hty Hp) as (cy & iy & -> & Hiy & Hby).
  unfold mbind, Outcome_bind. rewrite Hix, Hiy. intros [= <-]. by destruct s.
Qed.


(** ** The ends of the transition *)



(** * A task pair, from the scene to the video

    The preconditions of a whole run: non-empty ranges of counts and sizes,
    a palette with a colour, colours that are bytes, sizes that are not
    negative, and a canvas with room for the two margins; sides and sizes
    up to 2^30 keep every coordinate within a C integer and the float
    arithmetic of the animation exact. *)

Lemma generated_scene self w td w' palette :
  generated self w td w' →
  lists w !! shape_colors (config self) = Some palette →
  ∃ shapes, deref w' (td_shapes td) shapes ∧
    drawn w' = drawn w ∧
    Forall (λ s,
      ((image_size (config self)).1 `div` 2) - 60 ≤ shape_x s
        ≤ ((image_size (config self)).1 `div` 2) + 60 ∧
      ((image_size (config self)).2 `div` 2) - 60 ≤ shape_y s
        ≤ ((image_size (config self)).2 `div` 2) + 60 ∧
      min_shape_size (config self) ≤ shape_size s ≤ max_shape_size (config self) ∧
      shape_color s ∈ palette) shapes.
Proof.
  intros (_ & _ & Hdr & _ & _ & _ & _ & palette' & cs & copy & Hp' & Hperm & _ & _ & Hsh) Hp.
  assert (palette' = palette) as -> by congruence.
  destruct (deref_of_lookups (λ _ s,
      ((image_size (config self)).1 `div` 2) - 60 ≤ shape_x s
        ≤ ((image_size (config self)).1 `div` 2) + 60 ∧
      ((image_size (config self)).2 `div` 2) - 60 ≤ shape_y s
        ≤ ((image_size (config self)).2 `div` 2) + 60 ∧
      min_shape_size (config self) ≤ shape_size s ≤ max_shape_size (config self) ∧
      shape_color s ∈ palette)
      w' (td_shapes td))
    as (shapes & Hd & Hall).
  - intros k l Hk. destruct (Hsh k l Hk) as (_ & s & Hs & _ & Hc & Hx & Hy & Hsz & _).
    exists s. repeat (split; [done |]).
    rewrite <- Hperm. by eapply list_elem_of_lookup_2.
  - exists shapes. repeat (split; [done |]). apply Forall_forall. intros s Hin.
    apply list_elem_of_lookup in Hin as [k Hk]. by apply (Hall k).
Qed.

Lemma drawable_bounded s :
  color_ok (shape_color s) →
  0 ≤ shape_size s ≤ 2 ^ 30 →
  - 60 ≤ shape_x s ≤ 2 ^ 30 + 60 →
  - 60 ≤ shape_y s ≤ 2 ^ 30 + 60 →
  drawable s.
Proof.
  intros Hc Hs Hx Hy. unfold drawable, c_int.
  assert (0 ≤ shape_size s `div` 2 ≤ 2 ^ 29)
    by (split; [apply Z.div_pos; lia | apply Z.div_le_upper_bound; lia]).
  repeat case_match; repeat split; (done || lia).
Qed.

Lemma separated_position_bounds size n i :
  80 ≤ size.1 → 0 ≤ size.2 → 0 ≤ i < n →
  40 ≤ (separated_position size n i).1 ≤ size.1 - 40 ∧
  0 ≤ (separated_position size n i).2 ≤ size.2.
Proof.
  intros Hw Hh Hi. unfold separated_position. simpl.
  pose proof (Z.mul_div_le (size.1 - 2 * 40) (n + 1) ltac:(lia)) as Hle.
  assert (0 ≤ (size.1 - 2 * 40) `div` (n + 1)) by (apply Z.div_pos; lia).
  assert (0 ≤ size.2 `div` 2 ≤ size.2)
    by (split; [apply Z.div_pos; lia | apply Z.div_le_upper_bound; lia]).
  split; [|lia].
  assert ((size.1 - 2 * 40) `div` (n + 1) * (i + 1)
          ≤ (n + 1) * ((size.1 - 2 * 40) `div` (n + 1))) by nia.
  nia.
Qed.

(** A run of [generate_task_pair], piece by piece. *)
Lemma task_pair_run cfg tid palette w :
  min_shapes cfg ≤ max_shapes cfg →
  0 ≤ min_shape_size cfg ≤ max_shape_size cfg →
  max_shape_size cfg ≤ 2 ^ 30 →
  lists w !! shape_colors cfg = Some palette →
  palette ≠ [] →
  Forall color_ok palette →
  canvas_ok cfg →
  80 ≤ (image_size cfg).1 ≤ 2 ^ 30 →
  (image_size cfg).2 ≤ 2 ^ 30 →
  let self := TaskGenerator_init cfg in
  (generate_videos cfg = true → is_available = true → mkdir (temp_dir self) = None) →
  ∃ td w1 shapes first w2 final w3 trans segs w4,
    _generate_task_data self w = Ok td w1 ∧
    deref w1 (td_shapes td) shapes ∧
    _render_overlapping self td w1 = Ok first w2 ∧
    _render_separated self td w2 = Ok final w3 ∧
    video_frames self first final td w3
    = Ok (replicate 5 first ++ trans ++ replicate 10 final) w4 ∧
    length trans = 25%nat ∧ length segs = 25%nat ∧
    Forall (λ ds, length ds = length shapes) segs ∧
    drawn w3 = drawn w ++ sorted_shapes false shapes ++ separated_shapes (image_size cfg) shapes ∧
    drawn w4 = drawn w3 ++ concat segs ∧
    Forall drawable (sorted_shapes false shapes ++ separated_shapes (image_size cfg) shapes) ∧
    Forall drawable (concat segs) ∧
    if generate_videos cfg && is_available
    then ∃ p, p ∈ default_prompts ∧
           generate_task_pair self tid w
           = Ok (mkTaskPair tid (domain cfg) p first final
                   (let result :=
                      create_video_from_frames (mkVideoGenerator (video_fps cfg) "mp4")
                        (replicate 5 first ++ trans ++ replicate 10 final)
                        (video_path self tid) in
                    if truthy result then result else None))
                (with_rng (rng_below 3 (rng w4)).2 w4)
    else ∃ p, p ∈ default_prompts ∧
           generate_task_pair self tid w
           = Ok (mkTaskPair tid (domain cfg) p first final None)
                (with_rng (rng_below 3 (rng w3)).2 w3).
Proof.
  intros Hn Hs Hmax Hp Hne Hcol (_ & Hh0 & _) Hw Hh1 self Hmk.
  assert (Hh : 0 ≤ (image_size cfg).2 ≤ 2 ^ 30) by lia.
  destruct (generate_returns self w palette Hn ltac:(simpl; lia) Hp Hne) as (td & w1 & Hgen & Hg).
  destruct (generated_scene _ _ _ _ palette Hg Hp) as (shapes & Hd1 & Hdr1 & Hall).
  simpl in Hall.
  assert (Hcx : 0 ≤ (image_size cfg).1 `div` 2 ≤ 2 ^ 29)
    by (split; [apply Z.div_pos; lia | apply Z.div_le_upper_bound; lia]).
  assert (Hcy : 0 ≤ (image_size cfg).2 `div` 2 ≤ 2 ^ 29)
    by (split; [apply Z.div_pos; lia | apply Z.div_le_upper_bound; lia]).
  assert (Hbound : ∀ s, s ∈ shapes →
            color_ok (shape_color s) ∧ 0 ≤ shape_size s ≤ 2 ^ 30 ∧
            - 60 ≤ shape_x s ≤ 2 ^ 29 + 60 ∧ - 60 ≤ shape_y s ≤ 2 ^ 29 + 60).
  { intros s Hin.
    destruct (proj1 (Forall_forall _ _) Hall s Hin) as (Hx & Hy & Hsz & Hc).
    split; [by apply (proj1 (Forall_forall _ _) Hcol) | lia]. }
  assert (Hsmall : Forall (λ s, small (shape_x s) ∧ small (shape_y s)) shapes).
  { apply Forall_forall. intros s Hin. destruct (Hbound s Hin) as (_ & _ & Hx & Hy).
    unfold small. lia. }
  assert (Hw52 : 80 ≤ (image_size (config self)).1 < 2 ^ 52) by (simpl; lia).
  assert (Hh52 : 0 ≤ (image_size (config self)).2 < 2 ^ 52) by (simpl; lia).
  pose proof (render_overlapping_returns self td shapes w1 Hd1) as Hover.
  set (first := convert_RGB _) in Hover.
  set (w2 := with_drawn (drawn w1 ++ sorted_shapes false shapes) w1) in *.
  destruct (render_separated_returns self td shapes w2 Hd1)
    as (final & w3 & Hsep & Hsub3 & _ & _ & Hdr3).
  assert (Hd3 : deref w3 (td_shapes td) shapes) by by eapply deref_weaken.
  destruct (video_frames_returns self first final td shapes w3 Hd3 Hw52 Hh52 Hsmall)
    as (frames & w4 & Hrun).
  destruct (video_frames_returned _ _ _ _ _ _ _ _ Hd3 Hrun)
    as (trans & segs & -> & Hlt & Hls & _ & Hdr4 & Htr).
  assert (Hfs : ∀ k ds, segs !! k = Some ds →
            frame_shapes (image_size cfg) shapes (Z.of_nat k) ds).
  { intros k ds Hk. destruct (lookup_lt_is_Some_2 trans k) as [img Himg];
      [apply lookup_lt_Some in Hk; lia |].
    by destruct (Htr k img ds Himg Hk). }
  exists td, w1, shapes, first, w2, final, w3, trans, segs, w4.
  split; [done |]. split; [done |]. split; [done |]. split; [done |]. split; [done |].
  split; [done |]. split; [done |]. split.
  { apply Forall_forall. intros ds [k Hk]%list_elem_of_lookup.
    by eapply frame_shapes_length, Hfs. }
  split; [by rewrite Hdr3, app_assoc; unfold w2; simpl; rewrite Hdr1 |].
  split; [done |]. split; [|split].
  - apply Forall_app. split; apply Forall_forall.
    + intros s Hin. rewrite sorted_shapes_perm in Hin.
      destruct (Hbound s Hin) as (? & ? & ? & ?). apply drawable_bounded; (done || lia).
    + intros d [i Hi]%list_elem_of_lookup.
      pose proof (lookup_lt_Some _ _ _ Hi) as Hlt'. rewrite separated_shapes_length in Hlt'.
      apply separated_shapes_lookup in Hi as (s & Hs' & ->).
      assert (Hin : s ∈ shapes).
      { rewrite <- (sorted_shapes_perm true shapes). by eapply list_elem_of_lookup_2. }
      destruct (Hbound s Hin) as (? & ? & ? & ?).
      destruct (separated_position_bounds (image_size cfg)
                  (Z.of_nat (length shapes)) (Z.of_nat i)) as [? ?]; [lia | lia | lia |].
      apply drawable_bounded; destruct s; simpl in *; (done || lia).
  - apply Forall_concat, Forall_forall. intros ds [k Hk]%list_elem_of_lookup.
    apply Forall_forall. intros d [i Hi]%list_elem_of_lookup.
    pose proof (lookup_lt_Some _ _ _ Hk) as Hk25.
    destruct (Hfs k ds Hk) as (p & Hprog & Hall2).
    destruct (Forall2_lookup_r _ _ _ _ _ Hall2 Hi) as ([j s] & Hjs & Hmoved).
    apply enumerate_lookup in Hjs as [Hj Hs']. simpl in Hj, Hs', Hmoved. subst j.
    destruct (eased_progress_unit (Z.of_nat k)) as (p' & Hp' & Hunit);
      [unfold animation_frames; lia |].
    assert (p' = p) as -> by congruence.
    pose proof (lookup_lt_Some _ _ _ Hs') as Hi'. rewrite sorted_shapes_length in Hi'.
    destruct (scene_small (image_size cfg) shapes i s) as (Hx & Hy & Htx & Hty);
      [simpl in *; lia | simpl in *; lia | done | done |].
    destruct (moved_between p s _ d Hunit Hx Hy Htx Hty Hmoved)
      as (Hbx & Hby & Hsz & _ & Hcd & _).
    assert (Hin : s ∈ shapes).
    { rewrite <- (sorted_shapes_perm true shapes). by eapply list_elem_of_lookup_2. }
    destruct (Hbound s Hin) as (? & ? & ? & ?).
    destruct (separated_position_bounds (image_size cfg)
                (Z.of_nat (length shapes)) (Z.of_nat i)) as [? ?]; [lia | lia | lia |].
    apply drawable_bounded; [by rewrite Hcd | lia | lia | lia].
  - destruct (generate_videos cfg) eqn:Hgv; simpl.
    + destruct is_available eqn:Hav.
      * destruct (get_prompt_run (td_type td) w4) as (p & Hin & Hprompt).
        exists p. split; [done |].
        set (encoder := mkVideoGenerator (video_fps cfg) "mp4").
        pose proof (generate_video_run self encoder first final tid td w3 _ w4
                      (Hmk eq_refl eq_refl) Hrun) as Hvideo.
        unfold generate_task_pair, _render_initial_state, _render_final_state.
        rewrite (bind_ok _ _ _ _ _ Hgen), (bind_ok _ _ _ _ _ Hover), (bind_ok _ _ _ _ _ Hsep).
        simpl. rewrite Hgv, Hav. simpl. fold encoder.
        rewrite (bind_ok _ _ _ _ _ Hvideo), (bind_ok _ _ _ _ _ Hprompt). reflexivity.
      * destruct (get_prompt_run (td_type td) w3) as (p & Hin & Hprompt).
        exists p. split; [done |].
        unfold generate_task_pair, _render_initial_state, _render_final_state.
        rewrite (bind_ok _ _ _ _ _ Hgen), (bind_ok _ _ _ _ _ Hover), (bind_ok _ _ _ _ _ Hsep).
        simpl. rewrite Hgv, Hav. simpl.
        rewrite (bind_ok _ _ w3 None w3) by reflexivity.
        rewrite (bind_ok _ _ _ _ _ Hprompt). reflexivity.
    + destruct (get_prompt_run (td_type td) w3) as (p & Hin & Hprompt).
      exists p. split; [done |].
      unfold generate_task_pair, _render_initial_state, _render_final_state.
      rewrite (bind_ok _ _ _ _ _ Hgen), (bind_ok _ _ _ _ _ Hover), (bind_ok _ _ _ _ _ Hsep).
      simpl. rewrite Hgv.
      rewrite (bind_ok _ _ w3 None w3) by reflexivity.
      rewrite (bind_ok _ _ _ _ _ Hprompt). reflexivity.
Qed.

(** C9: encoder absence or failure never aborts the generation of a task
    pair.  With non-empty ranges, a palette with a colour, colours that are
    bytes, sizes that are not negative and a canvas from 80 wide (sides and
    sizes up to 2^30), [generate_task_pair] returns a task pair that holds
    the overlapping and the separated render of the scene it generated,
    and every drawing call it made is one Pillow accepts.  The video of
    the pair is None when video generation is disabled or no encoder is
    available; otherwise the directory of the video is made first (which
    must succeed), the frames are synthesised, and the video is None when
    the result of the encoder for these frames is falsy, and that result
    when it is not. *)
Theorem encoder_failure_degrades cfg tid palette w :
  min_shapes cfg ≤ max_shapes cfg →
  0 ≤ min_shape_size cfg ≤ max_shape_size cfg →
  max_shape_size cfg ≤ 2 ^ 30 →
  lists w !! shape_colors cfg = Some palette →
  palette ≠ [] →
  Forall color_ok palette →
  canvas_ok cfg →
  80 ≤ (image_size cfg).1 ≤ 2 ^ 30 →
  (image_size cfg).2 ≤ 2 ^ 30 →
  let self := TaskGenerator_init cfg in
  (generate_videos cfg = true → is_available = true → mkdir (temp_dir self) = None) →
  ∃ tp w' td w1 w2 w3 ds,
    generate_task_pair self tid w = Ok tp w' ∧
    _generate_task_data self w = Ok td w1 ∧
    _render_overlapping self td w1 = Ok (first_image tp) w2 ∧
    _render_separated self td w2 = Ok (final_image tp) w3 ∧
    drawn w' = drawn w ++ ds ∧ Forall drawable ds ∧
    (generate_videos cfg = false ∨ is_available = false → ground_truth_video tp = None) ∧
    (generate_videos cfg = true → is_available = true →
     ∃ frames w4,
       video_frames self (first_image tp) (final_image tp) td w3 = Ok frames w4 ∧
       let result :=
         create_video_from_frames (mkVideoGenerator (video_fps cfg) "mp4") frames
           (video_path self tid) in
       (truthy result = false → ground_truth_video tp = None) ∧
       (truthy result = true → ground_truth_video tp = result)).
Proof.
  intros Hn Hs Hmax Hp Hne Hcol Hcanvas Hw Hh self Hmk.
  destruct (task_pair_run cfg tid palette w Hn Hs Hmax Hp Hne Hcol Hcanvas Hw Hh Hmk)
    as (td & w1 & shapes & first & w2 & final & w3 & trans & segs & w4
        & Hgen & _ & Hover & Hsep & Hrun & _ & _ & _ & Hdr3 & Hdr4 & Hok3 & Hok4 & Hpair).
  destruct (generate_videos cfg && is_available) eqn:Hon; destruct Hpair as (p & _ & Hpair).
  - apply andb_true_iff in Hon as [Hgv Hav].
    eexists _, _, td, w1, w2, w3,
      ((sorted_shapes false shapes ++ separated_shapes (image_size cfg) shapes) ++ concat segs).
    split; [exact Hpair |]. simpl.
    split; [done |]. split; [done |]. split; [done |].
    split; [by rewrite Hdr4, Hdr3, <- !app_assoc |].
    split; [by apply Forall_app |].
    split; [intros [? | ?]; congruence |].
    intros _ _. exists (replicate 5 first ++ trans ++ replicate 10 final), w4.
    split; [done |].
    destruct (truthy _); split; (done || by intros [=]).
  - apply andb_false_iff in Hon.
    eexists _, _, td, w1, w2, w3,
      (sorted_shapes false shapes ++ separated_shapes (image_size cfg) shapes).
    split; [exact Hpair |]. simpl.
    split; [done |]. split; [done |]. split; [done |].
    split; [done |]. split; [done |]. split; [done |].
    intros Hgv Hav. destruct Hon; congruence.
Qed.

(** X24: with videos enabled, an encoder available and the directory of
    the video made (and the preconditions of a run: non-empty ranges, a
    palette with a colour, colours that are bytes, sizes that are not
    negative, a canvas from 80 wide, sides and sizes up to 2^30),
    [generate_task_pair] returns a task pair whose video is the result of
    the encoder for 40 frames, or None when that result is falsy; the
    frames begin with 5 copies of the pair's first image and end with 10
    copies of its final image.  For the scene of n shapes that was
    generated, [_draw_shape] was called 27 n times: once per shape in each
    still render and in each of the 25 transition frames. *)
Theorem task_pair_with_video cfg tid palette w :
  min_shapes cfg ≤ max_shapes cfg →
  0 ≤ min_shape_size cfg ≤ max_shape_size cfg →
  max_shape_size cfg ≤ 2 ^ 30 →
  lists w !! shape_colors cfg = Some palette →
  palette ≠ [] →
  Forall color_ok palette →
  canvas_ok cfg →
  80 ≤ (image_size cfg).1 ≤ 2 ^ 30 →
  (image_size cfg).2 ≤ 2 ^ 30 →
  generate_videos cfg = true →
  is_available = true →
  let self := TaskGenerator_init cfg in
  mkdir (temp_dir self) = None →
  ∃ tp w' td w1 frames,
    generate_task_pair self tid w = Ok tp w' ∧
    _generate_task_data self w = Ok td w1 ∧
    min_shapes cfg ≤ td_num_shapes td ≤ max_shapes cfg ∧
    length (td_shapes td) = Z.to_nat (td_num_shapes td) ∧
    ground_truth_video tp
    = (let result :=
         create_video_from_frames (mkVideoGenerator (video_fps cfg) "mp4") frames
           (video_path self tid) in
       if truthy result then result else None) ∧
    length frames = 40%nat ∧
    take 5 frames = replicate 5 (first_image tp) ∧
    drop 30 frames = replicate 10 (final_image tp) ∧
    length (drawn w') = (length (drawn w) + 27 * length (td_shapes td))%nat.
Proof.
  intros Hn Hs Hmax Hp Hne Hcol Hcanvas Hw Hh Hgv Hav self Hmk.
  destruct (task_pair_run cfg tid palette w Hn Hs Hmax Hp Hne Hcol Hcanvas Hw Hh (λ _ _, Hmk))
    as (td & w1 & shapes & first & w2 & final & w3 & trans & segs & w4
        & Hgen & Hd1 & _ & _ & _ & Hlt & Hls & Hall & Hdr3 & Hdr4 & _ & _ & Hpair).
  rewrite Hgv, Hav in Hpair. destruct Hpair as (p & _ & Hpair).
  pose proof (wp_returned _ _ _ _ _ _ (generate_spec self w) Hgen)
    as (_ & _ & _ & _ & Hnum & Hlen & _).
  eexists _, _, td, w1, (replicate 5 first ++ trans ++ replicate 10 final).
  split; [exact Hpair |].
  cbn [first_image final_image ground_truth_video drawn with_rng].
  split; [done |]. split; [done |]. split; [done |]. split; [done |].
  split; [by rewrite !length_app, !length_replicate, Hlt |].
  split; [done |]. split.
  - match goal with |- drop 30 (replicate 5 ?a ++ _ ++ ?r) = _ =>
      change (drop 30 (replicate 5 a ++ trans ++ r)) with (drop 25 (trans ++ r)) end.
    by rewrite drop_app_length'.
  - rewrite Hdr4, Hdr3, !length_app, sorted_shapes_length, separated_shapes_length,
      (concat_length_const segs (length shapes)), Hls by done.
    rewrite (deref_length _ _ _ Hd1). lia.
Qed.

End Properties.

(** * A concrete setting

    A counter as random source, a rasteriser that inks bounding boxes, and
    an encoder that always fails. *)

Lemma counter_below_range (n r : Z) : 0 < n → 0 ≤ (r `mod` n, r + 1).1 < n.
Proof. intros. simpl. apply Z.mod_pos_bound. lia. Qed.

Lemma reverse_shuffle_perm (l : list Color) (r : Z) : (reverse l, r + 1).1 ≡ₚ l.
Proof. simpl. apply reverse_Permutation. Qed.

#[export] Instance counter_rng : Random := {|
  RngState := Z;
  rng_below n r := (r `mod` n, r + 1);
  rng_shuffle l r := (reverse l, r + 1);
  rng_below_range := counter_below_range;
  rng_shuffle_perm := reverse_shuffle_perm
|}.

Definition in_box (xy : Z * Z * Z * Z) (fill outline : Color) (width i j : Z) : option Color :=
  let '(x0, y0, x1, y1) := xy in
  if (x0 <=? i) && (i <=? x1) && (y0 <=? j) && (j <=? y1) then
    if (i <? x0 + width) || (x1 - width <? i) || (j <? y0 + width) || (y1 - width <? j)
    then Some outline else Some fill
  else None.

#[export] Instance box_pillow : Pillow := {|
  Font := unit;
  truetype _ _ := None;
  load_default := ();
  ellipse := in_box;
  rectangle := in_box;
  polygon _ _ _ _ _ _ := None;
  blend a d s := (d * (255 - a) + s * a) `div` 255;
  text im _ _ _ _ := im;
  line im _ _ _ := im;
  polygon_fill im _ _ := im
|}.

#[export] Instance failing_encoder : VideoBackend := {|
  is_available := true;
  gettempdir := "/tmp";
  mkdir _ := None;
  create_video_from_frames _ _ _ := None
|}.

Definition palette_loc : loc := 1%positive.

Definition sample_generator : TaskGenerator := TaskGenerator_init (default_config palette_loc).

(** A store holding the default palette and no shape. *)
Definition empty_world : World :=
  mkWorld ∅ {[ palette_loc := default_shape_colors ]} 7 [].

(** A scene of three shapes, listed front, back, middle. *)
Definition back_shape : Shape := mkShape 250 260 100 "circle" (255, 100, 100, 180) 0.
Definition middle_shape : Shape := mkShape 270 250 120 "square" (100, 255, 100, 180) 1.
Definition front_shape : Shape := mkShape 240 240 90 "triangle" (100, 100, 255, 180) 2.

Definition scene_shapes : list Shape := [front_shape; back_shape; middle_shape].

Definition scene_data : TaskData := mkTaskData [3; 1; 2]%positive 3 "default".

Definition scene_world : World :=
  mkWorld {[ 1%positive := back_shape; 2%positive := middle_shape; 3%positive := front_shape ]}
    {[ palette_loc := default_shape_colors ]} 0 [].


Definition blank : Image := Image_new RGB (512, 512) (255, 255, 255, 255).




Lemma deref_scene : deref scene_world (td_shapes scene_data) scene_shapes.
Proof. repeat constructor. Qed.

Lemma small_scene : Forall (λ s, small (shape_x s) ∧ small (shape_y s)) scene_shapes.
Proof. repeat constructor. Qed.

(** ** The theorems at these inputs *)

Lemma generated_layers_witness :
  ∃ td w',
    _generate_task_data sample_generator empty_world = Ok td w' ∧
    min_shapes (config sample_generator) ≤ td_num_shapes td
      ≤ max_shapes (config sample_generator) ∧
    ∃ shapes,
      deref w' (td_shapes td) shapes ∧
      length shapes = Z.to_nat (td_num_shapes td) ∧
      shape_layer <$> shapes = range (Z.of_nat (length shapes)) ∧
      NoDup (shape_layer <$> shapes).
Proof.
  destruct (generated_layers sample_generator empty_world) as [Hreturns Hlayers].
  destruct (Hreturns default_shape_colors) as (td & w' & Hrun).
  - simpl. lia.
  - simpl. lia.
  - reflexivity.
  - discriminate.
  - exists td, w'. split; [exact Hrun | exact (Hlayers td w' Hrun)].
Defined.

Lemma palette_not_mutated_witness :
  lists (world_of (repeatM 3 (_generate_task_data sample_generator) empty_world)) !! palette_loc
  = Some default_shape_colors ∧
  ∃ td w' palette copy cs,
    _generate_task_data sample_generator empty_world = Ok td w' ∧
    lists empty_world !! palette_loc = Some palette ∧
    lists w' !! palette_loc = Some palette ∧
    (copy ∉ dom (lists empty_world)) ∧
    lists w' !! copy = Some cs ∧
    cs ≡ₚ palette ∧
    ∀ k l s, td_shapes td !! k = Some l → dicts w' !! l = Some s →
      cs !! (k `mod` length palette)%nat = Some (shape_color s).
Proof.
  destruct (palette_not_mutated sample_generator empty_world) as [Hconfig Hcopy].
  split; [exact (Hconfig 3%nat) |].
  destruct (_generate_task_data sample_generator empty_world) as [td w' | e w'] eqn:Hrun;
    [| vm_compute in Hrun; discriminate].
  destruct (Hcopy td w' eq_refl) as (palette & copy & cs & H).
  exists td, w', palette, copy, cs. split; [reflexivity | exact H].
Defined.






Lemma single_shape_centred_witness :
  ∃ img w',
    _render_separated sample_generator (mkTaskData [2%positive] 1 "default") scene_world
    = Ok img w' ∧
    drawn w' = [mkShape 256 256 120 "square" (100, 255, 100, 180) 1].
Proof.
  destruct (single_shape_centred sample_generator (mkTaskData [2%positive] 1 "default")
              2%positive middle_shape scene_world) as (_ & _ & _ & _ & Hreturns).
  - reflexivity.
  - reflexivity.
  - destruct Hreturns as (img & w' & Hrun & Hdr & _).
    + by vm_compute.
    + apply drawable_bounded; by vm_compute.
    + exists img, w'. split; [exact Hrun | exact Hdr].
Defined.

Lemma scene_immutable_witness :
  let run := first ← _render_overlapping sample_generator scene_data;
             final ← _render_separated sample_generator scene_data;
             _generate_video sample_generator (mkVideoGenerator 10 "mp4") first final
               "task_0" scene_data in
  deref (world_of (run scene_world)) (td_shapes scene_data) scene_shapes ∧
  dicts scene_world ⊆ dicts (world_of (run scene_world)).
Proof.
  apply (scene_immutable sample_generator (mkVideoGenerator 10 "mp4") "task_0"
           scene_data scene_shapes scene_world).
  apply deref_scene.
Defined.

Lemma encoder_failure_degrades_witness :
  ∃ tp w' ds,
    generate_task_pair sample_generator "task_0" empty_world = Ok tp w' ∧
    ground_truth_video tp = None ∧
    drawn w' = ds ∧ Forall drawable ds.
Proof.
  destruct (encoder_failure_degrades (default_config palette_loc) "task_0"
              default_shape_colors empty_world)
    as (tp & w' & td & w1 & w2 & w3 & ds & Hrun & _ & _ & _ & Hdr & Hok & _ & Hvideo).
  - simpl. lia.
  - simpl. lia.
  - simpl. lia.
  - reflexivity.
  - discriminate.
  - repeat constructor; by vm_compute.
  - by vm_compute.
  - simpl. lia.
  - simpl. lia.
  - intros _ _. reflexivity.
  - destruct (Hvideo eq_refl eq_refl) as (frames & w4 & _ & Hnone & _).
    exists tp, w', ds. split; [exact Hrun |]. split; [exact (Hnone eq_refl) |].
    split; [exact Hdr | exact Hok].
Defined.


(** * Further inputs

    An encoder that succeeds, a file system on which no directory can be
    made, configurations with an empty range, a store with an empty
    palette, and scenes with a tie, with an unknown kind of shape and with
    no shape. *)

Definition working_encoder : VideoBackend := {|
  is_available := true;
  gettempdir := "/tmp";
  mkdir _ := None;
  create_video_from_frames _ _ _ := Some "/tmp/out.mp4"%string
|}.

(** A file system on which no directory can be made. *)
Definition read_only_files : VideoBackend := {|
  is_available := true;
  gettempdir := "/tmp";
  mkdir _ := Some OSError;
  create_video_from_frames _ _ _ := Some "/tmp/out.mp4"%string
|}.

Definition inverted_generator : TaskGenerator :=
  mkTaskGenerator
    (mkTaskConfig "layer_depth" (512, 512) false 10 5 3 80 150 palette_loc
       (255, 255, 255) (50, 50, 50))
    None.

Definition inverted_sizes_generator : TaskGenerator :=
  mkTaskGenerator
    (mkTaskConfig "layer_depth" (512, 512) false 10 3 5 150 80 palette_loc
       (255, 255, 255) (50, 50, 50))
    None.

Definition idle_generator : TaskGenerator :=
  mkTaskGenerator
    (mkTaskConfig "layer_depth" (512, 512) false 10 (-2) 0 80 150 palette_loc
       (255, 255, 255) (50, 50, 50))
    None.

Definition large_generator : TaskGenerator :=
  mkTaskGenerator
    (mkTaskConfig "layer_depth" (512, 512) false 10 3 5 120 150 palette_loc
       (255, 255, 255) (50, 50, 50))
    None.

(** A store whose palette is the empty list. *)
Definition bare_world : World :=
  mkWorld ∅ {[ palette_loc := [] ]} 7 [].




(** A shape of a kind [_draw_shape] does not know. *)
Definition hexagon : Shape := mkShape 100 100 50 "hexagon" (255, 100, 100, 180) 0.

Definition odd_world : World :=
  mkWorld {[ 1%positive := hexagon ]} {[ palette_loc := default_shape_colors ]} 0 [].


Lemma box_blend_zero (d c : Z) : blend 0 d c = d.
Proof. simpl. rewrite Z.mul_0_r, Z.add_0_r. apply Z.div_mul. lia. Qed.

(** ** The further properties at these inputs *)

Lemma generated_shapes_bounds_witness :
  ∃ td w',
    _generate_task_data sample_generator empty_world = Ok td w' ∧
    td_type td = "default"%string ∧
    ∀ l, l ∈ td_shapes td →
      ∃ s, dicts w' !! l = Some s ∧
        512 `div` 2 - 60 ≤ shape_x s ≤ 512 `div` 2 + 60 ∧
        512 `div` 2 - 60 ≤ shape_y s ≤ 512 `div` 2 + 60 ∧
        80 ≤ shape_size s ≤ 150 ∧
        shape_type s ∈ shape_types.
Proof.
  destruct (generate_returns sample_generator empty_world default_shape_colors)
    as (td & w' & Hrun & _); [simpl; lia | simpl; lia | reflexivity | discriminate |].
  exists td, w'. split; [exact Hrun |].
  exact (generated_shapes_bounds sample_generator empty_world td w' Hrun).
Defined.

Lemma empty_count_range_raises_witness :
  _generate_task_data inverted_generator empty_world = Raise ValueError empty_world ∧
  generate_task_pair inverted_generator "task_0" empty_world = Raise ValueError empty_world.
Proof.
  apply (empty_count_range_raises inverted_generator "task_0" empty_world). simpl. lia.
Defined.

Lemma generate_empty_size_range_witness :
  ∃ w', _generate_task_data inverted_sizes_generator empty_world = Raise ValueError w' ∧
        dicts w' = dicts empty_world ∧ drawn w' = drawn empty_world ∧
        lists w' !! palette_loc = Some default_shape_colors.
Proof.
  apply (generate_empty_size_range inverted_sizes_generator empty_world default_shape_colors).
  - simpl. lia.
  - simpl. lia.
  - reflexivity.
Defined.

Lemma generate_empty_palette_witness :
  ∃ w', _generate_task_data sample_generator bare_world = Raise ZeroDivisionError w' ∧
        dicts w' = dicts bare_world ∧ drawn w' = drawn bare_world.
Proof.
  apply (generate_empty_palette sample_generator bare_world).
  - simpl. lia.
  - simpl. lia.
  - reflexivity.
Defined.

Lemma generate_no_shapes_witness :
  ∃ td w', _generate_task_data idle_generator empty_world = Ok td w' ∧
    td_shapes td = [] ∧
    -2 ≤ td_num_shapes td ≤ 0 ∧
    dicts w' = dicts empty_world ∧ drawn w' = drawn empty_world.
Proof.
  apply (generate_no_shapes idle_generator empty_world default_shape_colors).
  - simpl. lia.
  - reflexivity.
Defined.

Lemma second_scene_disjoint_witness :
  ∃ td1 w1 td2 w2 shapes1,
    _generate_task_data sample_generator empty_world = Ok td1 w1 ∧
    _generate_task_data sample_generator w1 = Ok td2 w2 ∧
    deref w1 (td_shapes td1) shapes1 ∧
    deref w2 (td_shapes td1) shapes1 ∧
    NoDup (td_shapes td1 ++ td_shapes td2) ∧
    drawn w2 = drawn empty_world.
Proof.
  destruct (generate_returns sample_generator empty_world default_shape_colors)
    as (td1 & w1 & Hrun1 & Hg1); [simpl; lia | simpl; lia | reflexivity | discriminate |].
  destruct (generated_deref _ _ _ _ Hg1) as (shapes1 & Hd1 & _).
  destruct (generate_returns sample_generator w1 default_shape_colors)
    as (td2 & w2 & Hrun2 & _); [simpl; lia | simpl; lia | | discriminate |].
  { destruct Hg1 as (_ & Hsub & _). eapply lookup_weaken; [|exact Hsub]. reflexivity. }
  exists td1, w1, td2, w2, shapes1.
  split; [exact Hrun1 |]. split; [exact Hrun2 |]. split; [exact Hd1 |].
  exact (second_scene_disjoint sample_generator empty_world td1 w1 td2 w2 shapes1
           Hrun1 Hrun2 Hd1).
Defined.

Lemma generated_colours_witness :
  ∃ td w' shapes,
    _generate_task_data sample_generator empty_world = Ok td w' ∧
    deref w' (td_shapes td) shapes ∧
    (∀ s, s ∈ shapes → shape_color s ∈ default_shape_colors) ∧
    NoDup (shape_color <$> shapes).
Proof.
  destruct (generate_returns sample_generator empty_world default_shape_colors)
    as (td & w' & Hrun & Hg); [simpl; lia | simpl; lia | reflexivity | discriminate |].
  destruct (generated_colours sample_generator empty_world td w' default_shape_colors Hrun)
    as (shapes & Hd & Hin & _ & Hnd); [reflexivity |].
  exists td, w', shapes. split; [exact Hrun |]. split; [exact Hd |]. split; [exact Hin |].
  apply Hnd; [apply default_colours_NoDup |].
  destruct Hg as (_ & _ & _ & _ & Hnum & Hlen & _).
  rewrite (deref_length _ _ _ Hd), Hlen. simpl in *. lia.
Defined.





Lemma render_overlapping_effect_witness :
  ∃ img w',
    _render_overlapping sample_generator scene_data scene_world = Ok img w' ∧
    img = overlapping_image sample_generator scene_shapes ∧
    im_mode img = RGB ∧ im_size img = (512, 512) ∧
    (∀ i j, (im_px img i j).2 = 255) ∧
    dicts w' = dicts scene_world ∧ lists w' = lists scene_world ∧
    rng w' = rng scene_world ∧
    length (drawn w') = 3%nat.
Proof.
  destruct (render_overlapping_effect sample_generator scene_data scene_shapes scene_world)
    as (Heffect & Hreturns).
  - apply deref_scene.
  - destruct Hreturns as (img & w' & Hrun & _).
    + by vm_compute.
    + repeat (constructor; [apply drawable_bounded; by vm_compute |]). constructor.
    + exists img, w'. split; [exact Hrun |]. exact (Heffect img w' Hrun).
Defined.

Lemma transition_frames_format_witness :
  ∃ frames w',
    video_frames sample_generator blank blank scene_data scene_world = Ok frames w' ∧
    ∀ k, (5 ≤ k < 30)%nat →
      ∃ img, frames !! k = Some img ∧
        im_mode img = RGB ∧ im_size img = (512, 512) ∧
        ∀ i j, (im_px img i j).2 = 255.
Proof.
  destruct (video_frames_returns sample_generator blank blank scene_data scene_shapes
              scene_world deref_scene) as (frames & w' & Hrun);
    [simpl; lia | simpl; lia | apply small_scene |].
  exists frames, w'. split; [exact Hrun |].
  exact (transition_frames_format sample_generator blank blank scene_data scene_shapes
           scene_world frames w' deref_scene Hrun).
Defined.

Lemma unknown_type_draws_nothing_witness :
  ∃ img',
    _draw_shape blank 1%positive 0 0 odd_world
    = Ok img' (with_drawn [hexagon] odd_world) ∧
    im_mode img' = im_mode blank ∧ im_size img' = im_size blank ∧
    ∀ i j, im_px img' i j = im_px blank i j.
Proof.
  apply (unknown_type_draws_nothing blank 1%positive hexagon 0 0 odd_world).
  - reflexivity.
  - apply (bool_decide_unpack _). vm_compute. exact I.
  - apply box_blend_zero.
Defined.


Lemma large_shapes_cover_centre_witness :
  ∃ td w',
    _generate_task_data large_generator empty_world = Ok td w' ∧
    ∀ l, l ∈ td_shapes td →
      ∃ s, dicts w' !! l = Some s ∧
        shape_x s - shape_size s `div` 2 ≤ 512 `div` 2 ≤ shape_x s + shape_size s `div` 2 ∧
        shape_y s - shape_size s `div` 2 ≤ 512 `div` 2 ≤ shape_y s + shape_size s `div` 2.
Proof.
  destruct (generate_returns large_generator empty_world default_shape_colors)
    as (td & w' & Hrun & _); [simpl; lia | simpl; lia | reflexivity | discriminate |].
  exists td, w'. split; [exact Hrun |].
  apply (large_shapes_cover_centre large_generator empty_world td w' Hrun). simpl. lia.
Defined.



Lemma generate_video_result_witness :
  (∃ v w' frames,
     _generate_video (vid := working_encoder) sample_generator (mkVideoGenerator 10 "mp4")
       blank blank "task_0" scene_data scene_world = Ok v w' ∧
     video_frames sample_generator blank blank scene_data scene_world = Ok frames w' ∧
     v = Some "/tmp/out.mp4"%string) ∧
  _generate_video (vid := read_only_files) sample_generator (mkVideoGenerator 10 "mp4")
    blank blank "task_0" scene_data scene_world = Raise OSError scene_world ∧
  Path_str (video_path (vid := working_encoder) sample_generator "task_0")
  = "/tmp/layer_depth_videos/task_0_ground_truth.mp4"%string ∧
  Path_str (video_path (vid := working_encoder) sample_generator "/x")
  = "/x_ground_truth.mp4"%string.
Proof.
  split; [|split; [|split]].
  - destruct (video_frames_returns sample_generator blank blank scene_data scene_shapes
                scene_world deref_scene) as (frames & w' & Hrun);
      [simpl; lia | simpl; lia | apply small_scene |].
    pose proof (generate_video_run (vid := working_encoder) sample_generator
                  (mkVideoGenerator 10 "mp4") blank blank "task_0" scene_data scene_world
                  frames w' eq_refl Hrun) as Hvideo.
    destruct (generate_video_result (vid := working_encoder) sample_generator
                (mkVideoGenerator 10 "mp4") blank blank "task_0" scene_data scene_world)
      as (_ & Hreturned & _).
    destruct (Hreturned _ w' Hvideo) as (_ & frames' & Hrun' & _).
    exists (Some "/tmp/out.mp4"%string), w', frames'.
    split; [exact Hvideo |]. split; [exact Hrun' | reflexivity].
  - destruct (generate_video_result (vid := read_only_files) sample_generator
                (mkVideoGenerator 10 "mp4") blank blank "task_0" scene_data scene_world)
      as (Hraised & _).
    exact (Hraised OSError eq_refl).
  - destruct (generate_video_result (vid := working_encoder) sample_generator
                (mkVideoGenerator 10 "mp4") blank blank "task_0" scene_data scene_world)
      as (_ & _ & Hpath & _).
    destruct (Hpath eq_refl eq_refl) as [_ ->]. reflexivity.
  - destruct (generate_video_result (vid := working_encoder) sample_generator
                (mkVideoGenerator 10 "mp4") blank blank "/x" scene_data scene_world)
      as (_ & _ & _ & Habs & _).
    destruct (Habs "x"%string eq_refl) as [-> _]. reflexivity.
Defined.

Lemma video_draw_count_witness :
  ∃ frames w',
    video_frames sample_generator blank blank scene_data scene_world = Ok frames w' ∧
    length (drawn w') = 75%nat ∧
    rng w' = rng scene_world ∧ lists w' = lists scene_world ∧
    dicts scene_world ⊆ dicts w'.
Proof.
  destruct (video_frames_returns sample_generator blank blank scene_data scene_shapes
              scene_world deref_scene) as (frames & w' & Hrun);
    [simpl; lia | simpl; lia | apply small_scene |].
  exists frames, w'. split; [exact Hrun |].
  exact (video_draw_count sample_generator blank blank scene_data scene_shapes
           scene_world frames w' deref_scene Hrun).
Defined.

(** A run of [generate_task_pair] with the working encoder. *)
Lemma sample_task_pair :
  ∃ tp w',
    generate_task_pair (vid := working_encoder)
      (TaskGenerator_init (vid := working_encoder) (default_config palette_loc))
      "task_0" empty_world = Ok tp w'.
Proof.
  destruct (task_pair_run (vid := working_encoder) (default_config palette_loc)
              "task_0" default_shape_colors empty_world)
    as (td & w1 & shapes & first & w2 & final & w3 & trans & segs & w4 & H).
  - simpl. lia.
  - simpl. lia.
  - simpl. lia.
  - reflexivity.
  - discriminate.
  - repeat constructor; by vm_compute.
  - by vm_compute.
  - simpl. lia.
  - simpl. lia.
  - intros _ _. reflexivity.
  - destruct H as (_ & _ & _ & _ & _ & _ & _ & _ & _ & _ & _ & _ & p & _ & Hrun).
    eexists _, _. exact Hrun.
Qed.

Lemma task_pair_fields_witness :
  ∃ tp w',
    generate_task_pair (vid := working_encoder)
      (TaskGenerator_init (vid := working_encoder) (default_config palette_loc))
      "task_0" empty_world = Ok tp w' ∧
    task_id tp = "task_0"%string ∧ tp_domain tp = "layer_depth"%string ∧
    prompt tp ∈ default_prompts ∧
    ground_truth_video tp ≠ Some EmptyString.
Proof.
  destruct sample_task_pair as (tp & w' & Hrun).
  destruct (task_pair_fields (vid := working_encoder) _ _ _ _ _ Hrun)
    as (Hid & Hdom & Hprompt & Hvideo & _).
  exists tp, w'. repeat split; assumption.
Defined.

Lemma task_pair_randomness_witness :
  ∃ tp w' td w1 w1',
    generate_task_pair (vid := working_encoder)
      (TaskGenerator_init (vid := working_encoder) (default_config palette_loc))
      "task_0" empty_world = Ok tp w' ∧
    _generate_task_data
      (TaskGenerator_init (vid := working_encoder) (default_config palette_loc))
      empty_world = Ok td w1 ∧
    get_prompt (td_type td) w1 = Ok (prompt tp) w1' ∧
    rng w' = rng w1' ∧ lists w' = lists w1.
Proof.
  destruct sample_task_pair as (tp & w' & Hrun).
  destruct (task_pair_randomness (vid := working_encoder) _ _ _ _ _ Hrun)
    as (td & w1 & w1' & H).
  exists tp, w', td, w1, w1'. split; [exact Hrun | exact H].
Defined.

Lemma task_pair_with_video_witness :
  ∃ tp w' td w1 frames,
    generate_task_pair (vid := working_encoder)
      (TaskGenerator_init (vid := working_encoder) (default_config palette_loc))
      "task_0" empty_world = Ok tp w' ∧
    _generate_task_data
      (TaskGenerator_init (vid := working_encoder) (default_config palette_loc))
      empty_world = Ok td w1 ∧
    ground_truth_video tp = Some "/tmp/out.mp4"%string ∧
    length frames = 40%nat ∧
    take 5 frames = replicate 5 (first_image tp) ∧
    drop 30 frames = replicate 10 (final_image tp) ∧
    length (drawn w') = (27 * length (td_shapes td))%nat.
Proof.
  destruct (task_pair_with_video (vid := working_encoder) (default_config palette_loc)
              "task_0" default_shape_colors empty_world)
    as (tp & w' & td & w1 & frames & Hrun & Hgen & _ & _ & Hvideo & Hlen & Hfirst & Hlast & Hdr).
  - simpl. lia.
  - simpl. lia.
  - simpl. lia.
  - reflexivity.
  - discriminate.
  - repeat constructor; by vm_compute.
  - by vm_compute.
  - simpl. lia.
  - simpl. lia.
  - reflexivity.
  - reflexivity.
  - reflexivity.
  - exists tp, w', td, w1, frames. repeat split; assumption.
Defined.

Lemma default_config_scene_witness :
  ∃ td w' shapes,
    _generate_task_data sample_generator empty_world = Ok td w' ∧
    deref w' (td_shapes td) shapes ∧
    3 ≤ td_num_shapes td ≤ 5 ∧ length shapes = Z.to_nat (td_num_shapes td) ∧
    NoDup (shape_color <$> shapes) ∧
    Forall (λ s, 196 ≤ shape_x s ≤ 316 ∧ 196 ≤ shape_y s ≤ 316 ∧
                 80 ≤ shape_size s ≤ 150 ∧ (shape_color s).2 = 180) shapes.
Proof.
  apply (default_config_scene palette_loc empty_world). reflexivity.
Defined.


